(** * live_audio_transcriber: a shallow embedding of the pitch-detection core

    The development follows [src/backend/live_audio_transcriber.cpp]:
    the noise gate, the note-name and frequency-to-note helpers, the
    spectral peak scan of [detectFundamentalFrequency], the smoothing
    state machine and overlap buffer of [paCallback], and the writer of
    the detection log at the end of [main].

    Numbers are modelled as the program has them.  A C++ [double] is a
    primitive binary64 [float]; a [float] sample is a binary64 value too
    (every binary32 value is one, and the program only takes absolute
    values of samples and compares them, which is exact).  An [int] is a
    [Z] kept in the 32-bit two's complement range, [uint64_t] a [Z] taken
    modulo [2^64]. *)

From Stdlib Require Import ZArith List Bool Lia String Ascii.
From Stdlib Require Import Floats DecimalString DecimalZ.
Import ListNotations.

Local Open Scope Z_scope.

(** ** Machine integers *)

Module MachineInt.

Definition INT_MIN : Z := - 2 ^ 31.
Definition INT_MAX : Z := 2 ^ 31 - 1.

(** The value an [int] holds after an arithmetic result [z] is stored
    into it on a two's complement machine. *)
Definition wrap_int (z : Z) : Z := (z + 2 ^ 31) mod 2 ^ 32 - 2 ^ 31.

(** [x++] on an [int]. *)
Definition int_incr (x : Z) : Z := wrap_int (x + 1).

(** [x + y] on a [uint64_t]. *)
Definition u64_add (x y : Z) : Z := (x + y) mod 2 ^ 64.

Definition in_int_range (z : Z) : bool := (INT_MIN <=? z) && (z <=? INT_MAX).

End MachineInt.
Export MachineInt.

(** ** Doubles *)

Module Double.

(** Conversion of an integer to [double] (round to nearest even), as
    [static_cast<double>] does. *)
Definition of_Z (z : Z) : float :=
  SF2Prim (binary_normalize prec emax z 0 false).

(** The integer part of [m * 2^e], truncated toward zero. *)
Definition trunc_mag (m : positive) (e : Z) : Z :=
  if 0 <=? e then Z.pos m * 2 ^ e else Z.pos m / 2 ^ (- e).

(** [static_cast<int>(x)]: truncation toward zero.  Outside the range
    of [int] (and for NaN and the infinities) the conversion is
    undefined in C++; the model returns [INT_MIN], the value the x86
    conversion instruction produces. *)
Definition to_int (x : float) : Z :=
  match Prim2SF x with
  | S754_zero _ => 0
  | S754_finite s m e =>
      let t := trunc_mag m e in
      let v := if s then - t else t in
      if in_int_range v then v else INT_MIN
  | _ => INT_MIN
  end.

(** [m * 2^e] rounded to the nearest integer, halves away from zero. *)
Definition round_mag (m : positive) (e : Z) : Z :=
  if 0 <=? e then Z.pos m * 2 ^ e
  else (Z.pos m + 2 ^ (- e - 1)) / 2 ^ (- e).

(** [round(x)] of <cmath>: nearest integral value, halfway cases away
    from zero, the sign of [x] kept; zeros, infinities and NaN are
    returned unchanged. *)
Definition round (x : float) : float :=
  match Prim2SF x with
  | S754_finite s m e =>
      if 0 <=? e then x
      else let r := of_Z (round_mag m e) in
           if s then (- r)%float else r
  | _ => x
  end.

Definition gtb (x y : float) : bool := (y <? x)%float.
Definition geb (x y : float) : bool := (y <=? x)%float.

End Double.

(** ** Configuration constants (the [#define]s) *)

Definition SAMPLE_RATE : Z := 48000.
Definition FFT_SIZE : Z := 8192.
Definition HOP_SIZE : Z := FFT_SIZE / 2.
Definition FRAMES_PER_BUFFER : Z := HOP_SIZE.

(** [0.005f]: the binary32 value nearest to 0.005, [10737418 * 2^-31]. *)
Definition NOISE_GATE_THRESHOLD : float := 0x1.47ae14p-8%float.
Definition SPECTRAL_MAGNITUDE_THRESHOLD : float := 5%float.
Definition MIN_FREQUENCY : float := 80%float.
Definition MAX_FREQUENCY : float := 2000%float.
Definition CONSECUTIVE_DETECTIONS_REQUIRED : Z := 1.
Definition CONSECUTIVE_SILENCE_REQUIRED : Z := 1.

(** ** External collaborators

    Three functions the program calls live outside the repository:
    [log2] of <cmath>, the magnitude [std::abs] of a [std::complex<double>]
    and the FFTW plan execution.  They are taken as parameters. *)

Definition complex : Type := (float * float)%type.

Class Externals : Type := {
  log2 : float -> float;
  cabs : complex -> float;
  fftw_execute : list complex -> list complex
}.

(** ** Helper functions *)

(** The loop body of [passesNoiseGate]: one sample against the running
    maximum. *)
Definition gate_step (maxAmplitude sample : float) : float :=
  let absSample := abs sample in
  if Double.gtb absSample maxAmplitude then absSample else maxAmplitude.

Definition peakAmplitude (audioData : list float) : float :=
  fold_left gate_step audioData 0%float.

Definition passesNoiseGate (audioData : list float) : bool :=
  Double.gtb (peakAmplitude audioData) NOISE_GATE_THRESHOLD.

Definition noteNames : list string :=
  ["C"; "C#"; "D"; "D#"; "E"; "F"; "F#"; "G"; "G#"; "A"; "A#"; "B"]%string.

(** [std::to_string] on an [int]. *)
Definition to_string (z : Z) : string := NilZero.string_of_int (Z.to_int z).

Definition getNoteName (noteNumber : Z) : string :=
  if (noteNumber <=? 0) || (127 <? noteNumber) then "N/A"%string
  else
    let octave := Z.quot noteNumber 12 - 1 in
    let noteIndex := Z.rem noteNumber 12 in
    (nth (Z.to_nat noteIndex) noteNames ""%string ++ to_string octave)%string.

Definition frequencyToMidiNote `{Externals} (frequency : float) : Z :=
  if (frequency <=? 0)%float then 0
  else Double.to_int
         (Double.round (69 + 12 * log2 (frequency / 440))%float).

(** ** Spectral analysis *)

Definition czero : complex := (0%float, 0%float).

(** The [n] integers from [lo] on. *)
Fixpoint Zcount (n : nat) (lo : Z) : list Z :=
  match n with
  | O => []
  | S k => lo :: Zcount k (lo + 1)
  end.

(** The integers [lo, lo+1, ..., hi-1], the index values of
    [for (int i = lo; i < hi; ++i)]. *)
Definition Zrange (lo hi : Z) : list Z := Zcount (Z.to_nat (hi - lo)) lo.

(** A list cut or padded with [d] to exactly [n] elements: the array
    [a] with [a[i] = (i < l.size()) ? l[i] : d] for [i < n]. *)
Definition resize {A : Type} (n : nat) (d : A) (l : list A) : list A :=
  firstn n (l ++ repeat d n).

(** [fft]: the input is copied into the real parts of the FFTW input
    array (zero-padded or cut to [FFT_SIZE]), the plan is executed and the
    [FFT_SIZE] output values are copied out. *)
Definition fft `{Externals} (input : list float) : list complex :=
  let fftw_input :=
    resize (Z.to_nat FFT_SIZE) czero (map (fun x => (x, 0%float)) input) in
  let fftw_output := fftw_execute fftw_input in
  resize (Z.to_nat FFT_SIZE) czero fftw_output.

(** The frequency range indices of [detectFundamentalFrequency], after
    the "limit to valid range" step. *)
Definition minIndex : Z :=
  Z.max 1 (Double.to_int
             ((MIN_FREQUENCY * Double.of_Z FFT_SIZE) / Double.of_Z SAMPLE_RATE)%float).

Definition maxIndexLimit (fftData : list complex) : Z :=
  Z.min (wrap_int (Z.of_nat (List.length fftData) / 2))
        (Double.to_int
           ((MAX_FREQUENCY * Double.of_Z FFT_SIZE) / Double.of_Z SAMPLE_RATE)%float).

(** The body of the scanning loop; the accumulator is
    [(maxMagnitude, maxIndex)]. *)
Definition scan_step `{Externals} (fftData : list complex)
    (acc : float * Z) (i : Z) : float * Z :=
  let magnitude := cabs (nth (Z.to_nat i) fftData czero) in
  if Double.gtb magnitude (fst acc) then (magnitude, i) else acc.

Definition scanPeak `{Externals} (fftData : list complex) : float * Z :=
  fold_left (scan_step fftData)
            (Zrange minIndex (maxIndexLimit fftData)) (0%float, -1).

(** Bin index to frequency. *)
Definition binFrequency (i : Z) : float :=
  ((Double.of_Z i * Double.of_Z SAMPLE_RATE) / Double.of_Z FFT_SIZE)%float.

Definition inBand (frequency : float) : bool :=
  Double.geb frequency MIN_FREQUENCY && (frequency <=? MAX_FREQUENCY)%float.

(** [detectFundamentalFrequency] from the spectrum on: the scan, the
    magnitude floor and the additional range check. *)
Definition estimatePeak `{Externals} (fftData : list complex) : float :=
  let '(maxMagnitude, maxIndex) := scanPeak fftData in
  if (0 <? maxIndex) && Double.gtb maxMagnitude SPECTRAL_MAGNITUDE_THRESHOLD
  then
    let frequency := binFrequency maxIndex in
    if inBand frequency then frequency else 0%float
  else 0%float.

Definition detectFundamentalFrequency `{Externals} (audioData : list float) : float :=
  if negb (passesNoiseGate audioData) then 0%float
  else estimatePeak (fft audioData).

(** ** The audio callback *)

Record Detection : Type := {
  timeSec : float;
  frequencyHz : float;
  midiNote : Z
}.

(** The two messages the program writes to the MIDI stream:
    [NoteOn n] is [Pm_Message(0x90, n, 100)] and [NoteOff n] is
    [Pm_Message(0x90, n, 0)]. *)
Inductive MidiEvent : Type :=
| NoteOn (note : Z)
| NoteOff (note : Z).

(** The globals read and written by [paCallback], with the two output
    channels: the messages written to [midiStream] and the vector behind
    [userData], both in order.  [windowLog] is not a program variable: it
    records every [audioWindow] copied out of the overlap buffer together
    with the value of [framesProcessed] at that moment. *)
Record State : Type := {
  lastMidiNote : Z;
  noteChanged : bool;
  currentMidiNote : Z;
  currentFrequency : float;
  noteOffMidiNote : Z;
  callbackCount : Z;
  consecutiveDetections : Z;
  consecutiveSilences : Z;
  pendingMidiNote : Z;
  pendingFrequency : float;
  overlapBuffer : list float;
  framesProcessed : Z;
  midiOut : list MidiEvent;
  recordedDetections : list Detection;
  windowLog : list (Z * list float)
}.

Definition initialState : State := {|
  lastMidiNote := 0;
  noteChanged := false;
  currentMidiNote := 0;
  currentFrequency := 0%float;
  noteOffMidiNote := 0;
  callbackCount := 0;
  consecutiveDetections := 0;
  consecutiveSilences := 0;
  pendingMidiNote := 0;
  pendingFrequency := 0%float;
  overlapBuffer := [];
  framesProcessed := 0;
  midiOut := [];
  recordedDetections := [];
  windowLog := []
|}.

(** Timestamp at the centre of the analysis window. *)
Definition timestampSec (frames : Z) : float :=
  ((Double.of_Z frames + Double.of_Z FFT_SIZE / 2) / Double.of_Z SAMPLE_RATE)%float.

(** The condition of the "temporal smoothing" [if]. *)
Definition validNote (newMidiNote : Z) (fundamentalFrequency : float) : bool :=
  (0 <? newMidiNote) && Double.gtb fundamentalFrequency 200%float.

(** The "valid note detected" branch. *)
Definition onDetection (st : State) (fundamentalFrequency : float)
    (newMidiNote : Z) (ts : float) : State :=
  let same := newMidiNote =? pendingMidiNote st in
  let detections :=
    if same then int_incr (consecutiveDetections st) else 1 in
  let pendingNote := if same then pendingMidiNote st else newMidiNote in
  let pendingFreq := if same then pendingFrequency st else fundamentalFrequency in
  if (CONSECUTIVE_DETECTIONS_REQUIRED <=? detections)
     && negb (newMidiNote =? lastMidiNote st)
  then {|
    lastMidiNote := newMidiNote;
    noteChanged := true;
    currentMidiNote := newMidiNote;
    currentFrequency := fundamentalFrequency;
    noteOffMidiNote := noteOffMidiNote st;
    callbackCount := callbackCount st;
    consecutiveDetections := detections;
    consecutiveSilences := 0;
    pendingMidiNote := pendingNote;
    pendingFrequency := pendingFreq;
    overlapBuffer := overlapBuffer st;
    framesProcessed := framesProcessed st;
    midiOut :=
      midiOut st
      ++ (if 0 <? lastMidiNote st then [NoteOff (lastMidiNote st)] else [])
      ++ [NoteOn newMidiNote];
    recordedDetections :=
      recordedDetections st
      ++ [{| timeSec := ts; frequencyHz := fundamentalFrequency;
             midiNote := newMidiNote |}];
    windowLog := windowLog st
  |}
  else {|
    lastMidiNote := lastMidiNote st;
    noteChanged := noteChanged st;
    currentMidiNote := currentMidiNote st;
    currentFrequency := currentFrequency st;
    noteOffMidiNote := noteOffMidiNote st;
    callbackCount := callbackCount st;
    consecutiveDetections := detections;
    consecutiveSilences := 0;
    pendingMidiNote := pendingNote;
    pendingFrequency := pendingFreq;
    overlapBuffer := overlapBuffer st;
    framesProcessed := framesProcessed st;
    midiOut := midiOut st;
    recordedDetections := recordedDetections st;
    windowLog := windowLog st
  |}.

(** The "no valid note detected" branch. *)
Definition onSilence (st : State) : State :=
  let silences := int_incr (consecutiveSilences st) in
  if (CONSECUTIVE_SILENCE_REQUIRED <=? silences) && (0 <? lastMidiNote st)
  then {|
    lastMidiNote := 0;
    noteChanged := true;
    currentMidiNote := 0;
    currentFrequency := 0%float;
    noteOffMidiNote := lastMidiNote st;
    callbackCount := callbackCount st;
    consecutiveDetections := 0;
    consecutiveSilences := silences;
    pendingMidiNote := pendingMidiNote st;
    pendingFrequency := pendingFrequency st;
    overlapBuffer := overlapBuffer st;
    framesProcessed := framesProcessed st;
    midiOut := midiOut st ++ [NoteOff (lastMidiNote st)];
    recordedDetections := recordedDetections st;
    windowLog := windowLog st
  |}
  else {|
    lastMidiNote := lastMidiNote st;
    noteChanged := noteChanged st;
    currentMidiNote := currentMidiNote st;
    currentFrequency := currentFrequency st;
    noteOffMidiNote := noteOffMidiNote st;
    callbackCount := callbackCount st;
    consecutiveDetections := 0;
    consecutiveSilences := silences;
    pendingMidiNote := pendingMidiNote st;
    pendingFrequency := pendingFrequency st;
    overlapBuffer := overlapBuffer st;
    framesProcessed := framesProcessed st;
    midiOut := midiOut st;
    recordedDetections := recordedDetections st;
    windowLog := windowLog st
  |}.

(** The temporal smoothing logic: one step of the note state machine on
    the frequency and note estimated for a window. *)
Definition smoothingStep (st : State) (fundamentalFrequency : float)
    (newMidiNote : Z) (ts : float) : State :=
  if validNote newMidiNote fundamentalFrequency
  then onDetection st fundamentalFrequency newMidiNote ts
  else onSilence st.

(** Everything the loop body does with one window before the buffer is
    advanced. *)
Definition processWindow `{Externals} (st : State) (audioWindow : list float) : State :=
  let fundamentalFrequency := detectFundamentalFrequency audioWindow in
  let newMidiNote := frequencyToMidiNote fundamentalFrequency in
  smoothingStep st fundamentalFrequency newMidiNote
                (timestampSec (framesProcessed st)).

(** The part of the state the window loop itself touches. *)
Definition withBuffer (st : State) (buffer : list float) (frames : Z)
    (log : list (Z * list float)) : State := {|
  lastMidiNote := lastMidiNote st;
  noteChanged := noteChanged st;
  currentMidiNote := currentMidiNote st;
  currentFrequency := currentFrequency st;
  noteOffMidiNote := noteOffMidiNote st;
  callbackCount := callbackCount st;
  consecutiveDetections := consecutiveDetections st;
  consecutiveSilences := consecutiveSilences st;
  pendingMidiNote := pendingMidiNote st;
  pendingFrequency := pendingFrequency st;
  overlapBuffer := buffer;
  framesProcessed := frames;
  midiOut := midiOut st;
  recordedDetections := recordedDetections st;
  windowLog := log
|}.

(** Append the new samples to the overlap buffer. *)
Definition pushSamples (st : State) (input : list float) : State :=
  withBuffer st (overlapBuffer st ++ input) (framesProcessed st) (windowLog st).

(** The loop test [overlapBuffer.size() >= FFT_SIZE]. *)
Definition windowReady (st : State) : bool :=
  FFT_SIZE <=? Z.of_nat (List.length (overlapBuffer st)).

(** The copy of the first [FFT_SIZE] buffered samples. *)
Definition takeWindow (st : State) : list float :=
  firstn (Z.to_nat FFT_SIZE) (overlapBuffer st).

(** Advance by the hop size: [HOP_SIZE] times [pop_front], then
    [framesProcessed += HOP_SIZE]. *)
Definition advance (st : State) : State :=
  withBuffer st (skipn (Z.to_nat HOP_SIZE) (overlapBuffer st))
             (u64_add (framesProcessed st) HOP_SIZE) (windowLog st).

(** One iteration of the [while] loop. *)
Definition windowStep `{Externals} (st : State) : State :=
  let audioWindow := takeWindow st in
  let logged :=
    withBuffer st (overlapBuffer st) (framesProcessed st)
               (windowLog st ++ [(framesProcessed st, audioWindow)]) in
  advance (processWindow logged audioWindow).

(** The [while] loop, bounded by [fuel] iterations. *)
Fixpoint drainLoop `{Externals} (fuel : nat) (st : State) : State :=
  match fuel with
  | O => st
  | S fuel' =>
      if windowReady st then drainLoop fuel' (windowStep st) else st
  end.

(** Every iteration removes [HOP_SIZE] samples, so the buffered length
    bounds the number of iterations. *)
Definition drainWindows `{Externals} (st : State) : State :=
  drainLoop (List.length (overlapBuffer st)) st.

Definition bumpCallbackCount (st : State) : State := {|
  lastMidiNote := lastMidiNote st;
  noteChanged := noteChanged st;
  currentMidiNote := currentMidiNote st;
  currentFrequency := currentFrequency st;
  noteOffMidiNote := noteOffMidiNote st;
  callbackCount := u64_add (callbackCount st) 1;
  consecutiveDetections := consecutiveDetections st;
  consecutiveSilences := consecutiveSilences st;
  pendingMidiNote := pendingMidiNote st;
  pendingFrequency := pendingFrequency st;
  overlapBuffer := overlapBuffer st;
  framesProcessed := framesProcessed st;
  midiOut := midiOut st;
  recordedDetections := recordedDetections st;
  windowLog := windowLog st
|}.

(** [paCallback] on an input buffer of [framesPerBuffer = length input]
    samples. *)
Definition paCallback `{Externals} (st : State) (input : list float) : State :=
  bumpCallbackCount (drainWindows (pushSamples st input)).

(** The stream: one callback per delivered buffer, in arrival order. *)
Definition runCallbacks `{Externals} (st : State) (buffers : list (list float)) : State :=
  fold_left paCallback buffers st.

(** The note state machine fed a sequence of analysis windows: the loop
    body without the buffer management, the frame counter advancing by
    the hop size after each window. *)
Definition feedWindow `{Externals} (st : State) (audioWindow : list float) : State :=
  let st' := processWindow st audioWindow in
  withBuffer st' (overlapBuffer st') (u64_add (framesProcessed st') HOP_SIZE)
             (windowLog st').

Definition feedWindows `{Externals} (st : State) (windows : list (list float)) : State :=
  fold_left feedWindow windows st.

(** The end of [main] as far as the MIDI stream goes: a last note-off if
    a note is still sounding. *)
Definition shutdownMidi (st : State) : list MidiEvent :=
  midiOut st ++ (if 0 <? lastMidiNote st then [NoteOff (lastMidiNote st)] else []).

(** ** The detection log writer

    [outputFile << x] for a [double] in the stream's default state is
    the [%g] conversion with precision 6: six significant digits of the
    exact value (ties to even), fixed notation when the decimal exponent
    lies in [-4, 5] and scientific notation otherwise, trailing zeros
    removed. *)

Module Ostream.

Definition digitChar (d : Z) : ascii := ascii_of_nat (48 + Z.to_nat d).

(** The [n] lowest decimal digits of [z], most significant first. *)
Fixpoint digitsOf (n : nat) (z : Z) : list Z :=
  match n with
  | O => []
  | S k => digitsOf k (z / 10) ++ [z mod 10]
  end.

Fixpoint dropZeros (ds : list Z) : list Z :=
  match ds with
  | d :: ds' => if d =? 0 then dropZeros ds' else ds
  | [] => []
  end.

(** Removal of trailing zeros. *)
Definition stripZeros (ds : list Z) : list Z := rev (dropZeros (rev ds)).

Definition showDigits (ds : list Z) : string :=
  string_of_list_ascii (map digitChar ds).

(** [10^X <= N / D], for positive [N] and [D]. *)
Definition pow10_le (X N D : Z) : bool :=
  if 0 <=? X then 10 ^ X * D <=? N else D <=? N * 10 ^ (- X).

(** The largest [X' >= X] with [10^X' <= N / D], searching upward. *)
Fixpoint findExp (fuel : nat) (X N D : Z) : Z :=
  match fuel with
  | O => X
  | S k => if pow10_le (X + 1) N D then findExp k (X + 1) N D else X
  end.

(** [A / B] rounded to the nearest integer, ties to even. *)
Definition roundHalfEven (A B : Z) : Z :=
  let q := A / B in
  match 2 * (A mod B) ?= B with
  | Lt => q
  | Gt => q + 1
  | Eq => if Z.even q then q else q + 1
  end.

(** Six significant digits of [N / D] and its decimal exponent: the
    pair [(d, X)] with [100000 <= d <= 999999] and [N / D] about
    [d * 10^(X - 5)]. *)
Definition sig6 (N D : Z) : Z * Z :=
  let X := findExp 800 (-400) N D in
  let d :=
    if 5 <=? X then roundHalfEven N (D * 10 ^ (X - 5))
    else roundHalfEven (N * 10 ^ (5 - X)) D in
  if d =? 1000000 then (100000, X + 1) else (d, X).

Definition withPoint (intPart fracPart : list Z) : string :=
  match stripZeros fracPart with
  | [] => showDigits intPart
  | frac => (showDigits intPart ++ "." ++ showDigits frac)%string
  end.

Definition showExponent (X : Z) : string :=
  let a := Z.abs X in
  let sign := if X <? 0 then "-"%string else "+"%string in
  let pad := if a <? 10 then "0"%string else ""%string in
  (sign ++ pad ++ NilZero.string_of_int (Z.to_int a))%string.

(** The text of the positive value [N / D]. *)
Definition showPositive (N D : Z) : string :=
  let '(d, X) := sig6 N D in
  let ds := digitsOf 6 d in
  if (-4 <=? X) && (X <? 6) then
    if 0 <=? X
    then withPoint (firstn (Z.to_nat (X + 1)) ds) (skipn (Z.to_nat (X + 1)) ds)
    else withPoint [0] (repeat 0 (Z.to_nat (- X - 1)) ++ ds)
  else
    (withPoint (firstn 1 ds) (skipn 1 ds) ++ "e" ++ showExponent X)%string.

Definition put_double (x : float) : string :=
  match Prim2SF x with
  | S754_nan => "nan"%string
  | S754_infinity s => if s then "-inf"%string else "inf"%string
  | S754_zero s => if s then "-0"%string else "0"%string
  | S754_finite s m e =>
      let N := if 0 <=? e then Z.pos m * 2 ^ e else Z.pos m in
      let D := if 0 <=? e then 1 else 2 ^ (- e) in
      let sign := if s then "-"%string else ""%string in
      (sign ++ showPositive N D)%string
  end.

Definition put_int (z : Z) : string := NilZero.string_of_int (Z.to_int z).

End Ostream.

Definition newline : string := String (ascii_of_nat 10) EmptyString.

(** One line of [frequency_data.txt]. *)
Definition writeDetection (det : Detection) : string :=
  (Ostream.put_double (timeSec det) ++ ","
   ++ Ostream.put_double (frequencyHz det) ++ ","
   ++ Ostream.put_int (midiNote det) ++ newline)%string.

(** The file contents: the detections in vector order. *)
Definition writeLog (detections : list Detection) : string :=
  fold_right (fun det rest => (writeDetection det ++ rest)%string)
             EmptyString detections.

(** ** FFTW resources

    [initializeFFTW] and [cleanupFFTW] manage three globals: the two
    arrays obtained from [fftw_malloc] and the plan.  A global is [Some h]
    for a live resource with handle [h] and [None] for [nullptr].  The
    library is modelled by what the program can observe and do to it:
    the handles that are live, and the handles that were released while
    not live. *)

Record FftwGlobals : Type := {
  fftw_plan_ptr : option nat;
  fftw_input : option nat;
  fftw_output : option nat
}.

Record FftwLibrary : Type := {
  nextHandle : nat;
  liveHandles : list nat;
  badReleases : list nat
}.

Definition noFftwGlobals : FftwGlobals :=
  {| fftw_plan_ptr := None; fftw_input := None; fftw_output := None |}.

(** An allocation ([fftw_malloc], [fftw_plan_dft_1d]): a fresh handle, or
    [NULL] when the library cannot provide one. *)
Definition fftwAcquire (succeeds : bool) (lib : FftwLibrary) : option nat * FftwLibrary :=
  if succeeds
  then (Some (nextHandle lib),
        {| nextHandle := S (nextHandle lib);
           liveHandles := nextHandle lib :: liveHandles lib;
           badReleases := badReleases lib |})
  else (None, lib).

(** A release ([fftw_free], [fftw_destroy_plan]) of the handle [h]. *)
Definition fftwRelease (h : nat) (lib : FftwLibrary) : FftwLibrary :=
  if existsb (Nat.eqb h) (liveHandles lib)
  then {| nextHandle := nextHandle lib;
          liveHandles := filter (fun k => negb (Nat.eqb h k)) (liveHandles lib);
          badReleases := badReleases lib |}
  else {| nextHandle := nextHandle lib;
          liveHandles := liveHandles lib;
          badReleases := h :: badReleases lib |}.

(** [initializeFFTW]; the three booleans say which of the allocations
    succeed. *)
Definition initializeFFTW (okInput okOutput okPlan : bool)
    (lib : FftwLibrary) : FftwGlobals * FftwLibrary :=
  let '(input, lib1) := fftwAcquire okInput lib in
  let '(output, lib2) := fftwAcquire okOutput lib1 in
  let '(plan, lib3) := fftwAcquire okPlan lib2 in
  ({| fftw_plan_ptr := plan; fftw_input := input; fftw_output := output |}, lib3).

Definition cleanupFFTW (g : FftwGlobals) (lib : FftwLibrary) : FftwGlobals * FftwLibrary :=
  let lib1 :=
    match fftw_plan_ptr g with Some h => fftwRelease h lib | None => lib end in
  let lib2 :=
    match fftw_input g with Some h => fftwRelease h lib1 | None => lib1 end in
  let lib3 :=
    match fftw_output g with Some h => fftwRelease h lib2 | None => lib2 end in
  (noFftwGlobals, lib3).

(** ** The main loop

    One iteration of the [while] loop of [main]: the display of a note
    change and the periodic throughput line.  [fiveSeconds] says whether
    five seconds have passed since the last throughput line.  The result
    is the new state of the globals and the lines written to
    [std::cout]. *)

Definition withDisplay (st : State) (changed : bool) (noteOff : Z) (count : Z) : State := {|
  lastMidiNote := lastMidiNote st;
  noteChanged := changed;
  currentMidiNote := currentMidiNote st;
  currentFrequency := currentFrequency st;
  noteOffMidiNote := noteOff;
  callbackCount := count;
  consecutiveDetections := consecutiveDetections st;
  consecutiveSilences := consecutiveSilences st;
  pendingMidiNote := pendingMidiNote st;
  pendingFrequency := pendingFrequency st;
  overlapBuffer := overlapBuffer st;
  framesProcessed := framesProcessed st;
  midiOut := midiOut st;
  recordedDetections := recordedDetections st;
  windowLog := windowLog st
|}.

Definition detectedLine (st : State) : string :=
  ("Detected Frequency: " ++ Ostream.put_double (currentFrequency st)
   ++ " Hz -> Transcribed Note: " ++ getNoteName (currentMidiNote st))%string.

Definition noteOffLine (st : State) : string :=
  ("Note Off: " ++ getNoteName (noteOffMidiNote st))%string.

Definition throughputLine (st : State) : string :=
  ("Callbacks processed in last 5s: " ++ Ostream.put_int (callbackCount st))%string.

(** The "non-real-time I/O handling" of the loop body. *)
Definition displayNoteChange (st : State) : State * list string :=
  if noteChanged st then
    if 0 <? currentMidiNote st then
      (withDisplay st false (noteOffMidiNote st) (callbackCount st),
       [detectedLine st])
    else if 0 <? noteOffMidiNote st then
      (withDisplay st false 0 (callbackCount st), [noteOffLine st])
    else
      (withDisplay st false (noteOffMidiNote st) (callbackCount st), [])
  else (st, []).

(** The "log callback count periodically" of the loop body. *)
Definition logThroughput (st : State) (fiveSeconds : bool) : State * list string :=
  if fiveSeconds
  then (withDisplay st (noteChanged st) (noteOffMidiNote st) 0, [throughputLine st])
  else (st, []).

Definition pollStep (st : State) (fiveSeconds : bool) : State * list string :=
  let '(st1, shown) := displayNoteChange st in
  let '(st2, logged) := logThroughput st1 fiveSeconds in
  (st2, shown ++ logged).

(** ** The program

    What [main] does to the outside world, in program order. *)

Inductive Effect : Type :=
| Cout (text : string)
| Cerr (text : string)
| InitializeFFTW
| CleanupFFTW
| Pa_Initialize
| Pa_Terminate
| Pm_Initialize
| Pm_Terminate
| Pm_OpenOutput (device : Z)
| Pm_Close
| Pa_OpenStream (device : Z)
| Pa_StartStream
| Pa_StopStream
| Pa_CloseStream
| Pm_WriteShort (message : MidiEvent)
| WriteFile (text : string).

(** An entry of the PortMidi device table, [Pm_GetDeviceInfo(i)]. *)
Record PmDeviceInfo : Type := {
  deviceName : string;
  deviceOutput : Z
}.

(** What happens while the stream runs: the audio subsystem delivers a
    buffer to [paCallback], or the main loop runs one iteration.  The
    callback and the loop body are taken as indivisible steps. *)
Inductive SessionStep : Type :=
| Deliver (buffer : list float)
| Poll (fiveSeconds : bool).

(** Everything the run depends on: the results of the library calls,
    the device table, the steps of the session until Enter is pressed,
    and the buffers still delivered between the last note-off of [main]
    and the stop of the stream. *)
Record Environment : Type := {
  paInitializeResult : Z;
  pmInitializeResult : Z;
  midiDevices : list (option PmDeviceInfo);
  pmOpenOutputResult : Z;
  defaultInputDevice : Z;
  paOpenStreamResult : Z;
  paStartStreamResult : Z;
  session : list SessionStep;
  lateBuffers : list (list float);
  paStopStreamResult : Z;
  paCloseStreamResult : Z;
  outputFileOpens : bool;
  paErrorText : Z -> string;
  pmErrorText : Z -> string
}.

Definition paNoError : Z := 0.
Definition pmNoError : Z := 0.
Definition paNoDevice : Z := -1.

(** The device search of [main]: the index of the first entry that is
    an output device, with its name, searching from index [i]. *)
Fixpoint findOutputDevice (devices : list (option PmDeviceInfo)) (i : Z)
    : option (Z * string) :=
  match devices with
  | [] => None
  | info :: rest =>
      match info with
      | Some d =>
          if negb (deviceOutput d =? 0) then Some (i, deviceName d)
          else findOutputDevice rest (wrap_int (i + 1))
      | None => findOutputDevice rest (wrap_int (i + 1))
      end
  end.

(** The messages a callback has written to the MIDI stream. *)
Definition midiSince (before after : State) : list Effect :=
  map Pm_WriteShort (skipn (List.length (midiOut before)) (midiOut after)).

Definition sessionStep `{Externals} (acc : State * list Effect) (s : SessionStep)
    : State * list Effect :=
  match s with
  | Deliver buffer =>
      let st' := paCallback (fst acc) buffer in
      (st', snd acc ++ midiSince (fst acc) st')
  | Poll fiveSeconds =>
      let '(st', lines) := pollStep (fst acc) fiveSeconds in
      (st', snd acc ++ map Cout lines)
  end.

Definition runSession `{Externals} (st : State) (steps : list SessionStep)
    : State * list Effect :=
  fold_left sessionStep steps (st, []).

Definition paErrorLine (env : Environment) (err : Z) : Effect :=
  Cerr ("PortAudio error: " ++ paErrorText env err).

Definition pmErrorLine (env : Environment) (err : Z) : Effect :=
  Cerr ("PortMidi error: " ++ pmErrorText env err).

(** From the end of the loop to [return 0]. *)
Definition teardown `{Externals} (env : Environment) (st : State) : list Effect :=
  let finalOff :=
    if 0 <? lastMidiNote st then [Pm_WriteShort (NoteOff (lastMidiNote st))] else [] in
  let '(st', late) := runSession st (map Deliver (lateBuffers env)) in
  finalOff ++ late
  ++ [Pa_StopStream]
  ++ (if negb (paStopStreamResult env =? paNoError)
      then [paErrorLine env (paStopStreamResult env)] else [])
  ++ [Pa_CloseStream]
  ++ (if negb (paCloseStreamResult env =? paNoError)
      then [paErrorLine env (paCloseStreamResult env)] else [])
  ++ [Pm_Close; Pm_Terminate; Pa_Terminate; CleanupFFTW;
      Cout "Transcription stopped and cleaned up.";
      Cout "Saving recorded detections to frequency_data.txt..."]
  ++ (if outputFileOpens env
      then [WriteFile (writeLog (recordedDetections st'));
            Cout ("Successfully saved "
                  ++ Ostream.put_int (Z.of_nat (List.length (recordedDetections st')))
                  ++ " detections (time_s,freq_hz,midi) to frequency_data.txt");
            Cout "Format: time_seconds,frequency_hz,midi_note per line."]
      else [Cerr "Error: Unable to open frequency_data.txt for writing."]).

(** [main]: the exit status and the effects. *)
Definition main `{Externals} (env : Environment) : Z * list Effect :=
  let e1 := [Cout "Initializing FFTW..."; InitializeFFTW;
             Cout "Initializing PortAudio..."; Pa_Initialize] in
  if negb (paInitializeResult env =? paNoError) then
    (1, e1 ++ [paErrorLine env (paInitializeResult env); CleanupFFTW])
  else
  let e2 := e1 ++ [Cout "Initializing PortMidi..."; Pm_Initialize] in
  if negb (pmInitializeResult env =? pmNoError) then
    (1, e2 ++ [pmErrorLine env (pmInitializeResult env); Pa_Terminate])
  else
  match findOutputDevice (midiDevices env) 0 with
  | None =>
      (1, e2 ++ [Cerr "Error: No MIDI output device found. You may need a virtual MIDI cable or a connected device.";
                 Pa_Terminate; Pm_Terminate])
  | Some (outputDevice, name) =>
      let e3 := e2 ++ [Cout ("Found MIDI output device: " ++ name ++ " at index "
                             ++ to_string outputDevice);
                       Pm_OpenOutput outputDevice] in
      if negb (pmOpenOutputResult env =? pmNoError) then
        (1, e3 ++ [pmErrorLine env (pmOpenOutputResult env);
                   Pa_Terminate; Pm_Terminate; CleanupFFTW])
      else
      if defaultInputDevice env =? paNoDevice then
        (1, e3 ++ [Cerr "Error: No default input device found.";
                   Pa_Terminate; Pm_Terminate; CleanupFFTW])
      else
      let e4 := e3 ++ [Pa_OpenStream (defaultInputDevice env)] in
      if negb (paOpenStreamResult env =? paNoError) then
        (1, e4 ++ [paErrorLine env (paOpenStreamResult env);
                   Pa_Terminate; Pm_Terminate; CleanupFFTW])
      else
      let e5 := e4 ++ [Cout "Starting live audio transcription to MIDI. Hum or play a note! Press Enter to stop.";
                       Pa_StartStream] in
      if negb (paStartStreamResult env =? paNoError) then
        (1, e5 ++ [paErrorLine env (paStartStreamResult env);
                   Pa_CloseStream; Pa_Terminate; Pm_Terminate; CleanupFFTW])
      else
      let '(st, during) := runSession initialState (session env) in
      (0, e5 ++ [Cout "Press Enter to stop recording and save data..."]
          ++ during ++ teardown env st)
  end.

(** ** MIDI delivery times

    [Pm_WriteShort(midiStream, 0, message)]: each of the four calls of
    the program, the three of the callback and the one of [main], passes
    the literal [0] as the [when] argument, the delivery time of the
    message. *)
Definition PM_WHEN : Z := 0.

(** The messages written so far, each with its delivery time. *)
Definition midiDelivery (st : State) : list (Z * MidiEvent) :=
  map (fun message => (PM_WHEN, message)) (midiOut st).

(** ** Stand-ins for the external functions

    Executable instances of [Externals], used to run the model on
    concrete inputs. *)

(** The binary digits of [log2 y] for [1 <= y < 2], by repeated
    squaring; [w] is the weight of the next digit. *)
Fixpoint log2_fraction (n : nat) (y w : float) : float :=
  match n with
  | O => 0%float
  | S k =>
      let y2 := (y * y)%float in
      if (2 <=? y2)%float
      then (w + log2_fraction k (y2 / 2) (w / 2))%float
      else log2_fraction k y2 (w / 2)%float
  end.

(** A base-2 logarithm: exact on the powers of two, an approximation
    elsewhere. *)
Definition log2_by_squaring (x : float) : float :=
  match Prim2SF x with
  | S754_nan => nan
  | S754_zero _ => neg_infinity
  | S754_infinity s => if s then nan else infinity
  | S754_finite s _ _ =>
      if s then nan
      else let (r, ex) := Z.frexp x in
           (Double.of_Z (ex - 1) + log2_fraction 53 (2 * r) 0.5)%float
  end.

(** The magnitude by the textbook formula; exact on real and on
    imaginary values of moderate size. *)
Definition cabs_naive (c : complex) : float :=
  PrimFloat.sqrt (fst c * fst c + snd c * snd c)%float.

(** In place of the transform, a plan that delivers a given spectrum. *)
Definition fixedSpectrum (spectrum : list complex) : Externals := {|
  log2 := log2_by_squaring;
  cabs := cabs_naive;
  fftw_execute := fun _ => spectrum
|}.

(** A spectrum with the given real values at the given bins and zero
    elsewhere: the entries for bins [i, i+1, ..., i+n-1]. *)
Fixpoint spectrumFrom (n : nat) (i : Z) (peaks : list (Z * float)) : list complex :=
  match n with
  | O => []
  | S k =>
      match find (fun p => fst p =? i) peaks with
      | Some p => (snd p, 0%float)
      | None => czero
      end :: spectrumFrom k (i + 1) peaks
  end.

Definition spectrumOf (peaks : list (Z * float)) : list complex :=
  spectrumFrom (Z.to_nat FFT_SIZE) 0 peaks.

(** A transform stand-in that reads the bin to excite from the first
    input value [x0]: a single peak of magnitude 10 at bin [1024 * x0]. *)
Definition codedTransform (input : list complex) : list complex :=
  spectrumOf [(Double.to_int (fst (nth 0 input czero) * 1024)%float, 10%float)].

Definition codedSpectrum : Externals := {|
  log2 := log2_by_squaring;
  cabs := cabs_naive;
  fftw_execute := codedTransform
|}.

(** A window of constant samples that [codedTransform] maps to a peak at
    [bin]; it passes the noise gate from bin 6 on. *)
Definition codedWindow (bin : Z) : list float :=
  repeat (Double.of_Z bin / 1024)%float (Z.to_nat FFT_SIZE).

(** ** Vocabulary of the properties *)

(** A sample that opens the gate. *)
Definition aboveGate (sample : float) : bool :=
  Double.gtb (abs sample) NOISE_GATE_THRESHOLD.

(** The doubles that are binary32 numbers, the values a [float] sample
    can take: a finite one is [k * 2^q] with [k < 2^24] and
    [-149 <= q <= 104], so that of the 53 bits of the mantissa [m] of the
    double the lowest 29 (more below the normal range of binary32) are
    zero. *)
Definition isBinary32 (x : float) : bool :=
  match Prim2SF x with
  | S754_finite _ m e =>
      (Z.pos m mod 2 ^ Z.max 29 (- 149 - e) =? 0) && (e <=? 75)
  | _ => true
  end.

(** [|x| > p / q] in exact arithmetic, for positive [q]. *)
Definition absExceeds (x : float) (p q : Z) : Prop :=
  match Prim2SF x with
  | S754_finite _ m e =>
      if 0 <=? e then p < q * (Z.pos m * 2 ^ e) else p * 2 ^ (- e) < q * Z.pos m
  | S754_infinity _ => True
  | _ => False
  end.

(** A monitor of the MIDI stream.  It tracks the sounding note ([0] for
    none) and rejects, with [None], a note-on while a note is sounding, a
    note-on for a note number that is not positive, and a note-off for
    anything but the sounding note. *)
Definition monitor (active : option Z) (ev : MidiEvent) : option Z :=
  match active, ev with
  | Some a, NoteOn n => if (a =? 0) && (0 <? n) then Some n else None
  | Some a, NoteOff n => if (0 <? a) && (n =? a) then Some 0 else None
  | None, _ => None
  end.

(** The sounding note after a stream of events that starts in silence,
    if the monitor accepts the stream. *)
Definition activeAfter (events : list MidiEvent) : option Z :=
  fold_left monitor events (Some 0).

(** The events that take the sounding note from [a] to [b]. *)
Definition transition (a b : Z) : list MidiEvent :=
  if a =? b then []
  else (if 0 <? a then [NoteOff a] else [])
       ++ (if 0 <? b then [NoteOn b] else []).

(** The notes of the note-on events of a stream, in order. *)
Definition noteOns (events : list MidiEvent) : list Z :=
  flat_map (fun ev => match ev with NoteOn n => [n] | NoteOff _ => [] end) events.

(** What a state promises about the MIDI stream written so far: the
    monitor accepts it and the note it leaves sounding is
    [lastMidiNote]. *)
Definition midiConsistent (st : State) : Prop :=
  activeAfter (midiOut st) = Some (lastMidiNote st) /\ 0 <= lastMidiNote st.

(** The counters: one of them is reset in either branch. *)
Definition countersExclusive (st : State) : Prop :=
  consecutiveDetections st = 0 \/ consecutiveSilences st = 0.

(** The detection log: every entry lies above 200 Hz, and the entries
    are the note-ons of the MIDI stream. *)
Definition detectionsAbove200 (st : State) : Prop :=
  Forall (fun det => Double.gtb (frequencyHz det) 200%float = true)
         (recordedDetections st).

Definition detectionsMatchNoteOns (st : State) : Prop :=
  noteOns (midiOut st) = map midiNote (recordedDetections st).


(** The variables of the note state machine and its two outputs: the
    state without the overlap buffer, the window log and the callback
    counter. *)
Definition machineState (st : State) :=
  (lastMidiNote st, noteChanged st, currentMidiNote st, currentFrequency st,
   noteOffMidiNote st, consecutiveDetections st, consecutiveSilences st,
   pendingMidiNote st, pendingFrequency st, framesProcessed st,
   midiOut st, recordedDetections st).

(** The cumulative frame offset of the [k]-th analysis window. *)
Definition windowOffset (k : nat) : Z := (Z.of_nat k * HOP_SIZE) mod 2 ^ 64.

(** A property of states that every operation of the callback keeps. *)
Record Preserved (P : State -> Prop) : Prop := {
  preserved_smoothing :
    forall st f n ts, P st -> P (smoothingStep st f n ts);
  preserved_buffer :
    forall st buffer frames log, P st -> P (withBuffer st buffer frames log);
  preserved_count :
    forall st, P st -> P (bumpCallbackCount st)
}.

(** The window log lists the offsets [0, HOP_SIZE, 2 * HOP_SIZE, ...]
    and the frame counter is the offset of the next window. *)
Definition offsetsInStep (st : State) : Prop :=
  map fst (windowLog st) = map windowOffset (seq 0 (List.length (windowLog st)))
  /\ framesProcessed st = windowOffset (List.length (windowLog st)).

(** The magnitude the scan reads at bin [i]. *)
Definition binMagnitude `{Externals} (fftData : list complex) (i : Z) : float :=
  cabs (nth (Z.to_nat i) fftData czero).

(** The peak estimator in the specification's words, for comparison with
    [estimatePeak]: only the bins from 1 on whose frequency lies in the
    band are considered; the rest is as in the program. *)
Definition bandBins (fftData : list complex) : list Z :=
  filter (fun i => inBand (binFrequency i))
         (Zrange 1 (Z.of_nat (List.length fftData))).

Definition estimatePeakInBand `{Externals} (fftData : list complex) : float :=
  let '(maxMagnitude, maxIndex) :=
    fold_left (scan_step fftData) (bandBins fftData) (0%float, -1) in
  if (0 <? maxIndex) && Double.gtb maxMagnitude SPECTRAL_MAGNITUDE_THRESHOLD
  then
    let frequency := binFrequency maxIndex in
    if inBand frequency then frequency else 0%float
  else 0%float.

(** A frame with magnitude 12 at bin 13 (76.171875 Hz) and magnitude 10 at
    bin 75 (439.453125 Hz). *)
Definition maskedPeakFrame : list complex :=
  spectrumOf [(13, 12%float); (75, 10%float)].

(** What the scan has established after the bins [lo .. hi-1], starting
    from [(0.0, -1)]: either no bin had a magnitude above zero, or the
    result is the first bin whose magnitude no other bin exceeds. *)
Definition scanResult `{Externals} (fftData : list complex) (lo hi : Z)
    (r : float * Z) : Prop :=
  is_nan (fst r) = false /\
  ((r = (0%float, -1) /\
    forall i, lo <= i < hi -> (0 <? binMagnitude fftData i)%float = false)
   \/
   (lo <= snd r < hi /\
    fst r = binMagnitude fftData (snd r) /\
    (0 <? fst r)%float = true /\
    (forall i, lo <= i < snd r ->
       (binMagnitude fftData i <? fst r)%float = true
       \/ is_nan (binMagnitude fftData i) = true) /\
    (forall i, snd r < i < hi -> (fst r <? binMagnitude fftData i)%float = false))).

(** ** A reader for the detection log

    The program only writes the log.  The reader below follows the
    description of the file: "one line per emitted note-on event, fields
    [timestampSeconds,frequencyHz,noteNumber] comma-separated,
    newline-terminated". *)

Definition comma : ascii := ascii_of_nat 44.
Definition linefeed : ascii := ascii_of_nat 10.

(** The pieces of a text between the occurrences of [sep]. *)
Fixpoint splitOn (sep : ascii) (s : string) : list string :=
  match s with
  | EmptyString => [EmptyString]
  | String c s' =>
      if Ascii.eqb c sep then EmptyString :: splitOn sep s'
      else match splitOn sep s' with
           | piece :: pieces => String c piece :: pieces
           | [] => [String c EmptyString]
           end
  end.

Definition readInt (s : string) : option Z :=
  option_map Z.of_int (NilZero.int_of_string s).

(** A text in which the character [sep] does not occur. *)
Fixpoint freeOf (sep : ascii) (s : string) : bool :=
  match s with
  | EmptyString => true
  | String c s' => negb (Ascii.eqb c sep) && freeOf sep s'
  end.

(** A text without separators: no comma and no newline. *)
Definition plain (s : string) : bool := freeOf comma s && freeOf linefeed s.

(** A decimal digit. *)
Definition isDigit (d : Z) : Prop := 0 <= d <= 9.

(** What the program logs for a 440 Hz tone that starts with the stream:
    the centre of the first window and the frequency of bin 75. *)
Definition firstToneDetection : Detection := {|
  timeSec := timestampSec 0;
  frequencyHz := binFrequency 75;
  midiNote := 69
|}.

(** The detection that carries the numbers the log shows for it. *)
Definition firstToneAsPrinted : Detection := {|
  timeSec := 0x1.5d86734c27f6cp-4%float;
  frequencyHz := 0x1.b773f7ced9168p+8%float;
  midiNote := 69
|}.

(** [d] and [X] are six significant digits of the positive number
    [N / D]: [d] has six digits and [d * 10^(X - 5)] is within half a unit
    of the sixth digit of [N / D]. *)
Definition sixDigitsOf (N D d X : Z) : Prop :=
  100000 <= d <= 999999 /\
  Z.abs (2 * (N * 10 ^ Z.max (5 - X) 0) - 2 * d * (D * 10 ^ Z.max (X - 5) 0))
  <= D * 10 ^ Z.max (X - 5) 0.

(** The numerator and the denominator [put_double] computes for a finite
    double [m * 2^e]. *)
Definition numeratorOf (m : positive) (e : Z) : Z :=
  if 0 <=? e then Z.pos m * 2 ^ e else Z.pos m.

Definition denominatorOf (e : Z) : Z :=
  if 0 <=? e then 1 else 2 ^ (- e).

(** *** Reading numbers

    Modelled from the spec: the reader reproduces [(time, frequency,
    note)] triples, so it reads the two decimal fields as numbers. *)

(** Modelled from the spec: a number read from the log.  [Decimal m e]
    is the number [m * 10^e]. *)
Inductive Reading : Type :=
| Decimal (mantissa exponent : Z)
| Infinite (negative : bool)
| NotANumber.

Definition negate (r : Reading) : Reading :=
  match r with
  | Decimal m e => Decimal (- m) e
  | Infinite s => Infinite (negb s)
  | NotANumber => NotANumber
  end.

Definition point : ascii := ascii_of_nat 46.
Definition exponentMark : ascii := ascii_of_nat 101.
Definition minusSign : ascii := ascii_of_nat 45.
Definition plusSign : ascii := ascii_of_nat 43.

(** The value of a decimal digit character. *)
Definition digitOf (c : ascii) : option Z :=
  let n := Z.of_nat (nat_of_ascii c) in
  if (48 <=? n) && (n <=? 57) then Some (n - 48) else None.

(** The number a text of decimal digits denotes, continuing from the
    number [acc] of the digits before it. *)
Fixpoint digitsValue (acc : Z) (s : string) : option Z :=
  match s with
  | EmptyString => Some acc
  | String c s' =>
      match digitOf c with
      | Some d => digitsValue (acc * 10 + d) s'
      | None => None
      end
  end.

Definition readDigits (s : string) : option Z :=
  match s with
  | EmptyString => None
  | _ => digitsValue 0 s
  end.

(** The text before the first [sep], and the text after it if [sep]
    occurs. *)
Fixpoint cutAt (sep : ascii) (s : string) : string * option string :=
  match s with
  | EmptyString => (EmptyString, None)
  | String c s' =>
      if Ascii.eqb c sep then (EmptyString, Some s')
      else let '(before, after) := cutAt sep s' in (String c before, after)
  end.

(** Modelled from the spec: digits with an optional fraction after a
    point, as the number [m * 10^e] of all the digits and minus the
    number of fraction digits. *)
Definition readMantissa (s : string) : option (Z * Z) :=
  match cutAt point s with
  | (whole, None) => option_map (fun m => (m, 0)) (readDigits whole)
  | (whole, Some fraction) =>
      option_map (fun m => (m, - Z.of_nat (String.length fraction)))
                 (readDigits (whole ++ fraction))
  end.

(** Modelled from the spec: the decimal exponent after the [e], with
    its sign. *)
Definition readExponent (s : string) : option Z :=
  match s with
  | EmptyString => None
  | String c digits =>
      if Ascii.eqb c minusSign then option_map Z.opp (readInt digits)
      else if Ascii.eqb c plusSign then readInt digits
      else readInt s
  end.

Definition readUnsigned (s : string) : option Reading :=
  match cutAt exponentMark s with
  | (mantissa, None) =>
      option_map (fun me => Decimal (fst me) (snd me)) (readMantissa mantissa)
  | (mantissa, Some exponent) =>
      match readMantissa mantissa, readExponent exponent with
      | Some (m, e), Some x => Some (Decimal m (e + x))
      | _, _ => None
      end
  end.

(** Modelled from the spec: a floating-point field of the log in the
    default text formatting: [nan], [inf], [-inf], or a decimal number
    in fixed or scientific notation. *)
Definition readDouble (s : string) : option Reading :=
  if String.eqb s "nan" then Some NotANumber
  else if String.eqb s "inf" then Some (Infinite false)
  else if String.eqb s "-inf" then Some (Infinite true)
  else match s with
       | EmptyString => None
       | String c rest =>
           if Ascii.eqb c minusSign then option_map negate (readUnsigned rest)
           else readUnsigned s
       end.

(** Modelled from the spec: one line of the log, three comma-separated
    fields, read as two numbers and the note number. *)
Definition readLine (line : string) : option (Reading * Reading * Z) :=
  match splitOn comma line with
  | [time; frequency; note] =>
      match readDouble time, readDouble frequency, readInt note with
      | Some t, Some f, Some n => Some (t, f, n)
      | _, _, _ => None
      end
  | _ => None
  end.

(** Modelled from the spec: the lines of the file in order; the piece
    after the last newline is empty and is not a line. *)
Fixpoint readLines (lines : list string) : option (list (Reading * Reading * Z)) :=
  match lines with
  | [] => Some []
  | [EmptyString] => Some []
  | line :: rest =>
      match readLine line, readLines rest with
      | Some entry, Some entries => Some (entry :: entries)
      | _, _ => None
      end
  end.

(** Modelled from the spec: the reader of the detection log, which the
    program lacks; the file is a sequence of newline-terminated lines. *)
Definition readLog (text : string) : option (list (Reading * Reading * Z)) :=
  readLines (splitOn linefeed text).

(** The number a list of decimal digits denotes. *)
Definition number (ds : list Z) : Z := fold_left (fun a d => a * 10 + d) ds 0.

(** The decimals [m * 10^e] and [d * 10^f] are the same number. *)
Definition sameDecimal (m e d f : Z) : Prop :=
  m * 10 ^ Z.max (e - f) 0 = d * 10 ^ Z.max (f - e) 0.

(** What reading back a double means: a NaN and the infinities are read
    as such, a zero as the number 0, and a finite double as a decimal
    number of six significant digits that lies within half a unit of the
    sixth digit of the exact value of the double. *)
Definition reads (x : float) (r : Reading) : Prop :=
  match Prim2SF x, r with
  | S754_nan, NotANumber => True
  | S754_infinity s, Infinite s' => s' = s
  | S754_zero _, Decimal m _ => m = 0
  | S754_finite s m e, Decimal M E =>
      exists d X,
        sixDigitsOf (numeratorOf m e) (denominatorOf e) d X
        /\ sameDecimal M E (if s then - d else d) (X - 5)
  | _, _ => False
  end.

(** An entry read from the log is the detection it was written for. *)
Definition readsBack (det : Detection) (entry : Reading * Reading * Z) : Prop :=
  reads (timeSec det) (fst (fst entry))
  /\ reads (frequencyHz det) (snd (fst entry))
  /\ snd entry = midiNote det.

(** The [k]-th analysis window of a stream of samples: the [FFT_SIZE]
    samples from position [k * HOP_SIZE] on, with its frame offset. *)
Definition streamWindow (samples : list float) (k : nat) : Z * list float :=
  (windowOffset k,
   firstn (Z.to_nat FFT_SIZE) (skipn (k * Z.to_nat HOP_SIZE) samples)).

(** The overlap buffer and the window log after the samples [samples]
    have been delivered and [n] windows taken: the log holds the first
    [n] windows of the stream, all of them complete, and the buffer holds
    the samples from position [n * HOP_SIZE] on. *)
Definition bufferInStep (samples : list float) (st : State) : Prop :=
  let n := List.length (windowLog st) in
  windowLog st = map (streamWindow samples) (seq 0 n)
  /\ overlapBuffer st = skipn (n * Z.to_nat HOP_SIZE) samples
  /\ (n * Z.to_nat HOP_SIZE <= List.length samples)%nat
  /\ (forall k, (k < n)%nat ->
        (k * Z.to_nat HOP_SIZE + Z.to_nat FFT_SIZE <= List.length samples)%nat)
  /\ framesProcessed st = windowOffset n.

(** ** Vocabulary of the further properties *)

(** Every entry of the detection log carries the frequency of one of the
    bins 35 to 340 and the note computed from that frequency. *)
Definition loggedFromBins `{Externals} (st : State) : Prop :=
  Forall (fun det =>
            exists k, 35 <= k <= 340
                      /\ frequencyHz det = binFrequency k
                      /\ midiNote det = frequencyToMidiNote (binFrequency k)
                      /\ 0 < midiNote det)
         (recordedDetections st).

(** What the counters and the pending note promise between two windows:
    while the detection counter is not zero the pending note is the
    sounding note, and while a note sounds the silence counter is zero. *)
Definition settled (st : State) : Prop :=
  (consecutiveDetections st <> 0 -> pendingMidiNote st = lastMidiNote st)
  /\ (0 < lastMidiNote st -> consecutiveSilences st = 0)
  /\ 0 <= lastMidiNote st.

(** The globals read by the display follow the note state machine: the
    current note is the sounding note, the current frequency is that of
    the last logged detection while a note sounds and 0.0 in silence. *)
Definition displayInSync (st : State) : Prop :=
  currentMidiNote st = lastMidiNote st
  /\ 0 <= lastMidiNote st
  /\ (lastMidiNote st = 0 -> currentFrequency st = 0%float)
  /\ (0 < lastMidiNote st ->
      exists earlier det,
        recordedDetections st = earlier ++ [det]
        /\ midiNote det = lastMidiNote st
        /\ frequencyHz det = currentFrequency st).

(** A pending change of note has something to show: a sounding note or
    the note that was turned off. *)
Definition changeHasNote (st : State) : Prop :=
  noteChanged st = true -> 0 < currentMidiNote st \/ 0 < noteOffMidiNote st.

Definition displayReady (st : State) : Prop := displayInSync st /\ changeHasNote st.

(** The variables of the transcription: the state without the three
    globals the main loop writes ([noteChanged], [noteOffMidiNote],
    [callbackCount]). *)
Definition transcription (st : State) :=
  (lastMidiNote st, currentMidiNote st, currentFrequency st,
   consecutiveDetections st, consecutiveSilences st,
   pendingMidiNote st, pendingFrequency st,
   overlapBuffer st, framesProcessed st,
   midiOut st, recordedDetections st, windowLog st).

(** The buffers delivered in a session, in order. *)
Definition deliveries (steps : list SessionStep) : list (list float) :=
  flat_map (fun s => match s with Deliver buffer => [buffer] | Poll _ => [] end) steps.

(** The number of buffers delivered since the last throughput line. *)
Definition deliveredSinceLog (steps : list SessionStep) : Z :=
  fold_left (fun count s =>
               match s with
               | Deliver _ => count + 1
               | Poll fiveSeconds => if fiveSeconds then 0 else count
               end)
            steps 0.

(** The MIDI messages and the files among the effects of a run. *)
Definition midiWritten (effects : list Effect) : list MidiEvent :=
  flat_map (fun e => match e with Pm_WriteShort m => [m] | _ => [] end) effects.

Definition filesWritten (effects : list Effect) : list string :=
  flat_map (fun e => match e with WriteFile text => [text] | _ => [] end) effects.

(** The calls of one library function among the effects of a run. *)
Inductive LibraryCall : Type :=
| CallInitializeFFTW | CallCleanupFFTW
| CallPaInitialize | CallPaTerminate
| CallPmInitialize | CallPmTerminate
| CallPmOpenOutput | CallPmClose
| CallPaOpenStream | CallPaStartStream | CallPaStopStream | CallPaCloseStream.

Definition isCall (c : LibraryCall) (e : Effect) : bool :=
  match c, e with
  | CallInitializeFFTW, InitializeFFTW => true
  | CallCleanupFFTW, CleanupFFTW => true
  | CallPaInitialize, Pa_Initialize => true
  | CallPaTerminate, Pa_Terminate => true
  | CallPmInitialize, Pm_Initialize => true
  | CallPmTerminate, Pm_Terminate => true
  | CallPmOpenOutput, Pm_OpenOutput _ => true
  | CallPmClose, Pm_Close => true
  | CallPaOpenStream, Pa_OpenStream _ => true
  | CallPaStartStream, Pa_StartStream => true
  | CallPaStopStream, Pa_StopStream => true
  | CallPaCloseStream, Pa_CloseStream => true
  | _, _ => false
  end.

Definition calls (c : LibraryCall) (effects : list Effect) : nat :=
  List.length (filter (isCall c) effects).

(** An effect of the session: a line on [std::cout] or a MIDI message. *)
Definition isSessionEffect (e : Effect) : bool :=
  match e with
  | Cout _ | Pm_WriteShort _ => true
  | _ => false
  end.

(** The FFTW calls among the effects of a run, carried out on the
    resource model; [ok] says which allocations succeed. *)
Definition fftwEffect (ok : bool * bool * bool)
    (acc : FftwGlobals * FftwLibrary) (e : Effect) : FftwGlobals * FftwLibrary :=
  match e with
  | InitializeFFTW =>
      let '(okInput, okOutput, okPlan) := ok in
      initializeFFTW okInput okOutput okPlan (snd acc)
  | CleanupFFTW => cleanupFFTW (fst acc) (snd acc)
  | _ => acc
  end.

Definition fftwAfter (ok : bool * bool * bool) (effects : list Effect)
    (lib : FftwLibrary) : FftwGlobals * FftwLibrary :=
  fold_left (fftwEffect ok) effects (noFftwGlobals, lib).

(** The handles a library has handed out so far lie below the next
    one. *)
Definition handlesFresh (lib : FftwLibrary) : Prop :=
  Forall (fun h => (h < nextHandle lib)%nat) (liveHandles lib).

(** The startup of [main] gets as far as running the stream. *)
Definition startsUp (env : Environment) : Prop :=
  paInitializeResult env = paNoError
  /\ pmInitializeResult env = pmNoError
  /\ (exists i, exists info,
        nth_error (midiDevices env) i = Some (Some info) /\ deviceOutput info <> 0)
  /\ pmOpenOutputResult env = pmNoError
  /\ defaultInputDevice env <> paNoDevice
  /\ paOpenStreamResult env = paNoError
  /\ paStartStreamResult env = paNoError.

(** The number of occurrences of a character in a text. *)
Fixpoint countChar (c : ascii) (s : string) : nat :=
  match s with
  | EmptyString => O
  | String c' s' => (if Ascii.eqb c' c then 1 else 0) + countChar c s'
  end.

(** An environment in which everything works: one output device, two
    windows' worth of a tone at bin 75 and then of silence, with a pass
    of the main loop after each buffer. *)
Definition workingEnvironment : Environment := {|
  paInitializeResult := 0;
  pmInitializeResult := 0;
  midiDevices := [None;
                  Some {| deviceName := "in"; deviceOutput := 0 |};
                  Some {| deviceName := "out"; deviceOutput := 1 |}];
  pmOpenOutputResult := 0;
  defaultInputDevice := 0;
  paOpenStreamResult := 0;
  paStartStreamResult := 0;
  session := [Deliver (codedWindow 75); Poll false;
              Deliver (codedWindow 75); Poll true];
  lateBuffers := [];
  paStopStreamResult := 0;
  paCloseStreamResult := 0;
  outputFileOpens := true;
  paErrorText := fun _ => "error"%string;
  pmErrorText := fun _ => "error"%string
|}.

(** The shape of the MIDI stream while callbacks run after the note-off
    that [main] sends for the note [A]: [base] is the stream when the
    main loop ended; nothing has been appended and [A] is still taken to
    sound, or what has been appended starts with a note-off for [A]. *)
Definition lateShape (base : list MidiEvent) (A : Z) (st : State) : Prop :=
  0 <= lastMidiNote st
  /\ exists new,
       midiOut st = base ++ new
       /\ (new = [] -> lastMidiNote st = A)
       /\ (new <> [] -> exists rest, new = NoteOff A :: rest).

(** An environment in which a buffer with another tone arrives after the
    main loop has ended and before the stream is stopped. *)
Definition lateEnvironment : Environment := {|
  paInitializeResult := 0;
  pmInitializeResult := 0;
  midiDevices := [Some {| deviceName := "out"; deviceOutput := 1 |}];
  pmOpenOutputResult := 0;
  defaultInputDevice := 0;
  paOpenStreamResult := 0;
  paStartStreamResult := 0;
  session := [Deliver (codedWindow 75); Poll false];
  lateBuffers := [codedWindow 100];
  paStopStreamResult := 0;
  paCloseStreamResult := 0;
  outputFileOpens := true;
  paErrorText := fun _ => "error"%string;
  pmErrorText := fun _ => "error"%string
|}.

(** A list of window indices that increases strictly, starting at [lo]
    or above. *)
Fixpoint increasingFrom (lo : nat) (ks : list nat) : bool :=
  match ks with
  | [] => true
  | k :: rest => (lo <=? k)%nat && increasingFrom (S k) rest
  end.

(** The detections of the log belong to windows [ks] of the window log,
    in window order and at most one per window, and each carries the time
    of the centre of its window. *)
Definition detectionsByWindow (st : State) (ks : list nat) : Prop :=
  map timeSec (recordedDetections st)
  = map (fun k => timestampSec (windowOffset k)) ks
  /\ increasingFrom 0 ks = true
  /\ Forall (fun k => (k < List.length (windowLog st))%nat) ks.

Definition detectionsInWindowOrder (st : State) : Prop :=
  offsetsInStep st /\ exists ks, detectionsByWindow st ks.

(** The detection the program records when the window [entry] of the
    window log (its frame offset and its samples) starts a note: the time
    of the centre of the window, and the frequency and the note estimated
    from its samples. *)
Definition windowDetection `{Externals} (entry : Z * list float) : Detection := {|
  timeSec :=
    ((Double.of_Z (fst entry) + Double.of_Z FFT_SIZE / 2) / Double.of_Z SAMPLE_RATE)%float;
  frequencyHz := detectFundamentalFrequency (snd entry);
  midiNote := frequencyToMidiNote (detectFundamentalFrequency (snd entry))
|}.

(** The detection log holds the detections of windows of the window
    log, in window order and at most one per window; the window log is
    in step with the frame counter. *)
Definition detectionsFromWindows `{Externals} (st : State) : Prop :=
  offsetsInStep st
  /\ exists ks,
       recordedDetections st
       = map (fun k => windowDetection (nth k (windowLog st) (0, []))) ks
       /\ increasingFrom 0 ks = true
       /\ Forall (fun k => (k < List.length (windowLog st))%nat) ks.

(** * Properties *)

(** ** Comparison of doubles *)

Module FloatFacts.

Ltac cmp_cases :=
  repeat match goal with
  | |- context [Z.compare ?a ?b] =>
      destruct (Z.compare_spec a b)
  | H : context [Z.compare ?a ?b] |- _ =>
      destruct (Z.compare_spec a b)
  | |- context [Pos.compare_cont Eq ?a ?b] =>
      change (Pos.compare_cont Eq a b) with (Pos.compare a b);
      destruct (Pos.compare_spec a b)
  | H : context [Pos.compare_cont Eq ?a ?b] |- _ =>
      change (Pos.compare_cont Eq a b) with (Pos.compare a b) in H;
      destruct (Pos.compare_spec a b)
  end.

Ltac by_cases3 a b c :=
  destruct a as [[]|[]| |[] ? ?], b as [[]|[]| |[] ? ?], c as [[]|[]| |[] ? ?];
  cbn [SFcompare]; try discriminate; try reflexivity; try congruence;
  intros; cmp_cases; cbn [CompOpp] in *;
  try discriminate; try reflexivity; try congruence; try lia.

Lemma SFcompare_lt_trans a b c :
  SFcompare a b = Some Lt -> SFcompare b c = Some Lt ->
  SFcompare a c = Some Lt.
Proof. by_cases3 a b c. Qed.

Lemma SFcompare_lt_nlt a b c :
  SFcompare a b = Some Lt -> SFcompare c b <> Some Lt -> c <> S754_nan ->
  SFcompare a c = Some Lt.
Proof. by_cases3 a b c. Qed.

Lemma SFltb_true a b : SFltb a b = true <-> SFcompare a b = Some Lt.
Proof.
  unfold SFltb. destruct (SFcompare a b) as [[]|]; split; congruence.
Qed.

Lemma is_nan_spec x : is_nan x = true <-> Prim2SF x = S754_nan.
Proof.
  unfold is_nan. rewrite FloatAxioms.eqb_spec. unfold SFeqb.
  destruct (Prim2SF x) as [[]|[]| |[] m e]; cbn [SFcompare negb];
    try (split; congruence).
  all: rewrite Z.compare_refl;
    change (Pos.compare_cont Eq m m) with (Pos.compare m m);
    rewrite Pos.compare_refl; cbn; split; congruence.
Qed.

Lemma is_nan_false x : is_nan x = false <-> Prim2SF x <> S754_nan.
Proof.
  rewrite <- is_nan_spec. destruct (is_nan x); split; congruence.
Qed.

Lemma ltb_trans a b c :
  (a <? b)%float = true -> (b <? c)%float = true -> (a <? c)%float = true.
Proof.
  rewrite !FloatAxioms.ltb_spec, !SFltb_true. apply SFcompare_lt_trans.
Qed.

Lemma ltb_nlt_trans a b c :
  (a <? b)%float = true -> (c <? b)%float = false -> is_nan c = false ->
  (a <? c)%float = true.
Proof.
  rewrite !FloatAxioms.ltb_spec, is_nan_false, !SFltb_true. intros H1 H2 H3.
  apply SFcompare_lt_nlt with (b := Prim2SF b); auto.
  intro H. apply SFltb_true in H. congruence.
Qed.

Lemma ltb_not_nan a b :
  (a <? b)%float = true -> is_nan a = false /\ is_nan b = false.
Proof.
  rewrite FloatAxioms.ltb_spec, !is_nan_false, SFltb_true.
  destruct (Prim2SF a), (Prim2SF b); cbn; split; congruence.
Qed.

Lemma is_nan_abs x : is_nan (abs x) = is_nan x.
Proof.
  apply eq_true_iff_eq. rewrite !is_nan_spec, FloatAxioms.abs_spec.
  destruct (Prim2SF x); cbn; split; congruence.
Qed.

(** On numbers, [<] is the negation of the converse [<=]. *)
Lemma ltb_negb_leb a b :
  is_nan a = false -> is_nan b = false ->
  (a <? b)%float = negb (b <=? a)%float.
Proof.
  rewrite !is_nan_false, FloatAxioms.ltb_spec, FloatAxioms.leb_spec. unfold SFltb, SFleb.
  destruct (Prim2SF a) as [[]|[]| |[] ? ?], (Prim2SF b) as [[]|[]| |[] ? ?];
    cbn [SFcompare negb]; try reflexivity; try congruence; intros _ _;
    cmp_cases; subst; cbn; try reflexivity; try lia.
Qed.

Lemma ltb_irrefl a : (a <? a)%float = false.
Proof.
  rewrite FloatAxioms.ltb_spec. unfold SFltb.
  destruct (Prim2SF a) as [[]|[]| |[] m e]; cbn [SFcompare]; try reflexivity;
    rewrite Z.compare_refl;
    change (Pos.compare_cont Eq m m) with (Pos.compare m m);
    now rewrite Pos.compare_refl.
Qed.

(** A comparison with a NaN on the right is false. *)
Lemma ltb_nan_r a b : is_nan b = true -> (a <? b)%float = false.
Proof.
  rewrite is_nan_spec, FloatAxioms.ltb_spec. intros ->.
  unfold SFltb. destruct (Prim2SF a); reflexivity.
Qed.

End FloatFacts.

(** ** The noise gate *)

Section NoiseGate.

Import FloatFacts.

Lemma gate_step_not_nan m s :
  is_nan m = false -> is_nan (gate_step m s) = false.
Proof.
  intros Hm. unfold gate_step, Double.gtb.
  destruct (m <? abs s)%float eqn:E; [ | exact Hm ].
  apply ltb_not_nan in E. tauto.
Qed.

Lemma gate_step_above t m s :
  is_nan m = false ->
  (t <? gate_step m s)%float = (t <? m)%float || (t <? abs s)%float.
Proof.
  intros Hm. unfold gate_step, Double.gtb.
  destruct (m <? abs s)%float eqn:E.
  - destruct (t <? m)%float eqn:E1; cbn [orb]; [ | reflexivity ].
    eapply ltb_trans; eassumption.
  - destruct (t <? abs s)%float eqn:E2.
    + rewrite (ltb_nlt_trans t (abs s) m E2 E Hm). reflexivity.
    + now rewrite orb_false_r.
Qed.

Lemma fold_gate_above t w : forall m,
  is_nan m = false ->
  (t <? fold_left gate_step w m)%float
  = (t <? m)%float || existsb (fun s => (t <? abs s)%float) w.
Proof.
  induction w as [|s w IH]; intros m Hm; cbn [fold_left existsb].
  - now rewrite orb_false_r.
  - rewrite IH by now apply gate_step_not_nan.
    rewrite gate_step_above by assumption. now rewrite orb_assoc.
Qed.

(** The gate opens exactly when some sample is above the threshold. *)
Lemma passesNoiseGate_existsb w :
  passesNoiseGate w = existsb aboveGate w.
Proof.
  unfold passesNoiseGate, peakAmplitude, Double.gtb.
  rewrite fold_gate_above by reflexivity. reflexivity.
Qed.

(** A sample is not above the threshold when it is a NaN or at most
    the threshold. *)
Lemma aboveGate_false s :
  aboveGate s = false <->
  is_nan s = true \/ (abs s <=? NOISE_GATE_THRESHOLD)%float = true.
Proof.
  unfold aboveGate, Double.gtb. destruct (is_nan s) eqn:N.
  - split; [ now left | intros _ ].
    apply ltb_nan_r. now rewrite is_nan_abs.
  - rewrite ltb_negb_leb; [ | reflexivity | now rewrite is_nan_abs ].
    destruct (abs s <=? NOISE_GATE_THRESHOLD)%float; cbn; split;
      try tauto; try congruence. intros [?|?]; congruence.
Qed.

Lemma peakAmplitude_not_nan w : is_nan (peakAmplitude w) = false.
Proof.
  unfold peakAmplitude. generalize 0%float (eq_refl : is_nan 0%float = false).
  induction w as [|s w IH]; intros m Hm; cbn [fold_left]; [ exact Hm | ].
  now apply IH, gate_step_not_nan.
Qed.

(** The running maximum is an upper bound of the absolute values of the
    samples that are numbers. *)
Lemma peakAmplitude_upper_bound w s :
  In s w -> is_nan s = true \/ (abs s <=? peakAmplitude w)%float = true.
Proof.
  intros Hin. destruct (is_nan s) eqn:N; [ now left | right ].
  pose proof (peakAmplitude_not_nan w) as Hp.
  assert (Hlt : (peakAmplitude w <? abs s)%float = false).
  { destruct (peakAmplitude w <? abs s)%float eqn:E; [ | reflexivity ].
    pose proof (fold_gate_above (peakAmplitude w) w 0%float eq_refl) as Hfold.
    fold (peakAmplitude w) in Hfold. rewrite ltb_irrefl in Hfold.
    symmetry in Hfold. apply orb_false_elim in Hfold. destruct Hfold as [_ Hex].
    assert (Hex' : existsb (fun s0 => (peakAmplitude w <? abs s0)%float) w = true)
      by (apply existsb_exists; eauto).
    congruence. }
  rewrite ltb_negb_leb in Hlt; [ | assumption | now rewrite is_nan_abs ].
  now apply negb_false_iff in Hlt.
Qed.

(** The running maximum is attained: it is 0.0, its initial value, or
    the absolute value of a sample. *)
Lemma peakAmplitude_attained w :
  peakAmplitude w = 0%float \/ exists s, In s w /\ peakAmplitude w = abs s.
Proof.
  unfold peakAmplitude.
  assert (Hgen : forall m,
            fold_left gate_step w m = m
            \/ exists s, In s w /\ fold_left gate_step w m = abs s).
  { induction w as [|s w IH]; intros m; cbn [fold_left]; [ now left | ].
    destruct (IH (gate_step m s)) as [Heq|(s' & Hin & Heq)].
    - rewrite Heq. unfold gate_step.
      destruct (Double.gtb (abs s) m); [ right; exists s; split; [ now left | reflexivity ] | now left ].
    - right. exists s'. split; [ now right | exact Heq ]. }
  apply Hgen.
Qed.

End NoiseGate.

(** *** The threshold

    [NOISE_GATE_THRESHOLD] is the literal [0.005f].  No binary32 number
    lies between it and 0.005, so on [float] samples the comparison with
    the constant is the comparison with the decimal 0.005. *)

Lemma digits2_pos_lower m : 2 ^ (Z.pos (digits2_pos m) - 1) <= Z.pos m.
Proof.
  induction m as [m IH|m IH|]; cbn [digits2_pos].
  - rewrite Pos2Z.inj_succ.
    replace (Z.succ (Z.pos (digits2_pos m)) - 1)
      with (Z.succ (Z.pos (digits2_pos m) - 1)) by lia.
    rewrite Z.pow_succ_r by lia. lia.
  - rewrite Pos2Z.inj_succ.
    replace (Z.succ (Z.pos (digits2_pos m)) - 1)
      with (Z.succ (Z.pos (digits2_pos m) - 1)) by lia.
    rewrite Z.pow_succ_r by lia. lia.
  - reflexivity.
Qed.

Lemma digits2_pos_upper m : Z.pos m < 2 ^ Z.pos (digits2_pos m).
Proof.
  induction m as [m IH|m IH|]; cbn [digits2_pos].
  - rewrite Pos2Z.inj_succ, Z.pow_succ_r by lia. lia.
  - rewrite Pos2Z.inj_succ, Z.pow_succ_r by lia. lia.
  - reflexivity.
Qed.

(** The mantissa and the exponent of a finite double: at most 53 bits,
    and exactly 53 above the smallest exponent. *)
Lemma finite_double_bounds x s m e :
  Prim2SF x = S754_finite s m e ->
  Z.pos m < 2 ^ 53 /\ -1074 <= e <= 971 /\ (-1074 < e -> 2 ^ 52 <= Z.pos m).
Proof.
  intros Hx. pose proof (Prim2SF_valid x) as Hv. rewrite Hx in Hv.
  cbn [valid_binary] in Hv. unfold bounded, canonical_mantissa, fexp in Hv.
  apply andb_prop in Hv. destruct Hv as [Hc He].
  apply Z.eqb_eq in Hc. apply Z.leb_le in He.
  change (SpecFloat.emin prec emax) with (-1074) in Hc.
  change prec with 53 in *. change emax with 1024 in *.
  pose proof (digits2_pos_upper m) as Hup.
  pose proof (digits2_pos_lower m) as Hlow.
  assert (Hd : Z.pos (digits2_pos m) <= 53) by lia.
  split; [ | split; [ lia | ] ].
  - eapply Z.lt_le_trans; [ exact Hup | ]. apply Z.pow_le_mono_r; lia.
  - intros Hnormal.
    assert (Hd53 : Z.pos (digits2_pos m) = 53) by lia.
    rewrite Hd53 in Hlow. exact Hlow.
Qed.

Lemma NOISE_GATE_THRESHOLD_value :
  Prim2SF NOISE_GATE_THRESHOLD = S754_finite false (10737418 * 2 ^ 29) (-60).
Proof. reflexivity. Qed.

Lemma aboveGate_decimal sample :
  isBinary32 sample = true ->
  (aboveGate sample = true <-> absExceeds sample 5 1000).
Proof.
  unfold isBinary32, aboveGate, absExceeds, Double.gtb.
  rewrite FloatAxioms.ltb_spec, FloatAxioms.abs_spec, NOISE_GATE_THRESHOLD_value.
  destruct (Prim2SF sample) as [s|s| |s m e] eqn:Hs; cbn [SFabs];
    try (intros _; unfold SFltb; cbn; split; [ discriminate | tauto ]).
  - intros _. unfold SFltb. cbn. tauto.
  - destruct (finite_double_bounds sample s m e Hs) as (Hm & He & Hnormal).
    intros Hb. apply andb_prop in Hb. destruct Hb as [Hdiv _].
    apply Z.eqb_eq in Hdiv.
    unfold SFltb. cbn [SFcompare].
    change (Pos.compare_cont Eq (10737418 * 2 ^ 29) m)
      with (Pos.compare (10737418 * 2 ^ 29) m).
    destruct (Z.compare_spec (-60) e) as [He60|He60|He60].
    + (* the sample is 10737418 * 2^29 ... * 2^-60 *)
      subst e. cbn [Z.leb Z.compare Z.opp].
      rewrite (Z.max_l 29 (- 149 - -60)) in Hdiv by lia.
      apply Z.mod_divide in Hdiv; [ | lia ]. destruct Hdiv as [k Hk].
      change (0 <=? -60) with false. cbv iota.
      change (- -60) with 60.
      rewrite Hk.
      change (2 ^ 60) with 1152921504606846976. change (2 ^ 29) with 536870912.
      destruct (Pos.compare_spec (10737418 * 2 ^ 29) m) as [Heq|Hlt|Hgt].
      * apply (f_equal Z.pos) in Heq. rewrite <- Heq in Hk.
        change (Z.pos (10737418 * 2 ^ 29)) with (10737418 * 536870912) in Hk.
        split; [ discriminate | lia ].
      * apply Pos2Z.pos_lt_pos in Hlt.
        change (Z.pos (10737418 * 2 ^ 29)) with (10737418 * 536870912) in Hlt.
        split; [ intros _; lia | reflexivity ].
      * apply Pos2Z.pos_lt_pos in Hgt.
        change (Z.pos (10737418 * 2 ^ 29)) with (10737418 * 536870912) in Hgt.
        split; [ discriminate | lia ].
    + (* larger exponent: at least 2^-7 *)
      split; [ intros _ | reflexivity ].
      specialize (Hnormal ltac:(lia)).
      destruct (Z.leb_spec 0 e) as [H0|H0].
      * assert (0 < 2 ^ e) by (apply Z.pow_pos_nonneg; lia). nia.
      * assert (Hp : 2 ^ (- e) <= 2 ^ 59) by (apply Z.pow_le_mono_r; lia).
        change (2 ^ 59) with 576460752303423488 in Hp.
        change (2 ^ 52) with 4503599627370496 in Hnormal. lia.
    + (* smaller exponent: below 2^-8 *)
      split; [ discriminate | ].
      replace (0 <=? e) with false by (symmetry; apply Z.leb_gt; lia).
      intros Habove. exfalso.
      assert (Hp : 2 ^ 61 <= 2 ^ (- e)) by (apply Z.pow_le_mono_r; lia).
      change (2 ^ 61) with 2305843009213693952 in Hp.
      change (2 ^ 53) with 9007199254740992 in Hm. lia.
Qed.

(** C2. The noise gate is absolute.  [passesNoiseGate] compares the
    peak amplitude of the window — the largest absolute value among its
    samples, a NaN sample never raising it — with the threshold: it is
    false exactly when every sample has an absolute value at most the
    threshold, and then [detectFundamentalFrequency] returns 0.0 whatever
    the spectral transform would deliver.  The threshold is the constant
    [0.005f]; a [float] sample is above it exactly when its absolute
    value is above 0.005. *)
Theorem noise_gate_absolute `{Externals} (audioData : list float) :
  passesNoiseGate audioData = (NOISE_GATE_THRESHOLD <? peakAmplitude audioData)%float
  /\ (forall sample,
        In sample audioData ->
        is_nan sample = true \/ (abs sample <=? peakAmplitude audioData)%float = true)
  /\ (peakAmplitude audioData = 0%float
      \/ exists sample, In sample audioData /\ peakAmplitude audioData = abs sample)
  /\ (passesNoiseGate audioData = false <->
      Forall (fun sample =>
                is_nan sample = true \/
                (abs sample <=? NOISE_GATE_THRESHOLD)%float = true) audioData)
  /\ (forall sample,
        isBinary32 sample = true ->
        ((NOISE_GATE_THRESHOLD <? abs sample)%float = true
         <-> absExceeds sample 5 1000))
  /\ (passesNoiseGate audioData = false ->
      detectFundamentalFrequency audioData = 0%float).
Proof.
  split; [ reflexivity | ].
  split; [ intros s; apply peakAmplitude_upper_bound | ].
  split; [ apply peakAmplitude_attained | ].
  split; [ | split; [ exact aboveGate_decimal | ] ].
  - rewrite passesNoiseGate_existsb, Forall_forall.
    split.
    + intros Hex s Hin. apply aboveGate_false.
      destruct (aboveGate s) eqn:E; [ | reflexivity ].
      rewrite <- Hex. symmetry. apply existsb_exists. eauto.
    + intros Hall. destruct (existsb aboveGate audioData) eqn:E; [ | reflexivity ].
      apply existsb_exists in E. destruct E as (s & Hin & Hs).
      apply Hall, aboveGate_false in Hin. congruence.
  - intros Hgate. unfold detectFundamentalFrequency. now rewrite Hgate.
Qed.

(** A window that peaks exactly at the threshold stays below the gate; one
    sample a unit in the last place above it opens the gate. *)
Lemma noise_gate_absolute_witness :
  detectFundamentalFrequency (H := codedSpectrum)
    [0x1p-10; NOISE_GATE_THRESHOLD; (- NOISE_GATE_THRESHOLD); nan]%float = 0%float
  /\ passesNoiseGate [0x1p-10; 0x1.47ae16p-8]%float = true.
Proof.
  split; [ | reflexivity ].
  apply (noise_gate_absolute (H := codedSpectrum)). reflexivity.
Defined.

(** ** The note state machine *)

Section Smoothing.

Lemma activeAfter_app events more :
  activeAfter (events ++ more)
  = fold_left monitor more (activeAfter events).
Proof. unfold activeAfter. apply fold_left_app. Qed.

Lemma midiConsistent_initial : midiConsistent initialState.
Proof. split; [ reflexivity | cbn; lia ]. Qed.

(** The events one step appends are the transition between the notes
    sounding before and after it. *)
Lemma smoothingStep_midiOut st f n ts :
  0 <= lastMidiNote st ->
  midiOut (smoothingStep st f n ts)
  = midiOut st
    ++ transition (lastMidiNote st) (lastMidiNote (smoothingStep st f n ts)).
Proof.
  intros Hpos. unfold smoothingStep, validNote, onDetection, onSilence, transition.
  destruct (0 <? n) eqn:Hn; cbn [andb].
  - destruct (Double.gtb f 200) eqn:Hf.
    + destruct (_ && negb (n =? lastMidiNote st)) eqn:Hfire; cbn.
      * apply andb_prop in Hfire. destruct Hfire as [_ Hne].
        rewrite Z.eqb_sym. destruct (n =? lastMidiNote st); [ discriminate | ].
        rewrite Hn. reflexivity.
      * rewrite Z.eqb_refl. now rewrite app_nil_r.
    + destruct (_ && (0 <? lastMidiNote st)) eqn:Hfire; cbn.
      * apply andb_prop in Hfire. destruct Hfire as [_ Hact].
        rewrite Hact. destruct (lastMidiNote st =? 0) eqn:E; [ lia | ].
        reflexivity.
      * rewrite Z.eqb_refl. now rewrite app_nil_r.
  - destruct (_ && (0 <? lastMidiNote st)) eqn:Hfire; cbn.
    + apply andb_prop in Hfire. destruct Hfire as [_ Hact].
      rewrite Hact. destruct (lastMidiNote st =? 0) eqn:E; [ lia | ].
      reflexivity.
    + rewrite Z.eqb_refl. now rewrite app_nil_r.
Qed.

Lemma smoothingStep_lastMidiNote_nonneg st f n ts :
  0 <= lastMidiNote st -> 0 <= lastMidiNote (smoothingStep st f n ts).
Proof.
  intros Hpos. unfold smoothingStep, validNote, onDetection, onSilence.
  destruct (0 <? n) eqn:Hn; cbn [andb];
    repeat match goal with
           | |- context [if ?c then _ else _] => destruct c; cbn
           end; lia.
Qed.

Lemma monitor_transition a b :
  0 <= a -> 0 <= b ->
  fold_left monitor (transition a b) (Some a) = Some b.
Proof.
  intros Ha Hb. unfold transition.
  destruct (a =? b) eqn:E; [ apply Z.eqb_eq in E; now subst | ].
  apply Z.eqb_neq in E.
  destruct (0 <? a) eqn:Pa, (0 <? b) eqn:Pb; cbn;
    rewrite ?Pa, ?Pb, ?Z.eqb_refl; cbn; rewrite ?Pb; try reflexivity.
  - f_equal. lia.
  - assert (a = 0) as -> by lia. cbn. reflexivity.
  - f_equal. lia.
Qed.

Lemma smoothingStep_consistent st f n ts :
  midiConsistent st -> midiConsistent (smoothingStep st f n ts).
Proof.
  intros [Hact Hpos]. split.
  - rewrite smoothingStep_midiOut, activeAfter_app, Hact by assumption.
    apply monitor_transition; [ assumption | ].
    now apply smoothingStep_lastMidiNote_nonneg.
  - now apply smoothingStep_lastMidiNote_nonneg.
Qed.

Lemma smoothingStep_counters st f n ts :
  countersExclusive (smoothingStep st f n ts).
Proof.
  unfold countersExclusive, smoothingStep, onDetection, onSilence.
  repeat match goal with
         | |- context [if ?c then _ else _] => destruct c; cbn
         end; auto.
Qed.

Lemma noteOns_app l1 l2 : noteOns (l1 ++ l2) = noteOns l1 ++ noteOns l2.
Proof. unfold noteOns. apply flat_map_app. Qed.

Lemma smoothingStep_above200 st f n ts :
  detectionsAbove200 st -> detectionsAbove200 (smoothingStep st f n ts).
Proof.
  unfold detectionsAbove200, smoothingStep, validNote, onDetection, onSilence.
  intros Hall.
  destruct (0 <? n); cbn [andb];
    [ destruct (Double.gtb f 200) eqn:Hf | ];
    repeat match goal with
           | |- context [if ?c then _ else _] => destruct c; cbn
           end; try assumption.
  apply Forall_app. split; [ assumption | ].
  constructor; [ exact Hf | constructor ].
Qed.

Lemma smoothingStep_noteOns st f n ts :
  detectionsMatchNoteOns st -> detectionsMatchNoteOns (smoothingStep st f n ts).
Proof.
  unfold detectionsMatchNoteOns, smoothingStep, validNote, onDetection, onSilence.
  intros Hm.
  repeat match goal with
         | |- context [if ?c then _ else _] => destruct c; cbn
         end; try assumption;
    rewrite ?noteOns_app, ?map_app, Hm; cbn; now rewrite ?app_nil_r.
Qed.

(** A frequency that is not above 200 Hz takes the silence branch. *)
Lemma smoothingStep_low_frequency st f n ts :
  Double.gtb f 200%float = false -> smoothingStep st f n ts = onSilence st.
Proof.
  intros Hf. unfold smoothingStep, validNote. rewrite Hf.
  now rewrite andb_false_r.
Qed.

End Smoothing.

(** ** Runs of the callback and of the state machine *)

Section Runs.

Context `{Externals}.

Variable P : State -> Prop.
Hypothesis HP : Preserved P.

Lemma processWindow_preserved st w : P st -> P (processWindow st w).
Proof. intros Hst. unfold processWindow. now apply preserved_smoothing. Qed.

Lemma feedWindow_preserved st w : P st -> P (feedWindow st w).
Proof.
  intros Hst. unfold feedWindow.
  now apply preserved_buffer, processWindow_preserved.
Qed.

Lemma feedWindows_preserved ws : forall st, P st -> P (feedWindows st ws).
Proof.
  induction ws as [|w ws IH]; intros st Hst; cbn; [ assumption | ].
  now apply IH, feedWindow_preserved.
Qed.

Lemma windowStep_preserved st : P st -> P (windowStep st).
Proof.
  intros Hst. unfold windowStep, advance.
  now apply preserved_buffer, processWindow_preserved, preserved_buffer.
Qed.

Lemma drainLoop_preserved fuel : forall st, P st -> P (drainLoop fuel st).
Proof.
  induction fuel as [|fuel IH]; intros st Hst; cbn; [ assumption | ].
  destruct (windowReady st); [ | assumption ].
  now apply IH, windowStep_preserved.
Qed.

Lemma paCallback_preserved st input : P st -> P (paCallback st input).
Proof.
  intros Hst. unfold paCallback, drainWindows, pushSamples.
  now apply preserved_count, drainLoop_preserved, preserved_buffer.
Qed.

Lemma runCallbacks_preserved buffers : forall st, P st -> P (runCallbacks st buffers).
Proof.
  induction buffers as [|b buffers IH]; intros st Hst; cbn; [ assumption | ].
  now apply IH, paCallback_preserved.
Qed.

End Runs.

Lemma midiConsistent_preserved : Preserved midiConsistent.
Proof.
  split; intros; [ now apply smoothingStep_consistent | assumption | assumption ].
Qed.

Lemma countersExclusive_preserved : Preserved countersExclusive.
Proof.
  split; intros; [ apply smoothingStep_counters | assumption | assumption ].
Qed.

Lemma detectionsAbove200_preserved : Preserved detectionsAbove200.
Proof.
  split; intros; [ now apply smoothingStep_above200 | assumption | assumption ].
Qed.

Lemma detectionsMatchNoteOns_preserved : Preserved detectionsMatchNoteOns.
Proof.
  split; intros; [ now apply smoothingStep_noteOns | assumption | assumption ].
Qed.

(** *** What the monitor's verdict means for the stream *)

Lemma monitor_None events : fold_left monitor events None = None.
Proof. induction events as [|[] events IH]; cbn; auto. Qed.

Lemma fold_monitor_accepts_prefix l1 l2 a b :
  fold_left monitor (l1 ++ l2) (Some a) = Some b ->
  exists c, fold_left monitor l1 (Some a) = Some c.
Proof.
  rewrite fold_left_app.
  destruct (fold_left monitor l1 (Some a)) as [c|]; [ eauto | ].
  now rewrite monitor_None.
Qed.

(** In an accepted stream every note-off comes directly after the
    note-on of the same note: none is sent while no note sounds. *)
Lemma accepted_noteOff_follows_noteOn events a l1 k l2 :
  activeAfter events = Some a ->
  events = l1 ++ NoteOff k :: l2 ->
  exists l0, l1 = l0 ++ [NoteOn k].
Proof.
  unfold activeAfter. intros Hacc ->.
  destruct (fold_monitor_accepts_prefix _ _ _ _ Hacc) as [c Hc].
  rewrite fold_left_app, Hc in Hacc. cbn in Hacc.
  destruct ((0 <? c) && (k =? c)) eqn:E;
    [ | now rewrite monitor_None in Hacc ].
  apply andb_prop in E. destruct E as [Hpos Hk].
  apply Z.eqb_eq in Hk. subst c. apply Z.ltb_lt in Hpos.
  clear Hacc. destruct l1 as [|e l1] using rev_ind.
  - cbn in Hc. injection Hc as <-. lia.
  - clear IHl1. rewrite fold_left_app in Hc. cbn in Hc.
    destruct (fold_left monitor l1 (Some 0)) as [c|]; [ | discriminate ].
    destruct e as [n|n]; cbn in Hc.
    + destruct ((c =? 0) && (0 <? n)); [ | discriminate ].
      injection Hc as ->. eauto.
    + destruct ((0 <? c) && (n =? c)); [ | discriminate ].
      injection Hc as <-. lia.
Qed.

(** In an accepted stream two note-ons are always separated by a
    note-off. *)
Lemma accepted_noteOns_separated events a l1 n l2 m l3 :
  activeAfter events = Some a ->
  events = l1 ++ NoteOn n :: l2 ++ NoteOn m :: l3 ->
  exists k, In (NoteOff k) l2.
Proof.
  unfold activeAfter. intros Hacc ->.
  rewrite fold_left_app in Hacc. cbn [fold_left] in Hacc.
  destruct (fold_left monitor l1 (Some 0)) as [c|];
    [ | cbn in Hacc; now rewrite monitor_None in Hacc ].
  cbn [monitor] in Hacc.
  destruct ((c =? 0) && (0 <? n)) eqn:E;
    [ | now rewrite monitor_None in Hacc ].
  apply andb_prop in E. destruct E as [_ Hn]. apply Z.ltb_lt in Hn.
  clear c l1. revert n Hn Hacc.
  induction l2 as [|e l2 IH]; intros n Hn Hacc.
  - cbn in Hacc. destruct (n =? 0) eqn:E0; [ lia | ].
    cbn in Hacc. now rewrite monitor_None in Hacc.
  - destruct e as [j|j]; [ | exists j; now left ].
    cbn in Hacc. destruct (n =? 0) eqn:E0; [ lia | ].
    cbn in Hacc. now rewrite monitor_None in Hacc.
Qed.

(** *** The callback as a run of the state machine *)

Lemma withBuffer_windowLog st buffer frames log :
  windowLog (withBuffer st buffer frames log) = log.
Proof. reflexivity. Qed.

Lemma withBuffer_overlapBuffer st buffer frames log :
  overlapBuffer (withBuffer st buffer frames log) = buffer.
Proof. reflexivity. Qed.

Lemma withBuffer_framesProcessed st buffer frames log :
  framesProcessed (withBuffer st buffer frames log) = frames.
Proof. reflexivity. Qed.

Lemma withBuffer_recordedDetections st buffer frames log :
  recordedDetections (withBuffer st buffer frames log) = recordedDetections st.
Proof. reflexivity. Qed.

Lemma withBuffer_midiOut st buffer frames log :
  midiOut (withBuffer st buffer frames log) = midiOut st.
Proof. reflexivity. Qed.

Lemma withBuffer_lastMidiNote st buffer frames log :
  lastMidiNote (withBuffer st buffer frames log) = lastMidiNote st.
Proof. reflexivity. Qed.

Lemma withBuffer_machineState st buffer log :
  machineState (withBuffer st buffer (framesProcessed st) log) = machineState st.
Proof. reflexivity. Qed.

Lemma smoothingStep_machineState st st' f n ts :
  machineState st = machineState st' ->
  machineState (smoothingStep st f n ts) = machineState (smoothingStep st' f n ts).
Proof.
  destruct st, st'. unfold machineState. cbn. intros Heq.
  injection Heq as -> -> -> -> -> -> -> -> -> -> -> ->.
  unfold smoothingStep, onDetection, onSilence. cbn.
  repeat match goal with
         | |- context [if ?c then _ else _] => destruct c; cbn
         end; reflexivity.
Qed.

Lemma smoothingStep_windowLog st f n ts :
  windowLog (smoothingStep st f n ts) = windowLog st.
Proof.
  unfold smoothingStep, onDetection, onSilence.
  repeat match goal with
         | |- context [if ?c then _ else _] => destruct c; cbn
         end; reflexivity.
Qed.

Lemma smoothingStep_overlapBuffer st f n ts :
  overlapBuffer (smoothingStep st f n ts) = overlapBuffer st.
Proof.
  unfold smoothingStep, onDetection, onSilence.
  repeat match goal with
         | |- context [if ?c then _ else _] => destruct c; cbn
         end; reflexivity.
Qed.

Lemma smoothingStep_framesProcessed st f n ts :
  framesProcessed (smoothingStep st f n ts) = framesProcessed st.
Proof.
  unfold smoothingStep, onDetection, onSilence.
  repeat match goal with
         | |- context [if ?c then _ else _] => destruct c; cbn
         end; reflexivity.
Qed.

Lemma processWindow_machineState `{Externals} st st' w :
  machineState st = machineState st' ->
  machineState (processWindow st w) = machineState (processWindow st' w).
Proof.
  intros Heq. unfold processWindow.
  replace (framesProcessed st) with (framesProcessed st').
  - now apply smoothingStep_machineState.
  - destruct st, st'. unfold machineState in Heq. cbn in Heq. cbn. congruence.
Qed.

Lemma windowStep_machineState `{Externals} st st' :
  machineState st = machineState st' ->
  machineState (windowStep st) = machineState (feedWindow st' (takeWindow st)).
Proof.
  intros Heq. unfold windowStep, feedWindow, advance.
  set (logged := withBuffer st _ _ _).
  assert (Hl : machineState logged = machineState st').
  { unfold logged. now rewrite withBuffer_machineState. }
  apply (processWindow_machineState _ _ (takeWindow st)) in Hl.
  revert Hl. generalize (processWindow logged (takeWindow st)).
  generalize (processWindow st' (takeWindow st)).
  intros s1 s2. destruct s1, s2. unfold machineState. cbn. intros Hl.
  injection Hl as -> -> -> -> -> -> -> -> -> -> -> ->. reflexivity.
Qed.

Lemma windowStep_windowLog `{Externals} st :
  windowLog (windowStep st) = windowLog st ++ [(framesProcessed st, takeWindow st)].
Proof.
  unfold windowStep, advance, processWindow.
  now rewrite withBuffer_windowLog, smoothingStep_windowLog, withBuffer_windowLog.
Qed.

Lemma feedWindows_app `{Externals} st ws ws' :
  feedWindows st (ws ++ ws') = feedWindows (feedWindows st ws) ws'.
Proof. apply fold_left_app. Qed.

Lemma drainLoop_as_windows `{Externals} fuel : forall st st',
  machineState st = machineState st' ->
  exists new,
    windowLog (drainLoop fuel st) = windowLog st ++ new /\
    machineState (drainLoop fuel st)
    = machineState (feedWindows st' (map snd new)).
Proof.
  induction fuel as [|fuel IH]; intros st st' Heq; cbn [drainLoop].
  - exists []. now rewrite app_nil_r.
  - destruct (windowReady st).
    + destruct (IH _ _ (windowStep_machineState _ _ Heq)) as (new & Hlog & Hm).
      exists ((framesProcessed st, takeWindow st) :: new). split.
      * rewrite Hlog, windowStep_windowLog, <- app_assoc. reflexivity.
      * exact Hm.
    + exists []. now rewrite app_nil_r.
Qed.

Lemma paCallback_as_windows `{Externals} st st' input :
  machineState st = machineState st' ->
  exists new,
    windowLog (paCallback st input) = windowLog st ++ new /\
    machineState (paCallback st input)
    = machineState (feedWindows st' (map snd new)).
Proof.
  intros Heq. unfold paCallback, drainWindows.
  set (pushed := pushSamples st input).
  destruct (drainLoop_as_windows (List.length (overlapBuffer pushed)) pushed st' Heq)
    as (new & Hlog & Hm).
  exists new. split; [ exact Hlog | exact Hm ].
Qed.

(** A stream of callbacks drives the state machine exactly as feeding it
    the windows of the window log does. *)
Lemma runCallbacks_as_windows `{Externals} buffers : forall st st',
  machineState st = machineState st' ->
  exists new,
    windowLog (runCallbacks st buffers) = windowLog st ++ new /\
    machineState (runCallbacks st buffers)
    = machineState (feedWindows st' (map snd new)).
Proof.
  induction buffers as [|b buffers IH]; intros st st' Heq; cbn [runCallbacks fold_left].
  - exists []. now rewrite app_nil_r.
  - destruct (paCallback_as_windows st st' b Heq) as (new1 & Hlog1 & Hm1).
    destruct (IH _ _ Hm1) as (new2 & Hlog2 & Hm2).
    exists (new1 ++ new2). split.
    + unfold runCallbacks in Hlog2. rewrite Hlog2, Hlog1, app_assoc. reflexivity.
    + unfold runCallbacks in Hm2. rewrite Hm2, map_app, feedWindows_app. reflexivity.
Qed.

Lemma runCallbacks_feedWindows `{Externals} buffers :
  let st := runCallbacks initialState buffers in
  machineState st = machineState (feedWindows initialState (map snd (windowLog st))).
Proof.
  destruct (runCallbacks_as_windows buffers initialState initialState eq_refl)
    as (new & Hlog & Hm).
  cbn zeta. rewrite Hm, Hlog. reflexivity.
Qed.

(** ** The overlap buffer and the frame counter *)

Lemma windowStep_overlapBuffer `{Externals} st :
  overlapBuffer (windowStep st) = skipn (Z.to_nat HOP_SIZE) (overlapBuffer st).
Proof.
  unfold windowStep, advance, processWindow.
  now rewrite withBuffer_overlapBuffer, smoothingStep_overlapBuffer,
    withBuffer_overlapBuffer.
Qed.

Lemma windowStep_framesProcessed `{Externals} st :
  framesProcessed (windowStep st) = u64_add (framesProcessed st) HOP_SIZE.
Proof.
  unfold windowStep, advance, processWindow.
  now rewrite withBuffer_framesProcessed, smoothingStep_framesProcessed,
    withBuffer_framesProcessed.
Qed.

Lemma HOP_SIZE_value : HOP_SIZE = 4096.
Proof. reflexivity. Qed.

Lemma FFT_SIZE_value : FFT_SIZE = 8192.
Proof. reflexivity. Qed.

Lemma windowReady_true st :
  windowReady st = true <-> 8192 <= Z.of_nat (List.length (overlapBuffer st)).
Proof. unfold windowReady. rewrite FFT_SIZE_value. apply Z.leb_le. Qed.

Lemma windowReady_false st :
  windowReady st = false <-> Z.of_nat (List.length (overlapBuffer st)) < 8192.
Proof. unfold windowReady. rewrite FFT_SIZE_value. apply Z.leb_gt. Qed.

Lemma windowStep_length `{Externals} st :
  windowReady st = true ->
  Z.of_nat (List.length (overlapBuffer (windowStep st)))
  = Z.of_nat (List.length (overlapBuffer st)) - 4096.
Proof.
  rewrite windowReady_true, windowStep_overlapBuffer, length_skipn, HOP_SIZE_value.
  lia.
Qed.

Lemma drainLoop_ready `{Externals} fuel st :
  windowReady st = true ->
  drainLoop (S fuel) st = drainLoop fuel (windowStep st).
Proof. intros Hr. cbn [drainLoop]. now rewrite Hr. Qed.

Lemma drainLoop_not_ready `{Externals} fuel st :
  windowReady st = false -> drainLoop fuel st = st.
Proof. intros Hr. destruct fuel; cbn [drainLoop]; [ | rewrite Hr ]; reflexivity. Qed.

(** The fuel is enough: the loop stops only when fewer than [FFT_SIZE]
    samples are buffered. *)
Lemma drainLoop_exhausts `{Externals} fuel : forall st,
  Z.of_nat (List.length (overlapBuffer st)) < 8192 + 4096 * Z.of_nat fuel ->
  windowReady (drainLoop fuel st) = false.
Proof.
  induction fuel as [|fuel IH]; intros st Hlen; cbn [drainLoop].
  - apply windowReady_false. lia.
  - destruct (windowReady st) eqn:Hr; [ | exact Hr ].
    apply IH. rewrite windowStep_length by assumption. lia.
Qed.

Lemma drainWindows_exhausts `{Externals} st :
  windowReady (drainWindows st) = false.
Proof. unfold drainWindows. apply drainLoop_exhausts. lia. Qed.

Lemma bumpCallbackCount_windowReady st :
  windowReady (bumpCallbackCount st) = windowReady st.
Proof. reflexivity. Qed.

Lemma u64_add_windowOffset k :
  u64_add (windowOffset k) HOP_SIZE = windowOffset (S k).
Proof.
  unfold u64_add, windowOffset. rewrite Z.add_mod_idemp_l by lia.
  f_equal. lia.
Qed.

Lemma windowOffset_small k :
  Z.of_nat k < 2 ^ 52 -> windowOffset k = Z.of_nat k * 4096.
Proof.
  intros Hk. unfold windowOffset. rewrite HOP_SIZE_value.
  apply Z.mod_small. lia.
Qed.

Lemma windowStep_offsets `{Externals} st :
  offsetsInStep st -> offsetsInStep (windowStep st).
Proof.
  intros [Hlog Hframes]. unfold offsetsInStep.
  rewrite windowStep_windowLog, windowStep_framesProcessed.
  rewrite length_app, map_app, Nat.add_1_r, seq_S, map_app. cbn [List.length map fst].
  rewrite <- Hlog, Hframes. split; [ reflexivity | ].
  apply u64_add_windowOffset.
Qed.

Lemma drainLoop_offsets `{Externals} fuel : forall st,
  offsetsInStep st -> offsetsInStep (drainLoop fuel st).
Proof.
  induction fuel as [|fuel IH]; intros st Hst; cbn [drainLoop]; [ assumption | ].
  destruct (windowReady st); [ | assumption ].
  now apply IH, windowStep_offsets.
Qed.

Lemma paCallback_offsets `{Externals} st input :
  offsetsInStep st -> offsetsInStep (paCallback st input).
Proof.
  intros Hst. unfold paCallback, drainWindows.
  change (offsetsInStep (drainLoop (List.length (overlapBuffer (pushSamples st input)))
                                   (pushSamples st input))).
  apply drainLoop_offsets. exact Hst.
Qed.

Lemma runCallbacks_offsets `{Externals} buffers : forall st,
  offsetsInStep st -> offsetsInStep (runCallbacks st buffers).
Proof.
  induction buffers as [|b buffers IH]; intros st Hst; cbn; [ assumption | ].
  now apply IH, paCallback_offsets.
Qed.

(** Every detection a step records carries the timestamp it was given. *)
Lemma smoothingStep_detections st f n ts :
  exists new,
    recordedDetections (smoothingStep st f n ts) = recordedDetections st ++ new
    /\ Forall (fun det => timeSec det = ts) new.
Proof.
  unfold smoothingStep, onDetection, onSilence.
  repeat match goal with
         | |- context [if ?c then _ else _] => destruct c; cbn
         end;
    try (exists []; rewrite app_nil_r; split; [ reflexivity | constructor ]).
  eexists. split; [ reflexivity | ]. constructor; [ reflexivity | constructor ].
Qed.

Lemma timestampSec_centre frames :
  timestampSec frames = ((Double.of_Z frames + 4096) / 48000)%float.
Proof. reflexivity. Qed.

Lemma windowStep_detections `{Externals} st :
  exists new,
    recordedDetections (windowStep st) = recordedDetections st ++ new
    /\ Forall (fun det =>
                 timeSec det = ((Double.of_Z (framesProcessed st) + 4096) / 48000)%float)
              new.
Proof.
  unfold windowStep, advance, processWindow.
  rewrite withBuffer_recordedDetections, withBuffer_framesProcessed.
  rewrite <- timestampSec_centre.
  destruct (smoothingStep_detections
              (withBuffer st (overlapBuffer st) (framesProcessed st)
                 (windowLog st ++ [(framesProcessed st, takeWindow st)]))
              (detectFundamentalFrequency (takeWindow st))
              (frequencyToMidiNote (detectFundamentalFrequency (takeWindow st)))
              (timestampSec (framesProcessed st))) as (new & Hnew & Hts).
  exists new. rewrite Hnew, withBuffer_recordedDetections. split; [ reflexivity | exact Hts ].
Qed.

(** *** The detections of a run and its windows *)

(** What a step of the state machine adds to the detection log: nothing,
    or the one detection of a valid note. *)
Lemma smoothingStep_logged st f n ts :
  recordedDetections (smoothingStep st f n ts) = recordedDetections st
  \/ (validNote n f = true
      /\ recordedDetections (smoothingStep st f n ts)
         = recordedDetections st
           ++ [{| timeSec := ts; frequencyHz := f; midiNote := n |}]).
Proof.
  unfold smoothingStep. destruct (validNote n f) eqn:Hv.
  - unfold onDetection.
    destruct (_ && _); cbn [recordedDetections]; [ right; now split | now left ].
  - unfold onSilence. destruct (_ && _); cbn [recordedDetections]; now left.
Qed.

Lemma increasingFrom_snoc n : forall ks lo,
  increasingFrom lo ks = true ->
  Forall (fun k => (k < n)%nat) ks ->
  (lo <= n)%nat ->
  increasingFrom lo (ks ++ [n]) = true.
Proof.
  induction ks as [|k ks IH]; intros lo Hinc Hbound Hlo; cbn [app increasingFrom].
  - rewrite andb_true_r. now apply Nat.leb_le.
  - cbn [increasingFrom] in Hinc. apply andb_prop in Hinc. destruct Hinc as [Hk Hrest].
    inversion Hbound as [|k' ks' Hkn Hks]; subst.
    rewrite Hk. cbn [andb]. apply IH; [ exact Hrest | exact Hks | lia ].
Qed.

(** What an iteration of the loop adds to the detection log: nothing, or
    the detection of the window it analysed. *)
Lemma windowStep_logs `{Externals} st :
  recordedDetections (windowStep st) = recordedDetections st
  \/ recordedDetections (windowStep st)
     = recordedDetections st ++ [windowDetection (framesProcessed st, takeWindow st)].
Proof.
  unfold windowStep, advance, processWindow.
  rewrite withBuffer_recordedDetections, withBuffer_framesProcessed.
  destruct (smoothingStep_logged
              (withBuffer st (overlapBuffer st) (framesProcessed st)
                 (windowLog st ++ [(framesProcessed st, takeWindow st)]))
              (detectFundamentalFrequency (takeWindow st))
              (frequencyToMidiNote (detectFundamentalFrequency (takeWindow st)))
              (timestampSec (framesProcessed st))) as [Hsame|[_ Hnew]].
  - left. rewrite Hsame. apply withBuffer_recordedDetections.
  - right. rewrite Hnew, withBuffer_recordedDetections. reflexivity.
Qed.

Lemma windowStep_detectionsFromWindows `{Externals} st :
  detectionsFromWindows st -> detectionsFromWindows (windowStep st).
Proof.
  intros [Hoffsets (ks & Hrec & Hinc & Hbound)].
  split; [ exact (windowStep_offsets st Hoffsets) | ].
  assert (Hmore : Forall (fun k => (k < List.length (windowLog (windowStep st)))%nat) ks).
  { rewrite windowStep_windowLog, length_app. cbn [List.length].
    revert Hbound. apply Forall_impl. intros k Hk. lia. }
  assert (Hold : map (fun k => windowDetection (nth k (windowLog (windowStep st)) (0, []))) ks
                 = map (fun k => windowDetection (nth k (windowLog st) (0, []))) ks).
  { rewrite windowStep_windowLog. apply map_ext_in. intros k Hk.
    rewrite Forall_forall in Hbound. specialize (Hbound k Hk).
    now rewrite app_nth1. }
  destruct (windowStep_logs st) as [Hsame|Hnew].
  - exists ks. rewrite Hsame, Hold.
    split; [ exact Hrec | split; [ exact Hinc | exact Hmore ] ].
  - exists (ks ++ [List.length (windowLog st)]).
    rewrite Hnew, map_app, Hold, <- Hrec. cbn [map].
    split; [ | split ].
    + rewrite windowStep_windowLog, nth_middle. reflexivity.
    + apply increasingFrom_snoc; [ exact Hinc | exact Hbound | lia ].
    + apply Forall_app. split; [ exact Hmore | ].
      constructor; [ | constructor ].
      rewrite windowStep_windowLog, length_app. cbn [List.length]. lia.
Qed.

Lemma drainLoop_detectionsFromWindows `{Externals} fuel : forall st,
  detectionsFromWindows st -> detectionsFromWindows (drainLoop fuel st).
Proof.
  induction fuel as [|fuel IH]; intros st Hst; cbn [drainLoop]; [ exact Hst | ].
  destruct (windowReady st); [ | exact Hst ].
  exact (IH _ (windowStep_detectionsFromWindows st Hst)).
Qed.

Lemma paCallback_detectionsFromWindows `{Externals} st input :
  detectionsFromWindows st -> detectionsFromWindows (paCallback st input).
Proof.
  intros Hst. unfold paCallback, drainWindows.
  change (detectionsFromWindows
            (drainLoop (List.length (overlapBuffer (pushSamples st input)))
                       (pushSamples st input))).
  apply drainLoop_detectionsFromWindows. exact Hst.
Qed.

Lemma runCallbacks_detectionsFromWindows `{Externals} buffers : forall st,
  detectionsFromWindows st -> detectionsFromWindows (runCallbacks st buffers).
Proof.
  induction buffers as [|b buffers IH]; intros st Hst; [ exact Hst | ].
  cbn [runCallbacks fold_left].
  exact (IH _ (paCallback_detectionsFromWindows st b Hst)).
Qed.

(** ** The state machine on every run: events, counters, timestamps *)

(** C1. Whatever windows are fed to the note state machine from its
    initial silent state, the MIDI stream it has written is accepted by
    the monitor and leaves [lastMidiNote] sounding: two note-ons are
    always separated by a note-off, and a note-off only ever comes
    directly after the note-on of its note, never while no note sounds.
    The events one more window appends are exactly the transition from
    the note sounding before to the note sounding after, which for a
    switch from a note A to a different note B is note-off A directly
    followed by note-on B. *)
Theorem note_events_well_formed `{Externals}
    (windows : list (list float)) (window : list float) :
  let st := feedWindows initialState windows in
  let st' := feedWindow st window in
  activeAfter (midiOut st) = Some (lastMidiNote st)
  /\ (forall l1 n l2 m l3,
        midiOut st = l1 ++ NoteOn n :: l2 ++ NoteOn m :: l3 ->
        exists k, In (NoteOff k) l2)
  /\ (forall l1 k l2,
        midiOut st = l1 ++ NoteOff k :: l2 ->
        exists l0, l1 = l0 ++ [NoteOn k])
  /\ midiOut st' = midiOut st ++ transition (lastMidiNote st) (lastMidiNote st')
  /\ (forall A B, 0 < A -> 0 < B -> A <> B ->
      transition A B = [NoteOff A; NoteOn B]).
Proof.
  intros st st'.
  assert (Hst : midiConsistent st).
  { apply feedWindows_preserved;
      [ apply midiConsistent_preserved | apply midiConsistent_initial ]. }
  destruct Hst as [Hact Hpos].
  split; [ exact Hact | ].
  split; [ intros l1 n l2 m l3; now apply accepted_noteOns_separated with (a := lastMidiNote st) | ].
  split; [ intros l1 k l2; now apply accepted_noteOff_follows_noteOn with (a := lastMidiNote st) | ].
  split.
  - unfold st', feedWindow, processWindow.
    rewrite withBuffer_midiOut, withBuffer_lastMidiNote.
    now apply smoothingStep_midiOut.
  - intros A B HA HB Hne. unfold transition.
    destruct (A =? B) eqn:E; [ apply Z.eqb_eq in E; contradiction | ].
    apply Z.ltb_lt in HA, HB. now rewrite HA, HB.
Qed.

(** A run that switches from A4 to D5: note-off 69 directly before
    note-on 74. *)
Lemma note_events_well_formed_witness :
  midiOut (feedWindows (H := codedSpectrum) initialState
             [codedWindow 75; codedWindow 100])
  = [NoteOn 69] ++ [NoteOff 69; NoteOn 74].
Proof.
  destruct (note_events_well_formed (H := codedSpectrum)
              [codedWindow 75] (codedWindow 100)) as (_ & _ & _ & Hstep & Hswitch).
  rewrite <- (Hswitch 69 74) by lia.
  etransitivity; [ exact Hstep | ]. vm_compute. reflexivity.
Defined.

(** C8. The two counters are mutually exclusive: after any sequence of
    windows one of them is zero, so they are never both positive. *)
Theorem counters_mutually_exclusive `{Externals} (windows : list (list float)) :
  let st := feedWindows initialState windows in
  (consecutiveDetections st = 0 \/ consecutiveSilences st = 0)
  /\ ~ (0 < consecutiveDetections st /\ 0 < consecutiveSilences st).
Proof.
  intros st.
  assert (Hst : countersExclusive st).
  { apply feedWindows_preserved;
      [ apply countersExclusive_preserved | now left ]. }
  split; [ exact Hst | ]. destruct Hst; lia.
Qed.

(** C10. No detection is ever logged, and no note-on ever sent, for a
    frequency of 200 Hz or less: every logged detection lies above
    200 Hz, the note-ons of the MIDI stream are the logged detections,
    and a window whose detected frequency is not above 200 Hz takes the
    silence branch. *)
Theorem no_note_at_or_below_200Hz `{Externals}
    (windows : list (list float)) (window : list float) :
  let st := feedWindows initialState windows in
  Forall (fun det => (200 <? frequencyHz det)%float = true)
         (recordedDetections st)
  /\ noteOns (midiOut st) = map midiNote (recordedDetections st)
  /\ ((200 <? detectFundamentalFrequency window)%float = false ->
      processWindow st window = onSilence st).
Proof.
  intros st. split; [ | split ].
  - change (detectionsAbove200 st).
    apply (feedWindows_preserved detectionsAbove200);
      [ apply detectionsAbove200_preserved | constructor ].
  - change (detectionsMatchNoteOns st).
    apply (feedWindows_preserved detectionsMatchNoteOns);
      [ apply detectionsMatchNoteOns_preserved | reflexivity ].
  - intros Hlow. unfold processWindow. now apply smoothingStep_low_frequency.
Qed.

(** The estimator does return frequencies between 80 and 200 Hz: a peak
    at bin 34 is 199.21875 Hz, which maps to note 55; the state machine
    treats the window as silence. *)
Lemma no_note_at_or_below_200Hz_witness :
  detectFundamentalFrequency (H := codedSpectrum) (codedWindow 34) = 199.21875%float
  /\ frequencyToMidiNote (H := codedSpectrum) 199.21875%float = 55
  /\ processWindow (H := codedSpectrum) initialState (codedWindow 34)
     = onSilence initialState.
Proof.
  split; [ vm_compute; reflexivity | split; [ vm_compute; reflexivity | ] ].
  apply (no_note_at_or_below_200Hz (H := codedSpectrum) [] (codedWindow 34)).
  vm_compute. reflexivity.
Defined.




(** *** The same for the audio stream

    The callback feeds the state machine the windows it cuts from the
    stream, so what holds for every sequence of windows holds for every
    sequence of delivered buffers. *)

Lemma runCallbacks_midi_consistent `{Externals} buffers :
  let st := runCallbacks initialState buffers in
  activeAfter (midiOut st) = Some (lastMidiNote st).
Proof.
  apply (runCallbacks_preserved midiConsistent midiConsistent_preserved),
    midiConsistent_initial.
Qed.

Lemma runCallbacks_counters `{Externals} buffers :
  countersExclusive (runCallbacks initialState buffers).
Proof.
  apply (runCallbacks_preserved countersExclusive countersExclusive_preserved).
  now left.
Qed.

Lemma runCallbacks_above200 `{Externals} buffers :
  detectionsAbove200 (runCallbacks initialState buffers).
Proof.
  apply (runCallbacks_preserved detectionsAbove200 detectionsAbove200_preserved).
  constructor.
Qed.

(** The last note-off of [main] leaves the stream in silence. *)
Lemma shutdownMidi_silent st :
  midiConsistent st -> activeAfter (shutdownMidi st) = Some 0.
Proof.
  intros [Hact Hpos]. unfold shutdownMidi.
  rewrite activeAfter_app, Hact.
  destruct (0 <? lastMidiNote st) eqn:E; cbn.
  - now rewrite E, Z.eqb_refl.
  - apply Z.ltb_ge in E. f_equal. lia.
Qed.

Lemma pushSamples_overlapBuffer st input :
  overlapBuffer (pushSamples st input) = overlapBuffer st ++ input.
Proof. reflexivity. Qed.

Lemma pushSamples_windowLog st input :
  windowLog (pushSamples st input) = windowLog st.
Proof. reflexivity. Qed.

Lemma pushSamples_framesProcessed st input :
  framesProcessed (pushSamples st input) = framesProcessed st.
Proof. reflexivity. Qed.

Lemma bumpCallbackCount_windowLog st :
  windowLog (bumpCallbackCount st) = windowLog st.
Proof. reflexivity. Qed.

Lemma bumpCallbackCount_overlapBuffer st :
  overlapBuffer (bumpCallbackCount st) = overlapBuffer st.
Proof. reflexivity. Qed.

Lemma drainLoop_windowLog `{Externals} fuel st :
  exists new, windowLog (drainLoop fuel st) = windowLog st ++ new.
Proof.
  destruct (drainLoop_as_windows fuel st st eq_refl) as (new & Hlog & _).
  eauto.
Qed.

(** A ready buffer is not left alone: the loop takes its first window. *)
Lemma drainWindows_takes_window `{Externals} st :
  windowReady st = true ->
  exists rest,
    windowLog (drainWindows st)
    = windowLog st ++ (framesProcessed st, takeWindow st) :: rest.
Proof.
  intros Hr. unfold drainWindows.
  destruct (List.length (overlapBuffer st)) as [|fuel] eqn:Hlen.
  - apply windowReady_true in Hr. lia.
  - rewrite drainLoop_ready by assumption.
    destruct (drainLoop_windowLog fuel (windowStep st)) as (rest & Hrest).
    exists rest. rewrite Hrest, windowStep_windowLog, <- app_assoc. reflexivity.
Qed.


(** *** The windows of a stream

    Whatever the sizes of the delivered buffers, the windows taken are
    the complete windows of the concatenated stream at a stride of
    [HOP_SIZE]. *)

Lemma streamWindow_more samples more k :
  (k * Z.to_nat HOP_SIZE + Z.to_nat FFT_SIZE <= List.length samples)%nat ->
  streamWindow (samples ++ more) k = streamWindow samples k.
Proof.
  unfold streamWindow.
  generalize (Z.to_nat FFT_SIZE) (Z.to_nat HOP_SIZE). intros size hop Hk.
  apply f_equal.
  rewrite skipn_app, firstn_app, length_skipn.
  replace (size - (List.length samples - k * hop))%nat with O by lia.
  rewrite firstn_0. apply app_nil_r.
Qed.

Lemma pushSamples_bufferInStep samples st input :
  bufferInStep samples st -> bufferInStep (samples ++ input) (pushSamples st input).
Proof.
  intros (Hlog & Hbuf & Hlen & Hfull & Hframes). unfold bufferInStep.
  rewrite pushSamples_windowLog, pushSamples_overlapBuffer, pushSamples_framesProcessed.
  cbv zeta. split; [ | split; [ | split; [ | split ] ] ].
  - rewrite Hlog at 1. apply map_ext_in. intros k Hk. apply in_seq in Hk.
    symmetry. apply streamWindow_more, Hfull. lia.
  - rewrite Hbuf, skipn_app.
    replace (List.length (windowLog st) * Z.to_nat HOP_SIZE - List.length samples)%nat
      with O by lia.
    reflexivity.
  - rewrite length_app. lia.
  - intros k Hk. rewrite length_app. specialize (Hfull k Hk). lia.
  - exact Hframes.
Qed.

Lemma windowStep_bufferInStep `{Externals} samples st :
  windowReady st = true ->
  bufferInStep samples st -> bufferInStep samples (windowStep st).
Proof.
  intros Hready (Hlog & Hbuf & Hlen & Hfull & Hframes).
  apply windowReady_true in Hready.
  rewrite Hbuf, length_skipn in Hready.
  pose proof HOP_SIZE_value as Hhop. pose proof FFT_SIZE_value as Hfft.
  unfold bufferInStep.
  rewrite windowStep_windowLog, windowStep_overlapBuffer, windowStep_framesProcessed.
  rewrite length_app. cbn [List.length]. rewrite Nat.add_1_r.
  cbv zeta. split; [ | split; [ | split; [ | split ] ] ].
  - rewrite seq_S, map_app. cbn [map Nat.add]. f_equal; [ exact Hlog | ].
    unfold streamWindow, takeWindow. now rewrite Hframes, Hbuf.
  - rewrite Hbuf, skipn_skipn. f_equal; lia.
  - lia.
  - intros k Hk. destruct (Nat.eq_dec k (List.length (windowLog st))) as [->|Hne].
    + lia.
    + apply Hfull. lia.
  - rewrite Hframes. apply u64_add_windowOffset.
Qed.

Lemma drainLoop_bufferInStep `{Externals} samples fuel : forall st,
  bufferInStep samples st -> bufferInStep samples (drainLoop fuel st).
Proof.
  induction fuel as [|fuel IH]; intros st Hst; cbn [drainLoop]; [ assumption | ].
  destruct (windowReady st) eqn:Hr; [ | assumption ].
  now apply IH, windowStep_bufferInStep.
Qed.

Lemma paCallback_bufferInStep `{Externals} samples st input :
  bufferInStep samples st -> bufferInStep (samples ++ input) (paCallback st input).
Proof.
  intros Hst. apply (pushSamples_bufferInStep _ _ input) in Hst.
  unfold paCallback, drainWindows.
  apply (drainLoop_bufferInStep _ (List.length (overlapBuffer (pushSamples st input))))
    in Hst.
  exact Hst.
Qed.

Lemma runCallbacks_bufferInStep `{Externals} buffers : forall samples st,
  bufferInStep samples st ->
  bufferInStep (samples ++ List.concat buffers) (runCallbacks st buffers).
Proof.
  induction buffers as [|b buffers IH]; intros samples st Hst; cbn [List.concat].
  - now rewrite app_nil_r.
  - rewrite app_assoc. apply IH. now apply paCallback_bufferInStep.
Qed.

Lemma runCallbacks_windowReady `{Externals} buffers : forall st,
  windowReady st = false -> windowReady (runCallbacks st buffers) = false.
Proof.
  induction buffers as [|b buffers IH]; intros st Hst; [ exact Hst | ].
  apply IH. unfold paCallback.
  rewrite bumpCallbackCount_windowReady. apply drainWindows_exhausts.
Qed.

(** The windows taken from a stream are its complete windows, however
    the stream is cut into buffers: the log lists the windows
    [0 .. n-1] of the concatenated samples, where the [n]-th window is
    the first that is not complete yet. *)
Lemma stream_windows `{Externals} (buffers : list (list float)) :
  let samples := List.concat buffers in
  let st := runCallbacks initialState buffers in
  let n := List.length (windowLog st) in
  windowLog st = map (streamWindow samples) (seq 0 n)
  /\ overlapBuffer st = skipn (n * Z.to_nat HOP_SIZE) samples
  /\ (forall k, (k < n)%nat ->
        (k * Z.to_nat HOP_SIZE + Z.to_nat FFT_SIZE <= List.length samples)%nat)
  /\ (List.length samples < n * Z.to_nat HOP_SIZE + Z.to_nat FFT_SIZE)%nat.
Proof.
  intros samples st n.
  assert (Hinit : bufferInStep [] initialState).
  { unfold bufferInStep. cbn.
    split; [ reflexivity | split; [ reflexivity | split; [ lia | split ] ] ].
    - intros k Hk. lia.
    - reflexivity. }
  pose proof (runCallbacks_bufferInStep buffers [] initialState Hinit) as Hst.
  rewrite app_nil_l in Hst. fold samples st in Hst.
  destruct Hst as (Hlog & Hbuf & Hlen & Hfull & _). fold n in Hlog, Hbuf, Hlen, Hfull.
  split; [ exact Hlog | split; [ exact Hbuf | split; [ exact Hfull | ] ] ].
  assert (Hr : windowReady st = false) by (apply runCallbacks_windowReady; reflexivity).
  apply windowReady_false in Hr. rewrite Hbuf, length_skipn in Hr.
  pose proof FFT_SIZE_value. lia.
Qed.

(** C4. From an empty overlap buffer, a push of [FFT_SIZE + HOP_SIZE]
    samples — in one buffer or in several — yields exactly two analysis
    windows: the first [FFT_SIZE] samples at frame offset 0 and the
    [FFT_SIZE] samples that start [HOP_SIZE] later at frame offset
    [HOP_SIZE].  In general a buffer holding at least [FFT_SIZE] samples
    always gives up a window equal to its first [FFT_SIZE] samples and
    then advances by [HOP_SIZE = FFT_SIZE / 2] samples, and the loop runs
    until fewer than [FFT_SIZE] samples are left. *)
Theorem overlap_buffer_windows `{Externals} (buffers : list (list float)) :
  let samples := List.concat buffers in
  Z.of_nat (List.length samples) = FFT_SIZE + HOP_SIZE ->
  windowLog (runCallbacks initialState buffers)
  = [ (0, firstn (Z.to_nat FFT_SIZE) samples);
      (HOP_SIZE, firstn (Z.to_nat FFT_SIZE) (skipn (Z.to_nat HOP_SIZE) samples)) ]
  /\ (forall st,
        windowReady st = true ->
        (exists rest,
           windowLog (drainWindows st)
           = windowLog st
             ++ (framesProcessed st, firstn (Z.to_nat FFT_SIZE) (overlapBuffer st))
                :: rest)
        /\ overlapBuffer (windowStep st)
           = skipn (Z.to_nat HOP_SIZE) (overlapBuffer st)
        /\ Z.of_nat (List.length (overlapBuffer (windowStep st)))
           = Z.of_nat (List.length (overlapBuffer st)) - HOP_SIZE)
  /\ HOP_SIZE = FFT_SIZE / 2
  /\ (forall st input, windowReady (paCallback st input) = false).
Proof.
  intros samples Hlen. rewrite FFT_SIZE_value, HOP_SIZE_value in Hlen.
  split; [ | split; [ | split ] ].
  - destruct (stream_windows buffers) as (Hlog & _ & Hfull & Hnext).
    fold samples in Hlog, Hfull, Hnext.
    set (n := List.length (windowLog (runCallbacks initialState buffers))) in *.
    pose proof HOP_SIZE_value as Hhop. pose proof FFT_SIZE_value as Hfft.
    assert (Hn : n = 2%nat).
    { destruct n as [|[|[|n]]]; try lia.
      specialize (Hfull 2%nat ltac:(lia)). lia. }
    rewrite Hlog, Hn. cbn [seq map]. unfold streamWindow.
    rewrite Nat.mul_0_l, Nat.mul_1_l, skipn_0. reflexivity.
  - intros st Hr. split; [ | split ].
    + destruct (drainWindows_takes_window st Hr) as (rest & Hrest).
      exists rest. rewrite Hrest. reflexivity.
    + apply windowStep_overlapBuffer.
    + rewrite HOP_SIZE_value. now apply windowStep_length.
  - reflexivity.
  - intros st input. unfold paCallback.
    rewrite bumpCallbackCount_windowReady. apply drainWindows_exhausts.
Qed.

(** Three buffers of [FRAMES_PER_BUFFER] silent samples. *)
Lemma overlap_buffer_windows_witness :
  map fst (windowLog (runCallbacks (H := codedSpectrum) initialState
                        [repeat 0%float (Z.to_nat FRAMES_PER_BUFFER);
                         repeat 0%float (Z.to_nat FRAMES_PER_BUFFER);
                         repeat 0%float (Z.to_nat FRAMES_PER_BUFFER)]))
  = [0; HOP_SIZE].
Proof.
  destruct (overlap_buffer_windows (H := codedSpectrum)
              [repeat 0%float (Z.to_nat FRAMES_PER_BUFFER);
               repeat 0%float (Z.to_nat FRAMES_PER_BUFFER);
               repeat 0%float (Z.to_nat FRAMES_PER_BUFFER)]) as [Hlog _].
  - vm_compute. reflexivity.
  - rewrite Hlog. reflexivity.
Defined.

(** ** The spectral peak estimator *)

Lemma SFcompare_le_lt a b c :
  SFcompare b a <> Some Lt -> a <> S754_nan -> SFcompare b c = Some Lt ->
  SFcompare a c = Some Lt.
Proof. FloatFacts.by_cases3 a b c. Qed.

(** [a <= b < c] gives [a < c]. *)
Lemma ltb_le_lt_trans a b c :
  (b <? a)%float = false -> is_nan a = false -> (b <? c)%float = true ->
  (a <? c)%float = true.
Proof.
  rewrite !FloatAxioms.ltb_spec, FloatFacts.is_nan_false, !FloatFacts.SFltb_true.
  intros H1 H2 H3. apply SFcompare_le_lt with (b := Prim2SF b); auto.
  intro Hlt. apply FloatFacts.SFltb_true in Hlt. congruence.
Qed.

Lemma Zcount_snoc n : forall lo,
  Zcount (S n) lo = Zcount n lo ++ [lo + Z.of_nat n].
Proof.
  induction n as [|n IH]; intros lo.
  - cbn. now rewrite Z.add_0_r.
  - change (Zcount (S (S n)) lo) with (lo :: Zcount (S n) (lo + 1)).
    rewrite IH. cbn [Zcount app]. do 3 f_equal. lia.
Qed.

Lemma In_Zcount n : forall lo i,
  In i (Zcount n lo) <-> lo <= i < lo + Z.of_nat n.
Proof.
  induction n as [|n IH]; intros lo i; cbn [Zcount In].
  - split; [ tauto | lia ].
  - rewrite IH. lia.
Qed.

Lemma Zrange_snoc lo n :
  Zrange lo (lo + Z.of_nat (S n)) = Zrange lo (lo + Z.of_nat n) ++ [lo + Z.of_nat n].
Proof.
  unfold Zrange.
  replace (Z.to_nat (lo + Z.of_nat (S n) - lo)) with (S n) by lia.
  replace (Z.to_nat (lo + Z.of_nat n - lo)) with n by lia.
  apply Zcount_snoc.
Qed.

Lemma In_Zrange lo hi i : In i (Zrange lo hi) <-> lo <= i < hi.
Proof. unfold Zrange. rewrite In_Zcount. lia. Qed.

Section Scan.

Context `{Externals}.
Variable fftData : list complex.

Lemma scan_step_cases acc i :
  ((fst acc <? binMagnitude fftData i)%float = true
   /\ scan_step fftData acc i = (binMagnitude fftData i, i))
  \/ ((fst acc <? binMagnitude fftData i)%float = false
      /\ scan_step fftData acc i = acc).
Proof.
  unfold scan_step, Double.gtb. fold (binMagnitude fftData i).
  destruct (fst acc <? binMagnitude fftData i)%float; auto.
Qed.

Lemma scan_upto lo n :
  scanResult fftData lo (lo + Z.of_nat n)
    (fold_left (scan_step fftData) (Zrange lo (lo + Z.of_nat n)) (0%float, -1)).
Proof.
  induction n as [|n IH].
  - replace (lo + Z.of_nat 0) with lo by lia.
    unfold Zrange. rewrite Z.sub_diag. cbn.
    split; [ reflexivity | left; split; [ reflexivity | intros; lia ] ].
  - rewrite Zrange_snoc, fold_left_app. cbn [fold_left].
    set (hi := lo + Z.of_nat n) in *.
    replace (lo + Z.of_nat (S n)) with (hi + 1) by lia.
    set (r := fold_left _ _ _) in *.
    destruct IH as [Hnan IH].
    destruct (scan_step_cases r hi) as [[Hlt ->]|[Hge ->]].
    + (* bin [hi] is the new maximum *)
      destruct (FloatFacts.ltb_not_nan _ _ Hlt) as [_ Hm].
      split; [ exact Hm | right ]. cbn [fst snd].
      split; [ lia | split; [ reflexivity | ] ].
      destruct IH as [[-> Hzero]|(Hk & Hfst & Hpos & Hbefore & Hafter)].
      * cbn [fst] in Hlt. split; [ exact Hlt | split; [ | intros; lia ] ].
        intros i Hi.
        destruct (is_nan (binMagnitude fftData i)) eqn:Ni; [ now right | left ].
        apply ltb_le_lt_trans with (b := 0%float); auto.
      * split; [ eapply FloatFacts.ltb_trans; eassumption | ].
        split; [ | intros; lia ].
        intros i Hi.
        destruct (is_nan (binMagnitude fftData i)) eqn:Ni; [ now right | left ].
        destruct (Z.compare_spec i (snd r)) as [->|Hi'|Hi'].
        -- now rewrite <- Hfst.
        -- destruct (Hbefore i) as [Hb|Hb]; [ lia | | congruence ].
           eapply FloatFacts.ltb_trans; eassumption.
        -- apply ltb_le_lt_trans with (b := fst r); auto.
           apply Hafter. lia.
    + (* the maximum stands *)
      split; [ exact Hnan | ].
      destruct IH as [[-> Hzero]|(Hk & Hfst & Hpos & Hbefore & Hafter)].
      * left. split; [ reflexivity | ]. intros i Hi.
        destruct (Z.eq_dec i hi) as [->|Hne]; [ exact Hge | apply Hzero; lia ].
      * right. split; [ lia | split; [ exact Hfst | split; [ exact Hpos | ] ] ].
        split; [ exact Hbefore | ]. intros i Hi.
        destruct (Z.eq_dec i hi) as [->|Hne]; [ exact Hge | apply Hafter; lia ].
Qed.

Lemma scan_range lo hi :
  scanResult fftData lo hi
    (fold_left (scan_step fftData) (Zrange lo hi) (0%float, -1)).
Proof.
  destruct (Z.le_gt_cases lo hi) as [Hle|Hgt].
  - pose proof (scan_upto lo (Z.to_nat (hi - lo))) as Hs.
    replace (lo + Z.of_nat (Z.to_nat (hi - lo))) with hi in Hs by lia.
    exact Hs.
  - unfold Zrange. replace (Z.to_nat (hi - lo)) with O by lia.
    cbn [Zcount fold_left].
    split; [ reflexivity | left; split; [ reflexivity | intros; lia ] ].
Qed.

Lemma scanPeak_result :
  scanResult fftData minIndex (maxIndexLimit fftData) (scanPeak fftData).
Proof. apply scan_range. Qed.

End Scan.

Lemma minIndex_value : minIndex = 13.
Proof. vm_compute. reflexivity. Qed.

Lemma maxIndexLimit_bound fftData : maxIndexLimit fftData <= 341.
Proof.
  unfold maxIndexLimit.
  replace (Double.to_int _) with 341 by (vm_compute; reflexivity).
  apply Z.le_min_r.
Qed.

Lemma maxIndexLimit_full fftData :
  Z.of_nat (List.length fftData) = FFT_SIZE -> maxIndexLimit fftData = 341.
Proof.
  intros Hlen. unfold maxIndexLimit. rewrite Hlen.
  vm_compute. reflexivity.
Qed.

(** Of the bins 13 .. 341, all but bin 13 have their frequency in the
    band. *)
Lemma inBand_bins i :
  13 <= i <= 341 -> inBand (binFrequency i) = negb (i =? 13).
Proof.
  intros Hi.
  assert (Hall : forallb (fun j => Bool.eqb (inBand (binFrequency j)) (negb (j =? 13)))
                         (Zrange 13 342) = true) by (vm_compute; reflexivity).
  rewrite forallb_forall in Hall.
  apply Bool.eqb_prop, Hall, In_Zrange. lia.
Qed.

(** C3 (as amended).  For every spectral frame the peak estimator scans
    the bins from [minIndex = 13] up to, not including, [maxIndexLimit],
    which is 341 for a full frame: bin 13, just below the band, and the
    bins 14 .. 340, whose frequencies lie in the band.  The scan settles
    on the first bin whose magnitude no scanned bin exceeds (or on none,
    when no magnitude is above zero), and the estimator returns that
    bin's frequency when the bin is in the band and its magnitude exceeds
    the floor 5.0, and 0.0 otherwise; so a frequency it returns is always
    in the band. *)
Theorem peak_estimator_scan `{Externals} (fftData : list complex) :
  let hi := maxIndexLimit fftData in
  let M := fst (scanPeak fftData) in
  let k := snd (scanPeak fftData) in
  minIndex = 13
  /\ hi <= 341
  /\ (Z.of_nat (List.length fftData) = FFT_SIZE -> hi = 341)
  /\ (forall i, 13 <= i < hi -> inBand (binFrequency i) = negb (i =? 13))
  /\ scanResult fftData 13 hi (M, k)
  /\ estimatePeak fftData
     = (if (14 <=? k) && (SPECTRAL_MAGNITUDE_THRESHOLD <? M)%float
        then binFrequency k else 0%float)
  /\ (estimatePeak fftData = 0%float \/ inBand (estimatePeak fftData) = true).
Proof.
  intros hi M k.
  pose proof (maxIndexLimit_bound fftData) as Hhi. fold hi in Hhi.
  pose proof (scanPeak_result fftData) as Hscan.
  rewrite minIndex_value in Hscan. fold hi in Hscan.
  rewrite (surjective_pairing (scanPeak fftData)) in Hscan. fold M k in Hscan.
  assert (Hband : forall i, 13 <= i < hi -> inBand (binFrequency i) = negb (i =? 13)).
  { intros i Hi. apply inBand_bins. lia. }
  assert (Hest : estimatePeak fftData
                 = (if (14 <=? k) && (SPECTRAL_MAGNITUDE_THRESHOLD <? M)%float
                    then binFrequency k else 0%float)).
  { unfold estimatePeak, Double.gtb.
    rewrite (surjective_pairing (scanPeak fftData)). fold M k.
    destruct Hscan as [_ [[Hr _]|(Hk & _)]].
    - injection Hr as _ ->. reflexivity.
    - cbn [snd] in Hk. rewrite (Hband k Hk).
      destruct (k =? 13) eqn:E13.
      + apply Z.eqb_eq in E13. rewrite E13. cbn [negb].
        now destruct (_ && _).
      + apply Z.eqb_neq in E13. cbn [negb].
        replace (0 <? k) with true by (symmetry; apply Z.ltb_lt; lia).
        replace (14 <=? k) with true by (symmetry; apply Z.leb_le; lia).
        reflexivity. }
  split; [ exact minIndex_value | ].
  split; [ exact Hhi | ].
  split; [ apply maxIndexLimit_full | ].
  split; [ exact Hband | ].
  split; [ exact Hscan | ].
  split; [ exact Hest | ].
  rewrite Hest.
  destruct (14 <=? k) eqn:Hk; cbn [andb]; [ | now left ].
  destruct (SPECTRAL_MAGNITUDE_THRESHOLD <? M)%float; [ right | now left ].
  apply Z.leb_le in Hk.
  destruct Hscan as [_ [[Hr _]|(Hk' & _)]].
  - injection Hr as _ Hk0. lia.
  - cbn [snd] in Hk'. rewrite Hband by lia.
    destruct (k =? 13) eqn:E13; [ apply Z.eqb_eq in E13; lia | reflexivity ].
Qed.

(** A frame with a single peak at bin 75: the estimate is 439.453125 Hz. *)
Lemma peak_estimator_scan_witness :
  estimatePeak (H := fixedSpectrum []) (spectrumOf [(75, 10%float)])
  = 439.453125%float.
Proof.
  destruct (peak_estimator_scan (H := fixedSpectrum []) (spectrumOf [(75, 10%float)]))
    as (_ & _ & Hfull & _ & _ & Hest & _).
  assert (Hhi : maxIndexLimit (spectrumOf [(75, 10%float)]) = 341).
  { apply Hfull. vm_compute. reflexivity. }
  rewrite Hest. vm_compute. reflexivity.
Defined.

(** C3 as stated fails.  Take a frame with magnitude 12 at bin 13 and
    magnitude 10 at bin 75.  Bin 13 is scanned although its frequency,
    76.171875 Hz, is below the band; it wins the scan and is then
    rejected by the range check, so the program reports no pitch, where
    an estimator that considers only the bins in the band reports
    439.453125 Hz.  Bin 341, at 1998.046875 Hz, is in the band and is not
    scanned. *)
Lemma peak_estimator_counterexample :
  minIndex = 13
  /\ (13 <? maxIndexLimit maskedPeakFrame) = true
  /\ inBand (binFrequency 13) = false
  /\ estimatePeak (H := fixedSpectrum []) maskedPeakFrame = 0%float
  /\ estimatePeakInBand (H := fixedSpectrum []) maskedPeakFrame = 439.453125%float
  /\ inBand (binFrequency 341) = true
  /\ (341 <? maxIndexLimit maskedPeakFrame) = false.
Proof.
  repeat match goal with |- _ /\ _ => split end; vm_compute; reflexivity.
Qed.

(** ** Note names and note numbers *)

(** C7. For a note number from 1 to 127 the name is the entry
    [n mod 12] of the twelve-entry table that starts at C, followed by
    the decimal text of [n / 12 - 1]; outside that range it is the
    sentinel "N/A".  In particular 69 is "A4", and 0 and 128 give the
    sentinel. *)
Theorem note_name_spec (n : Z) :
  (1 <= n <= 127 ->
   getNoteName n
   = (nth (Z.to_nat (n mod 12)) noteNames "" ++ to_string (n / 12 - 1))%string)
  /\ (n < 1 \/ 127 < n -> getNoteName n = "N/A"%string)
  /\ List.length noteNames = 12%nat
  /\ nth 0 noteNames ""%string = "C"%string
  /\ getNoteName 69 = "A4"%string
  /\ getNoteName 0 = "N/A"%string
  /\ getNoteName 128 = "N/A"%string.
Proof.
  split; [ | split; [ | repeat match goal with |- _ /\ _ => split end; reflexivity ] ].
  - intros Hn. unfold getNoteName.
    replace (n <=? 0) with false by (symmetry; apply Z.leb_gt; lia).
    replace (127 <? n) with false by (symmetry; apply Z.ltb_ge; lia).
    cbn [orb].
    rewrite Z.quot_div_nonneg, Z.rem_mod_nonneg by lia. reflexivity.
  - intros Hn. unfold getNoteName.
    destruct Hn as [Hn|Hn].
    + replace (n <=? 0) with true by (symmetry; apply Z.leb_le; lia). reflexivity.
    + replace (127 <? n) with true by (symmetry; apply Z.ltb_lt; lia).
      now rewrite orb_true_r.
Qed.

Lemma note_name_spec_witness :
  getNoteName 60 = "C4"%string /\ getNoteName (-3) = "N/A"%string.
Proof.
  destruct (note_name_spec 60) as [Hin _].
  destruct (note_name_spec (-3)) as (_ & Hout & _).
  split.
  - rewrite Hin by lia. reflexivity.
  - apply Hout. lia.
Defined.

(** All 127 names: the octave runs from -1 to 9 and every name is the
    table entry followed by the octave. *)
Lemma note_names_table :
  map getNoteName [1; 12; 21; 59; 60; 61; 108; 127]
  = ["C#-1"; "C0"; "A0"; "B3"; "C4"; "C#4"; "C8"; "G9"]%string.
Proof. reflexivity. Qed.

(** Conversion of a small integer to [double] and back is the identity,
    also through a negation: checked on every integer up to 20000. *)
Lemma to_int_of_Z n :
  0 <= n <= 20000 ->
  Double.to_int (Double.of_Z n) = n
  /\ Double.to_int (- Double.of_Z n)%float = - n.
Proof.
  intros Hn.
  assert (Hall : forallb (fun k => (Double.to_int (Double.of_Z k) =? k)
                                   && (Double.to_int (- Double.of_Z k)%float =? - k))
                         (Zrange 0 20001) = true) by (vm_compute; reflexivity).
  rewrite forallb_forall in Hall.
  specialize (Hall n). rewrite In_Zrange in Hall.
  destruct (andb_prop _ _ (Hall ltac:(lia))) as [H1 H2].
  split; now apply Z.eqb_eq.
Qed.

(** [round_mag] is the nearest integer, halves going up. *)
Lemma round_mag_nearest m e :
  e < 0 ->
  let n := Double.round_mag m e in
  (2 * n - 1) * 2 ^ (- e) <= 2 * Z.pos m < (2 * n + 1) * 2 ^ (- e).
Proof.
  intros He n. unfold n, Double.round_mag.
  replace (0 <=? e) with false by (symmetry; apply Z.leb_gt; lia).
  set (D := 2 ^ (- e)).
  assert (HD : D = 2 * 2 ^ (- e - 1)).
  { unfold D. rewrite <- Z.pow_succ_r by lia. f_equal. lia. }
  set (h := 2 ^ (- e - 1)) in *.
  assert (Hh : 0 < h) by (apply Z.pow_pos_nonneg; lia).
  pose proof (Z.div_mod (Z.pos m + h) D ltac:(lia)) as Hdm.
  pose proof (Z.mod_pos_bound (Z.pos m + h) D ltac:(lia)) as Hb.
  nia.
Qed.

Lemma round_mag_bound m e b :
  e < 0 -> 0 <= b -> Z.pos m < b * 2 ^ (- e) ->
  0 <= Double.round_mag m e <= b.
Proof.
  intros He Hb Hm. pose proof (round_mag_nearest m e He) as Hn. cbv zeta in Hn.
  assert (0 < 2 ^ (- e)) by (apply Z.pow_pos_nonneg; lia).
  nia.
Qed.

(** C6. [frequencyToMidiNote f] is [round(69 + 12 * log2(f / 440))],
    converted to [int], for every [f > 0], and 0 for every [f <= 0].
    The rounding is to the nearest integer with halves away from zero:
    when the double [69 + 12 * log2(f / 440)] is [(-1)^s * m * 2^e] and
    lies within 20000 of zero, the note is the integer [n] nearest to
    [m * 2^e], with the sign of the double.  In particular
    [frequencyToMidiNote 0.0 = 0], and [frequencyToMidiNote 440.0 = 69]
    as [log2 1.0] is [0.0]. *)
Theorem frequency_to_note_spec `{Externals} (f : float) :
  ((0 <? f)%float = true ->
   frequencyToMidiNote f
   = Double.to_int (Double.round (69 + 12 * log2 (f / 440))%float))
  /\ ((f <=? 0)%float = true -> frequencyToMidiNote f = 0)
  /\ (forall s m e,
        (0 <? f)%float = true ->
        Prim2SF (69 + 12 * log2 (f / 440))%float = S754_finite s m e ->
        e < 0 -> Z.pos m < 20000 * 2 ^ (- e) ->
        let n := Double.round_mag m e in
        frequencyToMidiNote f = (if s then - n else n)
        /\ (2 * n - 1) * 2 ^ (- e) <= 2 * Z.pos m < (2 * n + 1) * 2 ^ (- e))
  /\ frequencyToMidiNote 0%float = 0
  /\ (log2 1%float = 0%float -> frequencyToMidiNote 440%float = 69).
Proof.
  assert (Hpos : (0 <? f)%float = true ->
                 frequencyToMidiNote f
                 = Double.to_int (Double.round (69 + 12 * log2 (f / 440))%float)).
  { intros Hf. unfold frequencyToMidiNote.
    destruct (FloatFacts.ltb_not_nan _ _ Hf) as [H0 Hnan].
    rewrite (FloatFacts.ltb_negb_leb _ _ H0 Hnan) in Hf.
    destruct (f <=? 0)%float; [ discriminate | reflexivity ]. }
  split; [ exact Hpos | split; [ | split; [ | split ] ] ].
  - intros Hf. unfold frequencyToMidiNote. now rewrite Hf.
  - intros s m e Hf Hy He Hm n. split; [ | now apply round_mag_nearest ].
    rewrite (Hpos Hf). unfold Double.round. rewrite Hy.
    replace (0 <=? e) with false by (symmetry; apply Z.leb_gt; lia).
    fold n.
    assert (Hn : 0 <= n <= 20000) by (apply round_mag_bound; lia).
    destruct (to_int_of_Z n Hn) as [Hp Hm'].
    destruct s; assumption.
  - reflexivity.
  - intros Hlog. unfold frequencyToMidiNote.
    replace (440 <=? 0)%float with false by reflexivity.
    replace (440 / 440)%float with 1%float by reflexivity.
    rewrite Hlog. vm_compute. reflexivity.
Qed.

(** With the logarithm by squaring: 440 Hz is note 69, and 439.453125 Hz
    (bin 75) gives the double 68.97..., whose nearest integer is 69. *)
Lemma frequency_to_note_spec_witness :
  frequencyToMidiNote (H := codedSpectrum) 440%float = 69
  /\ frequencyToMidiNote (H := codedSpectrum) 439.453125%float = 69.
Proof.
  destruct (frequency_to_note_spec (H := codedSpectrum) 440%float)
    as (_ & _ & _ & _ & H440).
  destruct (frequency_to_note_spec (H := codedSpectrum) 439.453125%float)
    as (_ & _ & Hnear & _).
  split.
  - apply H440. vm_compute. reflexivity.
  - refine (proj1 (Hnear false 4853928249260344%positive (-46) _ _ _ _));
      vm_compute; reflexivity.
Defined.

(** ** The detection log *)

Section Splitting.

Variable sep : ascii.

Lemma freeOf_app s t : freeOf sep (s ++ t) = freeOf sep s && freeOf sep t.
Proof.
  induction s as [|c s IH]; cbn [freeOf append]; [ reflexivity | ].
  now rewrite IH, andb_assoc.
Qed.

Lemma splitOn_nonempty s : splitOn sep s <> [].
Proof.
  destruct s as [|c s]; cbn; [ discriminate | ].
  destruct (Ascii.eqb c sep); [ discriminate | ].
  destruct (splitOn sep s); discriminate.
Qed.

(** A text free of the separator is a single piece. *)
Lemma splitOn_free s : freeOf sep s = true -> splitOn sep s = [s].
Proof.
  induction s as [|c s IH]; cbn [freeOf splitOn]; [ reflexivity | ].
  intros Hfree. apply andb_prop in Hfree. destruct Hfree as [Hc Hs].
  apply negb_true_iff in Hc. rewrite Hc, (IH Hs). reflexivity.
Qed.

(** A text free of the separator is the first piece of whatever follows
    it after a separator. *)
Lemma splitOn_first s rest :
  freeOf sep s = true ->
  splitOn sep (s ++ String sep rest) = s :: splitOn sep rest.
Proof.
  induction s as [|c s IH]; cbn [freeOf splitOn append].
  - intros _. now rewrite Ascii.eqb_refl.
  - intros Hfree. apply andb_prop in Hfree. destruct Hfree as [Hc Hs].
    apply negb_true_iff in Hc. rewrite Hc, (IH Hs). reflexivity.
Qed.

End Splitting.

Lemma plain_app s t : plain (s ++ t) = plain s && plain t.
Proof.
  unfold plain. rewrite !freeOf_app.
  destruct (freeOf comma s), (freeOf comma t), (freeOf linefeed s); reflexivity.
Qed.

Lemma plain_free s : plain s = true -> freeOf comma s = true /\ freeOf linefeed s = true.
Proof. unfold plain. apply andb_prop. Qed.

(** *** The printed fields contain no separator *)

Lemma plain_string_of_uint d : plain (NilEmpty.string_of_uint d) = true.
Proof. induction d; cbn [NilEmpty.string_of_uint]; try reflexivity; exact IHd. Qed.

Lemma plain_string_of_int d : plain (NilZero.string_of_int d) = true.
Proof.
  destruct d as [d|d]; cbn [NilZero.string_of_int].
  - destruct d; try reflexivity; apply plain_string_of_uint.
  - change (String "-" (NilZero.string_of_uint d))
      with ("-" ++ NilZero.string_of_uint d)%string.
    rewrite plain_app. cbn [andb].
    destruct d; try reflexivity; apply plain_string_of_uint.
Qed.

Lemma plain_put_int z : plain (Ostream.put_int z) = true.
Proof. apply plain_string_of_int. Qed.

Lemma plain_digitChar d :
  isDigit d -> plain (String (Ostream.digitChar d) EmptyString) = true.
Proof.
  unfold isDigit. intros Hd.
  assert (Hcases : d = 0 \/ d = 1 \/ d = 2 \/ d = 3 \/ d = 4 \/
                   d = 5 \/ d = 6 \/ d = 7 \/ d = 8 \/ d = 9) by lia.
  repeat (destruct Hcases as [->|Hcases]; [ reflexivity | ]).
  subst. reflexivity.
Qed.

Lemma plain_showDigits ds : Forall isDigit ds -> plain (Ostream.showDigits ds) = true.
Proof.
  induction 1 as [|d ds Hd Hds IH]; [ reflexivity | ].
  change (Ostream.showDigits (d :: ds))
    with (String (Ostream.digitChar d) EmptyString ++ Ostream.showDigits ds)%string.
  now rewrite plain_app, plain_digitChar, IH.
Qed.

Lemma digitsOf_digits n : forall z, Forall isDigit (Ostream.digitsOf n z).
Proof.
  induction n as [|n IH]; intros z; cbn [Ostream.digitsOf]; [ constructor | ].
  apply Forall_app. split; [ apply IH | ].
  constructor; [ | constructor ].
  unfold isDigit. pose proof (Z.mod_pos_bound z 10). lia.
Qed.

Lemma dropZeros_digits ds : Forall isDigit ds -> Forall isDigit (Ostream.dropZeros ds).
Proof.
  induction 1 as [|d ds Hd Hds IH]; cbn [Ostream.dropZeros]; [ constructor | ].
  destruct (d =? 0); [ exact IH | now constructor ].
Qed.

Lemma stripZeros_digits ds : Forall isDigit ds -> Forall isDigit (Ostream.stripZeros ds).
Proof.
  intros Hds. unfold Ostream.stripZeros.
  apply Forall_rev, dropZeros_digits, Forall_rev, Hds.
Qed.

Lemma firstn_digits n ds : Forall isDigit ds -> Forall isDigit (firstn n ds).
Proof.
  intros Hds. rewrite <- (firstn_skipn n ds) in Hds.
  now apply Forall_app in Hds.
Qed.

Lemma skipn_digits n ds : Forall isDigit ds -> Forall isDigit (skipn n ds).
Proof.
  intros Hds. rewrite <- (firstn_skipn n ds) in Hds.
  now apply Forall_app in Hds.
Qed.

Lemma plain_withPoint intPart fracPart :
  Forall isDigit intPart -> Forall isDigit fracPart ->
  plain (Ostream.withPoint intPart fracPart) = true.
Proof.
  intros Hi Hf. unfold Ostream.withPoint.
  pose proof (stripZeros_digits fracPart Hf) as Hs.
  destruct (Ostream.stripZeros fracPart) as [|d frac].
  - now apply plain_showDigits.
  - rewrite !plain_app, !plain_showDigits by assumption. reflexivity.
Qed.

Lemma plain_showExponent X : plain (Ostream.showExponent X) = true.
Proof.
  unfold Ostream.showExponent. rewrite !plain_app, plain_string_of_int.
  destruct (X <? 0), (Z.abs X <? 10); reflexivity.
Qed.

Lemma plain_showPositive N D : plain (Ostream.showPositive N D) = true.
Proof.
  unfold Ostream.showPositive. destruct (Ostream.sig6 N D) as [d X].
  pose proof (digitsOf_digits 6 d) as Hds.
  destruct ((-4 <=? X) && (X <? 6)).
  - destruct (0 <=? X).
    + apply plain_withPoint; [ now apply firstn_digits | now apply skipn_digits ].
    + apply plain_withPoint.
      * constructor; [ unfold isDigit; lia | constructor ].
      * apply Forall_app. split; [ | assumption ].
        apply Forall_forall. intros x Hx. apply repeat_spec in Hx.
        subst. unfold isDigit. lia.
  - rewrite !plain_app, plain_showExponent.
    rewrite plain_withPoint;
      [ reflexivity | now apply firstn_digits | now apply skipn_digits ].
Qed.

Lemma plain_put_double x : plain (Ostream.put_double x) = true.
Proof.
  unfold Ostream.put_double.
  destruct (Prim2SF x) as [[]|[]| |s m e]; try reflexivity.
  rewrite plain_app, plain_showPositive. now destruct s.
Qed.

(** *** Reading back what was written *)

Lemma readInt_put_int z : readInt (Ostream.put_int z) = Some z.
Proof.
  unfold readInt, Ostream.put_int.
  rewrite NilZero.isi.
  - cbn [option_map]. now rewrite DecimalZ.of_to.
  - destruct z as [|p|p]; cbn; try discriminate.
    intros [= Hp]. now apply (DecimalPos.Unsigned.to_uint_nonnil p).
  - destruct z as [|p|p]; cbn; try discriminate.
    intros [= Hp]. now apply (DecimalPos.Unsigned.to_uint_nonnil p).
Qed.

Lemma writeDetection_fields det :
  writeDetection det
  = (Ostream.put_double (timeSec det)
     ++ String comma
          (Ostream.put_double (frequencyHz det)
           ++ String comma (Ostream.put_int (midiNote det) ++ String linefeed EmptyString)))%string.
Proof. reflexivity. Qed.

Lemma append_assoc (s t u : string) : ((s ++ t) ++ u = s ++ (t ++ u))%string.
Proof.
  induction s as [|c s IH]; cbn [append]; [ reflexivity | now rewrite IH ].
Qed.

Lemma readLines_more line piece pieces :
  readLines (line :: piece :: pieces)
  = match readLine line, readLines (piece :: pieces) with
    | Some entry, Some entries => Some (entry :: entries)
    | _, _ => None
    end.
Proof. destruct line; reflexivity. Qed.

(** *** Six significant digits *)

Lemma roundHalfEven_nearest A B :
  0 < B ->
  let d := Ostream.roundHalfEven A B in
  Z.abs (2 * A - 2 * d * B) <= B /\ A / B <= d <= A / B + 1.
Proof.
  intros HB d. unfold d, Ostream.roundHalfEven.
  pose proof (Z.div_mod A B ltac:(lia)) as Hdm.
  pose proof (Z.mod_pos_bound A B HB) as Hr.
  set (q := A / B) in *. set (r := A mod B) in *.
  destruct (Z.compare_spec (2 * r) B); [ destruct (Z.even q) | | ]; nia.
Qed.

Lemma findExp_spec N D fuel : forall X,
  Ostream.pow10_le X N D = true ->
  let X' := Ostream.findExp fuel X N D in
  Ostream.pow10_le X' N D = true
  /\ X <= X' <= X + Z.of_nat fuel
  /\ (X' < X + Z.of_nat fuel -> Ostream.pow10_le (X' + 1) N D = false).
Proof.
  induction fuel as [|fuel IH]; intros X HX; cbn [Ostream.findExp].
  - split; [ exact HX | split; lia ].
  - destruct (Ostream.pow10_le (X + 1) N D) eqn:E.
    + destruct (IH (X + 1) E) as (H1 & H2 & H3).
      split; [ exact H1 | split; [ lia | ] ].
      intros Hlt. apply H3. lia.
    + split; [ exact HX | split; [ lia | intros _; exact E ] ].
Qed.

Lemma pow10_split a b : 0 <= a -> 0 <= b -> 10 ^ (a + b) = 10 ^ a * 10 ^ b.
Proof. intros. now apply Z.pow_add_r. Qed.

(** [10^X <= N / D < 10^(X + 1)] puts the scaled quotient between
    [10^5] and [10^6]. *)
Lemma scaled_bounds N D X :
  0 < N -> 0 < D ->
  Ostream.pow10_le X N D = true -> Ostream.pow10_le (X + 1) N D = false ->
  let A := N * 10 ^ Z.max (5 - X) 0 in
  let B := D * 10 ^ Z.max (X - 5) 0 in
  0 < B /\ 100000 * B <= A < 1000000 * B.
Proof.
  intros HN HD Hlo Hhi A B. unfold A, B, Ostream.pow10_le in *.
  change 100000 with (10 ^ 5). change 1000000 with (10 ^ 6).
  destruct (Z.leb_spec 0 X) as [HX|HX].
  - apply Z.leb_le in Hlo.
    rewrite (proj2 (Z.leb_le 0 (X + 1))) in Hhi by lia.
    apply Z.leb_gt in Hhi.
    destruct (Z.le_gt_cases 5 X) as [H5|H5].
    + rewrite (Z.max_r (5 - X) 0), (Z.max_l (X - 5) 0) by lia.
      assert (HpX : 10 ^ X = 10 ^ 5 * 10 ^ (X - 5)).
      { rewrite <- pow10_split by lia. f_equal; lia. }
      assert (HpX1 : 10 ^ (X + 1) = 10 ^ 6 * 10 ^ (X - 5)).
      { rewrite <- pow10_split by lia. f_equal; lia. }
      assert (0 < 10 ^ (X - 5)) by (apply Z.pow_pos_nonneg; lia).
      rewrite HpX in Hlo. rewrite HpX1 in Hhi. cbn [Z.pow Z.pow_pos Pos.iter] in *.
      nia.
    + rewrite (Z.max_l (5 - X) 0), (Z.max_r (X - 5) 0) by lia.
      assert (Hp5 : 10 ^ 5 = 10 ^ X * 10 ^ (5 - X)).
      { rewrite <- pow10_split by lia. f_equal; lia. }
      assert (Hp6 : 10 ^ 6 = 10 ^ (X + 1) * 10 ^ (5 - X)).
      { rewrite <- pow10_split by lia. f_equal; lia. }
      assert (0 < 10 ^ (5 - X)) by (apply Z.pow_pos_nonneg; lia).
      assert (0 < 10 ^ X) by (apply Z.pow_pos_nonneg; lia).
      assert (0 < 10 ^ (X + 1)) by (apply Z.pow_pos_nonneg; lia).
      rewrite Hp5, Hp6. rewrite Z.pow_0_r, Z.mul_1_r. nia.
  - apply Z.leb_le in Hlo.
    rewrite (Z.max_l (5 - X) 0), (Z.max_r (X - 5) 0) by lia.
    rewrite Z.pow_0_r, Z.mul_1_r.
    assert (Hp : 10 ^ (5 - X) = 10 ^ 5 * 10 ^ (- X)).
    { rewrite <- pow10_split by lia. f_equal; lia. }
    assert (0 < 10 ^ (- X)) by (apply Z.pow_pos_nonneg; lia).
    split; [ lia | split ].
    + rewrite Hp. nia.
    + destruct (Z.leb_spec 0 (X + 1)) as [HX1|HX1].
      * assert (X = -1) by lia. subst X. apply Z.leb_gt in Hhi.
        change (-1 + 1) with 0 in Hhi. rewrite Z.pow_0_r in Hhi.
        change (5 - -1) with 6.
        assert (0 < 10 ^ 6) by (apply Z.pow_pos_nonneg; lia). nia.
      * apply Z.leb_gt in Hhi.
        assert (Hp' : 10 ^ (5 - X) = 10 ^ 6 * 10 ^ (- (X + 1))).
        { rewrite <- pow10_split by lia. f_equal; lia. }
        assert (0 < 10 ^ (- (X + 1))) by (apply Z.pow_pos_nonneg; lia).
        rewrite Hp'. nia.
Qed.

Lemma sig6_spec N D :
  0 < N -> 0 < D ->
  Ostream.pow10_le (-400) N D = true -> Ostream.pow10_le 400 N D = false ->
  sixDigitsOf N D (fst (Ostream.sig6 N D)) (snd (Ostream.sig6 N D)).
Proof.
  intros HN HD Hlo Hhi. unfold Ostream.sig6.
  destruct (findExp_spec N D 800 (-400) Hlo) as (HX & Hrange & Hnext).
  set (X := Ostream.findExp 800 (-400) N D) in *.
  assert (HX1 : Ostream.pow10_le (X + 1) N D = false).
  { destruct (Z.eq_dec X 400) as [E|E]; [ congruence | apply Hnext; lia ]. }
  destruct (scaled_bounds N D X HN HD HX HX1) as (HB & HA).
  set (A := N * 10 ^ Z.max (5 - X) 0) in *.
  set (B := D * 10 ^ Z.max (X - 5) 0) in *.
  assert (Hd : (if 5 <=? X then Ostream.roundHalfEven N (D * 10 ^ (X - 5))
                else Ostream.roundHalfEven (N * 10 ^ (5 - X)) D)
               = Ostream.roundHalfEven A B).
  { unfold A, B. destruct (Z.leb_spec 5 X).
    - rewrite (Z.max_r (5 - X) 0), (Z.max_l (X - 5) 0) by lia.
      now rewrite Z.pow_0_r, Z.mul_1_r.
    - rewrite (Z.max_l (5 - X) 0), (Z.max_r (X - 5) 0) by lia.
      now rewrite Z.pow_0_r, Z.mul_1_r. }
  rewrite Hd. clear Hd.
  destruct (roundHalfEven_nearest A B HB) as [Hnear Hq].
  set (d := Ostream.roundHalfEven A B) in *.
  assert (Hquot : 100000 <= A / B < 1000000).
  { split; [ apply Z.div_le_lower_bound; lia | apply Z.div_lt_upper_bound; lia ]. }
  destruct (Z.eqb_spec d 1000000) as [E|E]; cbn [fst snd]; unfold sixDigitsOf.
  - split; [ lia | ].
    replace (5 - (X + 1)) with (4 - X) by lia.
    replace (X + 1 - 5) with (X - 4) by lia.
    rewrite E in Hnear. unfold A, B in Hnear.
    destruct (Z.le_gt_cases 5 X) as [H5|H5].
    + rewrite (Z.max_r (5 - X) 0), (Z.max_l (X - 5) 0) in Hnear by lia.
      rewrite (Z.max_r (4 - X) 0), (Z.max_l (X - 4) 0) by lia.
      replace (X - 4) with (1 + (X - 5)) by lia.
      rewrite pow10_split by lia.
      assert (0 < 10 ^ (X - 5)) by (apply Z.pow_pos_nonneg; lia).
      set (p := 10 ^ (X - 5)) in *.
      rewrite Z.pow_0_r in *. change (10 ^ 1) with 10.
      assert (0 < D * p) by nia. set (Dp := D * p) in *.
      replace (D * (10 * p)) with (10 * Dp) by (unfold Dp; ring). lia.
    + rewrite (Z.max_l (5 - X) 0), (Z.max_r (X - 5) 0) in Hnear by lia.
      rewrite (Z.max_l (4 - X) 0), (Z.max_r (X - 4) 0) by lia.
      replace (5 - X) with (1 + (4 - X)) in Hnear by lia.
      rewrite pow10_split in Hnear by lia.
      set (p := 10 ^ (4 - X)) in *.
      rewrite Z.pow_0_r in *. change (10 ^ 1) with 10 in Hnear.
      set (Np := N * p) in *.
      replace (N * (10 * p)) with (10 * Np) in Hnear by (unfold Np; ring). lia.
  - split; [ lia | exact Hnear ].
Qed.

(** *** Finite doubles *)

Lemma finite_double_range x s m e :
  Prim2SF x = S754_finite s m e ->
  0 < numeratorOf m e /\ 0 < denominatorOf e
  /\ Ostream.pow10_le (-400) (numeratorOf m e) (denominatorOf e) = true
  /\ Ostream.pow10_le 400 (numeratorOf m e) (denominatorOf e) = false.
Proof.
  intros Hx. destruct (finite_double_bounds x s m e Hx) as (Hm & He & _).
  assert (H1074 : 2 ^ 1074 <= 10 ^ 400) by (apply Z.leb_le; vm_compute; reflexivity).
  assert (H1024 : 2 ^ 53 * 2 ^ 971 <= 10 ^ 400) by (apply Z.leb_le; vm_compute; reflexivity).
  assert (H53 : 2 ^ 53 <= 10 ^ 400) by (apply Z.leb_le; vm_compute; reflexivity).
  assert (Hpos53 : 0 < 2 ^ 53) by (apply Z.pow_pos_nonneg; lia).
  unfold numeratorOf, denominatorOf, Ostream.pow10_le.
  change (0 <=? -400) with false. change (0 <=? 400) with true.
  change (- -400) with 400. cbv iota.
  set (T := 10 ^ 400) in *. set (P := 2 ^ 53) in *.
  destruct (Z.leb_spec 0 e) as [H0|H0].
  - assert (Hpe : 0 < 2 ^ e <= 2 ^ 971).
    { split; [ apply Z.pow_pos_nonneg; lia | apply Z.pow_le_mono_r; lia ]. }
    set (Q := 2 ^ e) in *. set (R := 2 ^ 971) in *.
    split; [ nia | split; [ lia | split ] ].
    + apply Z.leb_le. nia.
    + apply Z.leb_gt. nia.
  - assert (Hpe : 0 < 2 ^ (- e) <= 2 ^ 1074).
    { split; [ apply Z.pow_pos_nonneg; lia | apply Z.pow_le_mono_r; lia ]. }
    set (Q := 2 ^ (- e)) in *. set (R := 2 ^ 1074) in *.
    split; [ lia | split; [ lia | split ] ].
    + apply Z.leb_le. nia.
    + apply Z.leb_gt. nia.
Qed.
(** *** Reading the numbers back *)

Lemma digitOf_digitChar d : isDigit d -> digitOf (Ostream.digitChar d) = Some d.
Proof.
  unfold isDigit. intros Hd.
  assert (Hcases : d = 0 \/ d = 1 \/ d = 2 \/ d = 3 \/ d = 4 \/
                   d = 5 \/ d = 6 \/ d = 7 \/ d = 8 \/ d = 9) by lia.
  repeat (destruct Hcases as [->|Hcases]; [ reflexivity | ]).
  subst. reflexivity.
Qed.

(** A digit character is none of the other characters of a number. *)
Lemma digitChar_other d sep :
  isDigit d -> digitOf sep = None -> Ascii.eqb (Ostream.digitChar d) sep = false.
Proof.
  intros Hd Hsep. destruct (Ascii.eqb_spec (Ostream.digitChar d) sep) as [<-|]; [ | reflexivity ].
  rewrite (digitOf_digitChar d Hd) in Hsep. discriminate.
Qed.

Lemma showDigits_cons d ds :
  Ostream.showDigits (d :: ds) = String (Ostream.digitChar d) (Ostream.showDigits ds).
Proof. reflexivity. Qed.

Lemma showDigits_app ds ds' :
  Ostream.showDigits (ds ++ ds') = (Ostream.showDigits ds ++ Ostream.showDigits ds')%string.
Proof.
  induction ds as [|d ds IH]; [ reflexivity | ].
  cbn [app]. rewrite !showDigits_cons, IH. reflexivity.
Qed.

Lemma length_showDigits ds : String.length (Ostream.showDigits ds) = List.length ds.
Proof.
  induction ds as [|d ds IH]; [ reflexivity | ].
  rewrite showDigits_cons. cbn [String.length List.length]. now rewrite IH.
Qed.

Lemma freeOf_showDigits sep ds :
  digitOf sep = None -> Forall isDigit ds -> freeOf sep (Ostream.showDigits ds) = true.
Proof.
  intros Hsep. induction 1 as [|d ds Hd _ IH]; [ reflexivity | ].
  rewrite showDigits_cons. cbn [freeOf].
  now rewrite (digitChar_other d sep Hd Hsep), IH.
Qed.

Lemma digitsValue_showDigits ds : Forall isDigit ds -> forall acc,
  digitsValue acc (Ostream.showDigits ds)
  = Some (fold_left (fun a d => a * 10 + d) ds acc).
Proof.
  induction 1 as [|d ds Hd _ IH]; intros acc; [ reflexivity | ].
  rewrite showDigits_cons. cbn [digitsValue fold_left].
  now rewrite (digitOf_digitChar d Hd), IH.
Qed.

Lemma readDigits_showDigits ds :
  Forall isDigit ds -> ds <> [] ->
  readDigits (Ostream.showDigits ds) = Some (number ds).
Proof.
  intros Hds Hne. destruct ds as [|d ds]; [ contradiction | ].
  unfold readDigits, number. rewrite <- (digitsValue_showDigits (d :: ds) Hds 0).
  reflexivity.
Qed.

(** *** The number of a list of digits *)

Lemma fold_digits_linear ds : forall acc,
  fold_left (fun a d => a * 10 + d) ds acc
  = acc * 10 ^ Z.of_nat (List.length ds) + number ds.
Proof.
  unfold number.
  induction ds as [|d ds IH]; intros acc; cbn [fold_left List.length].
  - cbn. lia.
  - rewrite (IH (acc * 10 + d)), (IH (0 * 10 + d)).
    rewrite Nat2Z.inj_succ, Z.pow_succ_r by lia. lia.
Qed.

Lemma number_app ds ds' :
  number (ds ++ ds') = number ds * 10 ^ Z.of_nat (List.length ds') + number ds'.
Proof.
  unfold number at 1. rewrite fold_left_app. fold (number ds).
  apply fold_digits_linear.
Qed.

Lemma number_zeros k : number (repeat 0 k) = 0.
Proof.
  induction k as [|k IH]; [ reflexivity | ].
  change (repeat 0 (S k)) with ([0] ++ repeat 0 k). rewrite number_app, IH.
  reflexivity.
Qed.

Lemma number_digitsOf n : forall z, number (Ostream.digitsOf n z) = z mod 10 ^ Z.of_nat n.
Proof.
  induction n as [|n IH]; intros z.
  - cbn. now rewrite Z.mod_1_r.
  - cbn [Ostream.digitsOf]. rewrite number_app, IH.
    change (number [z mod 10]) with (0 * 10 + z mod 10).
    change (Z.of_nat (List.length [z mod 10])) with 1.
    replace (10 ^ Z.of_nat (S n)) with (10 * 10 ^ Z.of_nat n)
      by (rewrite Nat2Z.inj_succ, Z.pow_succ_r by lia; reflexivity).
    rewrite (Z.rem_mul_r z 10 (10 ^ Z.of_nat n)) by lia. lia.
Qed.

Lemma length_digitsOf n : forall z, List.length (Ostream.digitsOf n z) = n.
Proof.
  induction n as [|n IH]; intros z; [ reflexivity | ].
  cbn [Ostream.digitsOf]. rewrite length_app, IH. cbn. lia.
Qed.

(** The digits are the stripped digits followed by zeros. *)
Lemma dropZeros_zeros ds : exists k, ds = repeat 0 k ++ Ostream.dropZeros ds.
Proof.
  induction ds as [|d ds (k & IH)]; [ now exists O | ].
  cbn [Ostream.dropZeros]. destruct (Z.eqb_spec d 0) as [->|_].
  - exists (S k). cbn [repeat app]. now rewrite <- IH.
  - now exists O.
Qed.

Lemma rev_zeros k : rev (repeat 0 k) = repeat 0 k.
Proof.
  induction k as [|k IH]; [ reflexivity | ].
  cbn [repeat rev]. rewrite IH. now rewrite <- repeat_cons.
Qed.

Lemma stripZeros_zeros ds : exists k, ds = Ostream.stripZeros ds ++ repeat 0 k.
Proof.
  unfold Ostream.stripZeros. destruct (dropZeros_zeros (rev ds)) as (k & Hk).
  exists k. rewrite <- (rev_involutive ds) at 1. rewrite Hk at 1.
  now rewrite rev_app_distr, rev_zeros.
Qed.

(** *** Cutting a text at a mark *)

Lemma cutAt_free sep s : freeOf sep s = true -> cutAt sep s = (s, None).
Proof.
  induction s as [|c s IH]; cbn [freeOf cutAt]; [ reflexivity | ].
  intros Hfree. apply andb_prop in Hfree. destruct Hfree as [Hc Hs].
  apply negb_true_iff in Hc. now rewrite Hc, (IH Hs).
Qed.

Lemma cutAt_first sep s rest :
  freeOf sep s = true -> cutAt sep (s ++ String sep rest) = (s, Some rest).
Proof.
  induction s as [|c s IH]; cbn [freeOf cutAt append].
  - intros _. now rewrite Ascii.eqb_refl.
  - intros Hfree. apply andb_prop in Hfree. destruct Hfree as [Hc Hs].
    apply negb_true_iff in Hc. now rewrite Hc, (IH Hs).
Qed.

(** *** The mantissa *)

(** The mantissa as written is read as a number [M * 10^E] that is the
    number of all the digits, integer part and fraction, scaled by the
    length of the fraction. *)
Lemma readMantissa_withPoint intPart fracPart :
  Forall isDigit intPart -> Forall isDigit fracPart -> intPart <> [] ->
  exists M E,
    readMantissa (Ostream.withPoint intPart fracPart) = Some (M, E)
    /\ 0 <= Z.of_nat (List.length fracPart) + E
    /\ M * 10 ^ (Z.of_nat (List.length fracPart) + E) = number (intPart ++ fracPart)
    /\ freeOf exponentMark (Ostream.withPoint intPart fracPart) = true
    /\ exists d rest,
         isDigit d
         /\ Ostream.withPoint intPart fracPart = String (Ostream.digitChar d) rest.
Proof.
  intros Hi Hf Hne. unfold Ostream.withPoint, readMantissa.
  pose proof (stripZeros_digits fracPart Hf) as Hs.
  destruct (stripZeros_zeros fracPart) as (k & Hk).
  assert (Hhead : forall tail, exists d rest,
             isDigit d
             /\ (Ostream.showDigits intPart ++ tail)%string
                = String (Ostream.digitChar d) rest).
  { intros tail. destruct intPart as [|d intPart]; [ contradiction | ].
    inversion Hi; subst. exists d. eexists. split; [ assumption | ].
    rewrite showDigits_cons. reflexivity. }
  destruct (Ostream.stripZeros fracPart) as [|d frac] eqn:Es.
  - cbn [app] in Hk.
    rewrite (cutAt_free point) by (apply freeOf_showDigits; [ reflexivity | exact Hi ]).
    rewrite (readDigits_showDigits intPart Hi Hne). cbn [option_map].
    exists (number intPart), 0.
    split; [ reflexivity | split; [ lia | split; [ | split ] ] ].
    + rewrite number_app, Z.add_0_r.
      replace (number fracPart) with 0 by (rewrite Hk; symmetry; apply number_zeros).
      lia.
    + apply freeOf_showDigits; [ reflexivity | exact Hi ].
    + destruct (Hhead EmptyString) as (d & rest & Hd & Heq).
      exists d, rest. split; [ exact Hd | ].
      rewrite <- Heq. clear. induction (Ostream.showDigits intPart) as [|c s IH];
        [ reflexivity | cbn [append]; now rewrite <- IH ].
  - change ("." ++ Ostream.showDigits (d :: frac))%string
      with (String point (Ostream.showDigits (d :: frac))).
    rewrite (cutAt_first point)
      by (apply freeOf_showDigits; [ reflexivity | exact Hi ]).
    rewrite <- showDigits_app.
    rewrite readDigits_showDigits;
      [ | apply Forall_app; now split | destruct intPart; [ contradiction | discriminate ] ].
    cbn [option_map]. rewrite length_showDigits.
    exists (number (intPart ++ d :: frac)), (- Z.of_nat (List.length (d :: frac))).
    assert (Hlen : List.length fracPart = (List.length (d :: frac) + k)%nat)
      by (rewrite Hk at 1; now rewrite length_app, repeat_length).
    split; [ reflexivity | split; [ lia | split; [ | split ] ] ].
    + replace (number (intPart ++ fracPart))
        with (number ((intPart ++ d :: frac) ++ repeat 0 k))
        by (rewrite <- app_assoc; now rewrite <- Hk).
      rewrite (number_app (intPart ++ d :: frac)).
      rewrite number_zeros, repeat_length, Z.add_0_r. f_equal. f_equal. lia.
    + rewrite freeOf_app, freeOf_showDigits by (reflexivity || exact Hi).
      cbn [freeOf andb]. change (Ascii.eqb point exponentMark) with false. cbn [negb andb].
      apply freeOf_showDigits; [ reflexivity | exact Hs ].
    + apply Hhead.
Qed.

(** *** The exponent *)

Lemma readInt_padded a :
  0 <= a < 10 -> readInt ("0" ++ Ostream.put_int a) = Some a.
Proof.
  intros Ha.
  assert (Hcases : a = 0 \/ a = 1 \/ a = 2 \/ a = 3 \/ a = 4 \/
                   a = 5 \/ a = 6 \/ a = 7 \/ a = 8 \/ a = 9) by lia.
  repeat (destruct Hcases as [->|Hcases]; [ reflexivity | ]).
  subst. reflexivity.
Qed.

Lemma readExponent_showExponent X :
  readExponent (Ostream.showExponent X) = Some X.
Proof.
  unfold Ostream.showExponent.
  assert (Hdigits :
            readInt (append (if Z.abs X <? 10 then "0"%string else ""%string)
                            (NilZero.string_of_int (Z.to_int (Z.abs X))))
            = Some (Z.abs X)).
  { destruct (Z.ltb_spec (Z.abs X) 10) as [Hlt|Hge].
    - apply readInt_padded. lia.
    - apply readInt_put_int. }
  destruct (Z.ltb_spec X 0) as [Hneg|Hpos].
  - change (readExponent ("-" ++ ?s)) with (option_map Z.opp (readInt s)).
    rewrite Hdigits. cbn [option_map]. f_equal. lia.
  - change (readExponent ("+" ++ ?s)) with (readInt s).
    rewrite Hdigits. f_equal. lia.
Qed.

(** *** A positive number *)

Lemma sameDecimal_scaled M E d F :
  0 <= E - F -> M * 10 ^ (E - F) = d -> sameDecimal M E d F.
Proof.
  intros Hle Heq. unfold sameDecimal.
  rewrite (Z.max_l (E - F) 0) by lia. rewrite (Z.max_r (F - E) 0) by lia.
  rewrite Z.pow_0_r. lia.
Qed.

(** What is written for [N / D] is read as the decimal of the six
    digits [d] and the exponent [X] that [sig6] computed. *)
Lemma readUnsigned_showPositive N D :
  100000 <= fst (Ostream.sig6 N D) <= 999999 ->
  exists M E,
    readUnsigned (Ostream.showPositive N D) = Some (Decimal M E)
    /\ sameDecimal M E (fst (Ostream.sig6 N D)) (snd (Ostream.sig6 N D) - 5)
    /\ exists c rest,
         isDigit c /\ Ostream.showPositive N D = String (Ostream.digitChar c) rest.
Proof.
  unfold Ostream.showPositive. destruct (Ostream.sig6 N D) as [d X]. cbn [fst snd].
  intros Hd.
  pose proof (digitsOf_digits 6 d) as Hds.
  pose proof (length_digitsOf 6 d) as Hlen.
  assert (Hnum : number (Ostream.digitsOf 6 d) = d).
  { rewrite number_digitsOf. apply Z.mod_small. cbn. lia. }
  generalize dependent (Ostream.digitsOf 6 d). intros ds Hds Hlen Hnum.
  assert (Hsplit : forall n, (0 < n <= 6)%nat ->
            Forall isDigit (firstn n ds) /\ Forall isDigit (skipn n ds)
            /\ firstn n ds <> []
            /\ List.length (skipn n ds) = (6 - n)%nat
            /\ number (firstn n ds ++ skipn n ds) = d).
  { intros n Hn.
    split; [ now apply firstn_digits | split; [ now apply skipn_digits | ] ].
    split; [ | split ].
    - intros Hnil. apply (f_equal (@List.length Z)) in Hnil.
      rewrite length_firstn, Hlen in Hnil. cbn in Hnil. lia.
    - rewrite length_skipn, Hlen. reflexivity.
    - now rewrite firstn_skipn. }
  destruct ((-4 <=? X) && (X <? 6)) eqn:Hfixed.
  - apply andb_prop in Hfixed. destruct Hfixed as [Hlo Hhi].
    apply Z.leb_le in Hlo. apply Z.ltb_lt in Hhi.
    destruct (Z.leb_spec 0 X) as [Hnn|Hneg].
    + destruct (Hsplit (Z.to_nat (X + 1)) ltac:(lia)) as (Hi & Hf & Hne & Hfl & Hval).
      destruct (readMantissa_withPoint _ _ Hi Hf Hne)
        as (M & E & Hread & Hnonneg & Hscaled & Hfree & Hhead).
      exists M, E. unfold readUnsigned. rewrite (cutAt_free _ _ Hfree), Hread.
      split; [ reflexivity | split; [ | exact Hhead ] ].
      rewrite Hfl in Hnonneg, Hscaled. rewrite Hval in Hscaled.
      apply sameDecimal_scaled; [ lia | ].
      rewrite <- Hscaled. f_equal. f_equal. lia.
    + assert (Hi : Forall isDigit [0]) by (constructor; [ unfold isDigit; lia | constructor ]).
      assert (Hf : Forall isDigit (repeat 0 (Z.to_nat (- X - 1)) ++ ds)).
      { apply Forall_app. split; [ | exact Hds ].
        apply Forall_forall. intros x Hx. apply repeat_spec in Hx.
        subst. unfold isDigit. lia. }
      destruct (readMantissa_withPoint [0] _ Hi Hf ltac:(discriminate))
        as (M & E & Hread & Hnonneg & Hscaled & Hfree & Hhead).
      exists M, E. unfold readUnsigned. rewrite (cutAt_free _ _ Hfree), Hread.
      split; [ reflexivity | split; [ | exact Hhead ] ].
      rewrite length_app, repeat_length, Hlen in Hnonneg, Hscaled.
      rewrite app_assoc, number_app, Hnum in Hscaled.
      change ([0] ++ repeat 0 (Z.to_nat (- X - 1))) with (repeat 0 (S (Z.to_nat (- X - 1))))
        in Hscaled.
      rewrite number_zeros, Z.mul_0_l, Z.add_0_l in Hscaled.
      apply sameDecimal_scaled; [ lia | ].
      rewrite <- Hscaled. f_equal. f_equal. lia.
  - destruct (Hsplit 1%nat ltac:(lia)) as (Hi & Hf & Hne & Hfl & Hval).
    destruct (readMantissa_withPoint _ _ Hi Hf Hne)
      as (M & E & Hread & Hnonneg & Hscaled & Hfree & Hhead).
    exists M, (E + X). unfold readUnsigned.
    change ("e" ++ Ostream.showExponent X)%string
      with (String exponentMark (Ostream.showExponent X)).
    rewrite (cutAt_first _ _ _ Hfree), Hread, readExponent_showExponent.
    split; [ reflexivity | split ].
    + rewrite Hfl in Hnonneg, Hscaled. rewrite Hval in Hscaled.
      apply sameDecimal_scaled; [ lia | ].
      rewrite <- Hscaled. f_equal. f_equal. lia.
    + destruct Hhead as (c & rest & Hc & Heq). exists c. eexists.
      split; [ exact Hc | ]. rewrite Heq. reflexivity.
Qed.

(** *** A double *)

Lemma readDouble_digit d rest :
  isDigit d ->
  readDouble (String (Ostream.digitChar d) rest)
  = readUnsigned (String (Ostream.digitChar d) rest).
Proof.
  intros Hd. unfold readDouble.
  assert (Hn : String.eqb (String (Ostream.digitChar d) rest) "nan" = false).
  { cbn [String.eqb]. now rewrite (digitChar_other d "n" Hd eq_refl). }
  assert (Hi : String.eqb (String (Ostream.digitChar d) rest) "inf" = false).
  { cbn [String.eqb]. now rewrite (digitChar_other d "i" Hd eq_refl). }
  assert (Hm : String.eqb (String (Ostream.digitChar d) rest) "-inf" = false).
  { cbn [String.eqb]. now rewrite (digitChar_other d "-" Hd eq_refl). }
  rewrite Hn, Hi, Hm. now rewrite (digitChar_other d minusSign Hd eq_refl).
Qed.

Lemma readDouble_negative d rest :
  isDigit d ->
  readDouble ("-" ++ String (Ostream.digitChar d) rest)
  = option_map negate (readUnsigned (String (Ostream.digitChar d) rest)).
Proof.
  intros Hd. unfold readDouble.
  assert (Hm : String.eqb ("-" ++ String (Ostream.digitChar d) rest) "-inf" = false).
  { cbn [String.eqb append]. change (Ascii.eqb "-" "-") with true.
    now rewrite (digitChar_other d "i" Hd eq_refl). }
  rewrite Hm. reflexivity.
Qed.

(** Every double is read back from its text as [reads] says. *)
Lemma readDouble_put_double x :
  exists r, readDouble (Ostream.put_double x) = Some r /\ reads x r.
Proof.
  unfold Ostream.put_double, reads.
  destruct (Prim2SF x) as [s|s| |s m e] eqn:Hx.
  - destruct s; eexists; (split; [ reflexivity | reflexivity ]).
  - destruct s; eexists; (split; [ reflexivity | reflexivity ]).
  - eexists. split; [ reflexivity | exact I ].
  - fold (numeratorOf m e). fold (denominatorOf e).
    destruct (finite_double_range x s m e Hx) as (HN & HD & Hlo & Hhi).
    pose proof (sig6_spec _ _ HN HD Hlo Hhi) as Hsix.
    destruct (readUnsigned_showPositive (numeratorOf m e) (denominatorOf e))
      as (M & E & Hread & Hsame & c & rest & Hc & Htext); [ apply Hsix | ].
    rewrite Htext in *.
    destruct s.
    + rewrite readDouble_negative, Hread by exact Hc. cbn [option_map negate].
      eexists. split; [ reflexivity | ].
      eexists. eexists. split; [ exact Hsix | ].
      unfold sameDecimal in *. lia.
    + change (("" ++ ?t)%string) with t.
      rewrite readDouble_digit, Hread by exact Hc.
      eexists. split; [ reflexivity | ].
      eexists. eexists. split; [ exact Hsix | exact Hsame ].
Qed.

(** *** Lines and files *)

Lemma readLine_written det :
  exists entry,
    readLine (Ostream.put_double (timeSec det)
              ++ String comma
                   (Ostream.put_double (frequencyHz det)
                    ++ String comma (Ostream.put_int (midiNote det))))%string
    = Some entry
    /\ readsBack det entry.
Proof.
  unfold readLine.
  destruct (plain_free _ (plain_put_double (timeSec det))) as [Ht _].
  destruct (plain_free _ (plain_put_double (frequencyHz det))) as [Hf _].
  destruct (plain_free _ (plain_put_int (midiNote det))) as [Hn _].
  rewrite (splitOn_first comma _ _ Ht), (splitOn_first comma _ _ Hf),
    (splitOn_free comma _ Hn).
  destruct (readDouble_put_double (timeSec det)) as (t & -> & Htime).
  destruct (readDouble_put_double (frequencyHz det)) as (f & -> & Hfreq).
  rewrite readInt_put_int.
  exists (t, f, midiNote det). split; [ reflexivity | ].
  unfold readsBack. cbn [fst snd]. now split.
Qed.

Lemma readLog_writeLog detections :
  exists entries,
    readLog (writeLog detections) = Some entries
    /\ Forall2 readsBack detections entries.
Proof.
  unfold readLog. induction detections as [|det rest (entries & IH & Hall)].
  - exists []. split; [ reflexivity | constructor ].
  - cbn [writeLog fold_right map]. fold (writeLog rest).
    rewrite writeDetection_fields.
    set (t := Ostream.put_double (timeSec det)).
    set (f := Ostream.put_double (frequencyHz det)).
    set (n := Ostream.put_int (midiNote det)).
    replace ((t ++ String comma (f ++ String comma (n ++ String linefeed "")))
             ++ writeLog rest)%string
      with ((t ++ String comma (f ++ String comma n))
            ++ String linefeed (writeLog rest))%string.
    2:{ repeat (rewrite append_assoc || cbn [append]). reflexivity. }
    assert (Hline : freeOf linefeed (t ++ String comma (f ++ String comma n)) = true).
    { destruct (plain_free _ (plain_put_double (timeSec det))) as [_ Ht].
      destruct (plain_free _ (plain_put_double (frequencyHz det))) as [_ Hf].
      destruct (plain_free _ (plain_put_int (midiNote det))) as [_ Hn].
      rewrite freeOf_app. fold t in Ht. rewrite Ht. cbn [freeOf andb].
      replace (Ascii.eqb comma linefeed) with false by reflexivity. cbn [negb andb].
      rewrite freeOf_app. fold f in Hf. rewrite Hf. cbn [freeOf andb].
      replace (Ascii.eqb comma linefeed) with false by reflexivity. cbn [negb andb].
      exact Hn. }
    rewrite (splitOn_first linefeed _ _ Hline).
    pose proof (splitOn_nonempty linefeed (writeLog rest)) as Hne.
    destruct (splitOn linefeed (writeLog rest)) as [|piece pieces]; [ congruence | ].
    rewrite readLines_more. unfold t, f, n.
    destruct (readLine_written det) as (entry & -> & Hentry).
    rewrite IH. exists (entry :: entries).
    split; [ reflexivity | now constructor ].
Qed.




(** * Further properties *)

(** ** The transform wrapper and the detector *)

Lemma length_resize {A : Type} n (d : A) l : List.length (resize n d l) = n.
Proof.
  unfold resize. rewrite length_firstn, length_app, repeat_length. lia.
Qed.

Lemma resize_full {A : Type} n (d : A) l : List.length l = n -> resize n d l = l.
Proof.
  intros Hl. unfold resize. rewrite firstn_app, Hl, Nat.sub_diag, firstn_0, app_nil_r.
  rewrite <- Hl. apply firstn_all.
Qed.

Lemma resize_cut {A : Type} n (d : A) l : resize n d (firstn n l) = resize n d l.
Proof.
  unfold resize. destruct (Nat.le_gt_cases n (List.length l)) as [Hle|Hgt].
  - rewrite !firstn_app, length_firstn, firstn_firstn, Nat.min_id.
    replace (n - Nat.min n (List.length l))%nat with O by lia.
    replace (n - List.length l)%nat with O by lia.
    reflexivity.
  - rewrite (firstn_all2 (n:=n) l) by lia. reflexivity.
Qed.

Lemma firstn_padded {A : Type} (d : A) n : forall l m,
  (n <= m)%nat -> firstn n (l ++ repeat d m) = firstn n (l ++ repeat d n).
Proof.
  induction n as [|n IH]; intros l m Hm; [ reflexivity | ].
  destruct l as [|x l].
  - destruct m as [|m]; [ lia | ]. cbn [app repeat firstn]. f_equal.
    apply (IH [] m). lia.
  - cbn [app firstn]. f_equal.
    rewrite (IH l m) by lia. now rewrite (IH l (S n)) by lia.
Qed.

Lemma resize_pad {A : Type} n (d : A) l k : resize n d (l ++ repeat d k) = resize n d l.
Proof.
  unfold resize. rewrite <- app_assoc, <- repeat_app.
  apply firstn_padded. lia.
Qed.

(** X1. [fft] always delivers exactly [FFT_SIZE] values, whatever the
    length of its input and whatever the plan leaves in the output array.
    Samples beyond the first [FFT_SIZE] never reach the transform and a
    shorter input is padded with zeros; an input of exactly [FFT_SIZE]
    samples, as the callback passes, reaches the plan as it is, with zero
    imaginary parts.  The scan of the detector therefore always ends at
    bin 340. *)
Theorem fft_shape `{Externals} (input : list float) :
  Z.of_nat (List.length (fft input)) = FFT_SIZE
  /\ fft (firstn (Z.to_nat FFT_SIZE) input) = fft input
  /\ (forall k, fft (input ++ repeat 0%float k) = fft input)
  /\ (Z.of_nat (List.length input) = FFT_SIZE ->
      fft input
      = resize (Z.to_nat FFT_SIZE) czero
          (fftw_execute (map (fun x => (x, 0%float)) input)))
  /\ maxIndexLimit (fft input) = 341.
Proof.
  assert (Hlen : Z.of_nat (List.length (fft input)) = FFT_SIZE).
  { unfold fft. rewrite length_resize. rewrite FFT_SIZE_value. lia. }
  split; [ exact Hlen | ].
  split; [ | split; [ | split ] ].
  - unfold fft. generalize (Z.to_nat FFT_SIZE). intros n.
    now rewrite <- firstn_map, resize_cut.
  - intros k. unfold fft. generalize (Z.to_nat FFT_SIZE). intros n.
    rewrite map_app, map_repeat. fold czero. now rewrite resize_pad.
  - intros Hin. unfold fft. rewrite (resize_full _ _ (map _ input)); [ reflexivity | ].
    rewrite length_map. lia.
  - now apply maxIndexLimit_full.
Qed.

Lemma fft_shape_witness :
  fft (H := fixedSpectrum [(1%float, 2%float)]) (repeat 0.5%float (Z.to_nat FFT_SIZE))
  = (1%float, 2%float) :: repeat czero (Z.to_nat FFT_SIZE - 1).
Proof.
  destruct (fft_shape (H := fixedSpectrum [(1%float, 2%float)])
              (repeat 0.5%float (Z.to_nat FFT_SIZE))) as (_ & _ & _ & Hfull & _).
  rewrite Hfull by (vm_compute; reflexivity). vm_compute. reflexivity.
Defined.

(** *** The values of the detector *)

(** The estimate is 0.0 or the frequency of a scanned bin from 14 on
    whose magnitude exceeds the floor and is exceeded by no scanned
    bin. *)
Lemma estimatePeak_cases `{Externals} (fftData : list complex) :
  estimatePeak fftData = 0%float
  \/ exists k,
       14 <= k < maxIndexLimit fftData
       /\ estimatePeak fftData = binFrequency k
       /\ (SPECTRAL_MAGNITUDE_THRESHOLD <? binMagnitude fftData k)%float = true
       /\ (forall i, 13 <= i < maxIndexLimit fftData ->
             (binMagnitude fftData k <? binMagnitude fftData i)%float = false).
Proof.
  pose proof (scanPeak_result fftData) as Hscan.
  pose proof (maxIndexLimit_bound fftData) as Hhi.
  rewrite minIndex_value in Hscan.
  unfold estimatePeak, Double.gtb.
  destruct (scanPeak fftData) as [M k].
  destruct Hscan as [Hnan [[Hr _]|(Hk & HM & Hpos & Hbefore & Hafter)]].
  - injection Hr as -> ->. now left.
  - cbn [fst snd] in *.
    rewrite (inBand_bins k) by lia.
    destruct (Z.eqb_spec k 13) as [->|H13]; cbn [negb].
    + left. now destruct (_ && _).
    + replace (0 <? k) with true by (symmetry; apply Z.ltb_lt; lia). cbn [andb].
      destruct (SPECTRAL_MAGNITUDE_THRESHOLD <? M)%float eqn:Hfloor; [ right | now left ].
      exists k. split; [ lia | split; [ reflexivity | split ] ].
      * now rewrite <- HM.
      * intros i Hi. rewrite <- HM.
        destruct (Z.compare_spec i k) as [->|Hlt|Hgt].
        -- rewrite HM. apply FloatFacts.ltb_irrefl.
        -- destruct (Hbefore i ltac:(lia)) as [Hb|Hb].
           ++ destruct (M <? binMagnitude fftData i)%float eqn:E; [ | reflexivity ].
              pose proof (FloatFacts.ltb_trans _ _ _ Hb E) as Hii.
              now rewrite FloatFacts.ltb_irrefl in Hii.
           ++ now apply FloatFacts.ltb_nan_r.
        -- apply Hafter. lia.
Qed.

Lemma binFrequency_range k :
  14 <= k <= 340 ->
  (82.03125 <=? binFrequency k)%float = true
  /\ (binFrequency k <=? 1992.1875)%float = true
  /\ is_nan (binFrequency k) = false
  /\ ((200 <? binFrequency k)%float = true -> 35 <= k).
Proof.
  intros Hk.
  assert (Hall : forallb (fun j => (82.03125 <=? binFrequency j)%float
                                   && (binFrequency j <=? 1992.1875)%float
                                   && negb (is_nan (binFrequency j))
                                   && implb (200 <? binFrequency j)%float (35 <=? j))
                         (Zrange 14 341) = true) by (vm_compute; reflexivity).
  rewrite forallb_forall in Hall. specialize (Hall k).
  rewrite In_Zrange in Hall. specialize (Hall ltac:(lia)).
  apply andb_prop in Hall. destruct Hall as [Hall H4].
  apply andb_prop in Hall. destruct Hall as [Hall H3].
  apply andb_prop in Hall. destruct Hall as [H1 H2].
  apply negb_true_iff in H3.
  split; [ exact H1 | split; [ exact H2 | split; [ exact H3 | ] ] ].
  intros H200. rewrite H200 in H4. cbn in H4. now apply Z.leb_le.
Qed.

(** The detector's result is 0.0 or comes from a bin of a window that
    passed the gate. *)
Lemma detector_cases `{Externals} (audioData : list float) :
  detectFundamentalFrequency audioData = 0%float
  \/ exists k,
       14 <= k <= 340
       /\ detectFundamentalFrequency audioData = binFrequency k
       /\ passesNoiseGate audioData = true
       /\ (SPECTRAL_MAGNITUDE_THRESHOLD <? binMagnitude (fft audioData) k)%float = true
       /\ (forall i, 13 <= i <= 340 ->
             (binMagnitude (fft audioData) k <? binMagnitude (fft audioData) i)%float
             = false).
Proof.
  unfold detectFundamentalFrequency.
  destruct (passesNoiseGate audioData) eqn:Hgate; cbn [negb]; [ | now left ].
  assert (Hhi : maxIndexLimit (fft audioData) = 341).
  { apply maxIndexLimit_full. unfold fft. rewrite length_resize, FFT_SIZE_value. lia. }
  destruct (estimatePeak_cases (fft audioData)) as [H0|(k & Hk & Hf & Hfloor & Hmax)].
  - now left.
  - right. exists k. rewrite Hhi in Hk, Hmax.
    split; [ lia | split; [ exact Hf | split; [ reflexivity | split; [ exact Hfloor | ] ] ] ].
    intros i Hi. apply Hmax. lia.
Qed.

(** X2. [detectFundamentalFrequency] returns 0.0 or the frequency of one
    of the bins 14 to 340, that is a multiple of 5.859375 Hz between
    82.03125 Hz and 1992.1875 Hz: never a NaN, never a negative number,
    never a frequency outside the band.  A frequency is reported only for
    a window that passes the noise gate and a bin whose magnitude exceeds
    the floor and is exceeded by no scanned bin of the window's
    spectrum. *)
Theorem detector_values `{Externals} (audioData : list float) :
  let f := detectFundamentalFrequency audioData in
  (f = 0%float
   \/ exists k,
        14 <= k <= 340
        /\ f = binFrequency k
        /\ passesNoiseGate audioData = true
        /\ (SPECTRAL_MAGNITUDE_THRESHOLD <? binMagnitude (fft audioData) k)%float = true
        /\ (forall i, 13 <= i <= 340 ->
              (binMagnitude (fft audioData) k <? binMagnitude (fft audioData) i)%float
              = false))
  /\ is_nan f = false
  /\ (f <? 0)%float = false
  /\ (f = 0%float
      \/ ((82.03125 <=? f)%float = true /\ (f <=? 1992.1875)%float = true)).
Proof.
  intros f.
  pose proof (detector_cases audioData) as Hcases. fold f in Hcases.
  split; [ exact Hcases | ].
  destruct Hcases as [H0|(k & Hk & Hf & _)].
  - rewrite H0. split; [ reflexivity | split; [ reflexivity | now left ] ].
  - destruct (binFrequency_range k Hk) as (Hlo & Hup & Hnan & _).
    rewrite Hf. split; [ exact Hnan | split; [ | right; now split ] ].
    destruct (binFrequency k <? 0)%float eqn:E; [ | reflexivity ].
    assert (H82 : (0 <? 82.03125)%float = true) by reflexivity.
    assert (Hn0 : is_nan 0%float = false) by reflexivity.
    pose proof (FloatFacts.ltb_trans (binFrequency k) 0%float 82.03125%float E H82) as Hlt.
    rewrite FloatFacts.ltb_negb_leb in Hlt by (reflexivity || assumption).
    rewrite Hlo in Hlt. discriminate.
Qed.

Lemma detector_values_witness :
  is_nan (detectFundamentalFrequency (H := codedSpectrum) (codedWindow 75)) = false
  /\ (detectFundamentalFrequency (H := codedSpectrum) (codedWindow 75) = 0%float
      \/ ((82.03125 <=? detectFundamentalFrequency (H := codedSpectrum) (codedWindow 75))%float
          = true
          /\ (detectFundamentalFrequency (H := codedSpectrum) (codedWindow 75)
              <=? 1992.1875)%float = true)).
Proof.
  destruct (detector_values (H := codedSpectrum) (codedWindow 75))
    as (_ & Hnan & _ & Hband).
  split; [ exact Hnan | exact Hband ].
Defined.

(** ** The note state machine over whole runs *)

Section WindowRuns.

Context `{Externals}.
Variable P : State -> Prop.
Hypothesis Hwindow : forall st w, P st -> P (processWindow st w).
Hypothesis Hbuffer : forall st buffer frames log, P st -> P (withBuffer st buffer frames log).
Hypothesis Hcount : forall st, P st -> P (bumpCallbackCount st).

Lemma windowStep_kept st : P st -> P (windowStep st).
Proof.
  intros Hst. unfold windowStep, advance. now apply Hbuffer, Hwindow, Hbuffer.
Qed.

Lemma drainLoop_kept fuel : forall st, P st -> P (drainLoop fuel st).
Proof.
  induction fuel as [|fuel IH]; intros st Hst; cbn; [ assumption | ].
  destruct (windowReady st); [ | assumption ].
  now apply IH, windowStep_kept.
Qed.

Lemma paCallback_kept st input : P st -> P (paCallback st input).
Proof.
  intros Hst. unfold paCallback, drainWindows, pushSamples.
  now apply Hcount, drainLoop_kept, Hbuffer.
Qed.

Lemma runCallbacks_kept buffers : forall st, P st -> P (runCallbacks st buffers).
Proof.
  induction buffers as [|b buffers IH]; intros st Hst; cbn; [ assumption | ].
  now apply IH, paCallback_kept.
Qed.

End WindowRuns.

Lemma processWindow_loggedFromBins `{Externals} st w :
  loggedFromBins st -> loggedFromBins (processWindow st w).
Proof.
  unfold loggedFromBins, processWindow. intros Hst.
  destruct (smoothingStep_logged st (detectFundamentalFrequency w)
              (frequencyToMidiNote (detectFundamentalFrequency w))
              (timestampSec (framesProcessed st))) as [->|[Hv ->]]; [ exact Hst | ].
  apply Forall_app. split; [ exact Hst | ].
  constructor; [ | constructor ]. cbn [frequencyHz midiNote].
  unfold validNote, Double.gtb in Hv. apply andb_prop in Hv. destruct Hv as [Hn Hf].
  apply Z.ltb_lt in Hn.
  destruct (detector_cases w) as [H0|(k & Hk & Hk' & _)].
  - rewrite H0 in Hf. discriminate.
  - rewrite Hk' in Hf, Hn |- *.
    destruct (binFrequency_range k Hk) as (_ & _ & _ & H35).
    exists k. split; [ specialize (H35 Hf); lia | ].
    split; [ reflexivity | split; [ reflexivity | exact Hn ] ].
Qed.

Lemma binFrequency_35 : binFrequency 35 = 205.078125%float.
Proof. vm_compute. reflexivity. Qed.

Lemma binFrequency_340 : binFrequency 340 = 1992.1875%float.
Proof. vm_compute. reflexivity. Qed.

(** X3. Every detection the callback logs, over any stream of buffers,
    carries the centre frequency of one of the bins 35 to 340 (205.078125
    Hz to 1992.1875 Hz, multiples of 5.859375 Hz) and the note that
    [frequencyToMidiNote] gives for that frequency, a positive number:
    the log never holds a frequency between bins, a frequency of the band
    at or below 200 Hz, or a note that does not belong to its
    frequency. *)
Theorem logged_detections_from_bins `{Externals} (buffers : list (list float)) :
  Forall (fun det =>
            exists k, 35 <= k <= 340
                      /\ frequencyHz det = binFrequency k
                      /\ binFrequency 35 = 205.078125%float
                      /\ binFrequency 340 = 1992.1875%float
                      /\ midiNote det = frequencyToMidiNote (frequencyHz det)
                      /\ 0 < midiNote det)
         (recordedDetections (runCallbacks initialState buffers)).
Proof.
  assert (Hrun : loggedFromBins (runCallbacks initialState buffers)).
  { apply (runCallbacks_kept loggedFromBins).
    - intros st w. apply processWindow_loggedFromBins.
    - intros st buffer frames log Hst. unfold loggedFromBins.
      now rewrite withBuffer_recordedDetections.
    - intros st Hst. exact Hst.
    - constructor. }
  unfold loggedFromBins in Hrun. revert Hrun. apply Forall_impl.
  intros det (k & Hk & Hf & Hn & Hpos).
  exists k. rewrite Hf.
  split; [ exact Hk | split; [ reflexivity | ] ].
  split; [ exact binFrequency_35 | split; [ exact binFrequency_340 | ] ].
  split; [ exact Hn | exact Hpos ].
Qed.

(** *** The sounding note follows the last window *)

Lemma int_incr_0 : int_incr 0 = 1.
Proof. reflexivity. Qed.

Lemma settled_initial : settled initialState.
Proof. unfold settled. cbn. repeat split; (congruence || lia). Qed.

(** In a settled state the step leaves the window's note sounding if it
    is valid and silence otherwise, and the state is settled again. *)
Lemma smoothingStep_settled st f n ts :
  settled st ->
  settled (smoothingStep st f n ts)
  /\ lastMidiNote (smoothingStep st f n ts) = (if validNote n f then n else 0).
Proof.
  unfold settled. intros (Hp & Hs & Hn).
  unfold smoothingStep. destruct (validNote n f) eqn:Hv.
  - assert (Hpos : 0 < n).
    { unfold validNote in Hv. apply andb_prop in Hv. now apply Z.ltb_lt. }
    assert (Hlast : lastMidiNote (onDetection st f n ts) = n).
    { unfold onDetection.
      destruct (Z.eqb_spec n (lastMidiNote st)) as [Hsame|Hdiff].
      - rewrite andb_false_r. cbn [lastMidiNote]. now symmetry.
      - rewrite andb_true_r.
        destruct (Z.eqb_spec n (pendingMidiNote st)) as [Hpend|Hpend].
        + destruct (Z.eq_dec (consecutiveDetections st) 0) as [H0|H0].
          * rewrite H0, int_incr_0. reflexivity.
          * specialize (Hp H0). congruence.
        + reflexivity. }
    split; [ | exact Hlast ].
    assert (Hpending : pendingMidiNote (onDetection st f n ts) = n).
    { unfold onDetection.
      destruct (Z.eqb_spec n (pendingMidiNote st)) as [Hpend|Hpend];
        destruct (_ && _); cbn [pendingMidiNote]; congruence. }
    assert (Hsil : consecutiveSilences (onDetection st f n ts) = 0).
    { unfold onDetection. destruct (_ && _); reflexivity. }
    rewrite Hlast, Hpending, Hsil.
    split; [ reflexivity | split; [ reflexivity | lia ] ].
  - assert (Hlast : lastMidiNote (onSilence st) = 0).
    { unfold onSilence.
      destruct (Z.ltb_spec 0 (lastMidiNote st)) as [Hsound|Hquiet].
      - rewrite (Hs Hsound), int_incr_0. reflexivity.
      - rewrite andb_false_r. cbn [lastMidiNote]. lia. }
    split; [ | exact Hlast ].
    assert (Hdet : consecutiveDetections (onSilence st) = 0).
    { unfold onSilence. destruct (_ && _); reflexivity. }
    rewrite Hlast, Hdet. split; [ congruence | split; lia ].
Qed.

Lemma settled_preserved : Preserved settled.
Proof.
  split; intros; [ now apply smoothingStep_settled | assumption | assumption ].
Qed.

(** X4. With both smoothing thresholds at 1 the state machine has no
    memory: after every window, whatever came before, the sounding note
    is the note of that window if the window gives a valid note (positive
    and with a frequency above 200 Hz) and none otherwise.  This holds
    although the counters are [int]s that wrap around. *)
Theorem note_follows_last_window `{Externals}
    (windows : list (list float)) (window : list float) :
  let st := feedWindows initialState windows in
  let f := detectFundamentalFrequency window in
  let n := frequencyToMidiNote f in
  lastMidiNote (feedWindow st window) = (if validNote n f then n else 0)
  /\ midiOut (feedWindow st window)
     = midiOut st ++ transition (lastMidiNote st) (if validNote n f then n else 0).
Proof.
  intros st f n.
  assert (Hst : settled st).
  { apply (feedWindows_preserved settled settled_preserved), settled_initial. }
  destruct (smoothingStep_settled st f n (timestampSec (framesProcessed st)) Hst)
    as [_ Hlast].
  unfold feedWindow. rewrite withBuffer_lastMidiNote, withBuffer_midiOut.
  unfold processWindow. fold f. fold n.
  split; [ exact Hlast | ].
  rewrite smoothingStep_midiOut by apply Hst.
  now rewrite Hlast.
Qed.

(** *** The globals of the display *)

Lemma displayInSync_initial : displayInSync initialState.
Proof.
  unfold displayInSync. cbn.
  split; [ reflexivity | split; [ lia | split; [ reflexivity | lia ] ] ].
Qed.

Lemma smoothingStep_displayInSync st f n ts :
  displayInSync st -> displayInSync (smoothingStep st f n ts).
Proof.
  unfold displayInSync. intros (Hcur & Hnn & Hquiet & Hsound).
  unfold smoothingStep. destruct (validNote n f) eqn:Hv.
  - assert (Hpos : 0 < n).
    { unfold validNote in Hv. apply andb_prop in Hv. now apply Z.ltb_lt. }
    unfold onDetection. destruct (_ && _);
      cbn [currentMidiNote lastMidiNote currentFrequency recordedDetections].
    + split; [ reflexivity | split; [ lia | split; [ lia | ] ] ].
      intros _. eexists. eexists. split; [ reflexivity | now split ].
    + now repeat match goal with |- _ /\ _ => split end.
  - unfold onSilence. destruct (_ && _);
      cbn [currentMidiNote lastMidiNote currentFrequency recordedDetections].
    + split; [ reflexivity | split; [ lia | split; [ reflexivity | lia ] ] ].
    + now repeat match goal with |- _ /\ _ => split end.
Qed.

Lemma displayInSync_preserved : Preserved displayInSync.
Proof.
  split; intros; [ now apply smoothingStep_displayInSync | assumption | assumption ].
Qed.

(** X5. The globals the main loop displays never disagree with the
    transcription: after any stream of buffers [currentMidiNote] is the
    sounding note [lastMidiNote]; in silence [currentFrequency] is 0.0;
    while a note sounds, the last entry of the detection log is the
    detection of that note and [currentFrequency] is its frequency. *)
Theorem display_globals_in_sync `{Externals} (buffers : list (list float)) :
  let st := runCallbacks initialState buffers in
  currentMidiNote st = lastMidiNote st
  /\ 0 <= lastMidiNote st
  /\ (lastMidiNote st = 0 -> currentFrequency st = 0%float)
  /\ (0 < lastMidiNote st ->
      exists earlier det,
        recordedDetections st = earlier ++ [det]
        /\ midiNote det = lastMidiNote st
        /\ frequencyHz det = currentFrequency st).
Proof.
  intros st.
  apply (runCallbacks_preserved displayInSync displayInSync_preserved),
    displayInSync_initial.
Qed.

Lemma display_globals_in_sync_witness :
  exists earlier det,
    recordedDetections (runCallbacks (H := codedSpectrum) initialState [codedWindow 75])
    = earlier ++ [det]
    /\ midiNote det
       = lastMidiNote (runCallbacks (H := codedSpectrum) initialState [codedWindow 75])
    /\ frequencyHz det
       = currentFrequency (runCallbacks (H := codedSpectrum) initialState [codedWindow 75]).
Proof.
  apply (display_globals_in_sync (H := codedSpectrum) [codedWindow 75]).
  vm_compute. reflexivity.
Defined.

(** ** Whole streams *)

(** X6. For a stream of [L] samples, delivered in buffers of any sizes,
    the callback analyses no window if [L < FFT_SIZE] and
    [L / HOP_SIZE - 1] windows otherwise; what stays in the overlap
    buffer is the samples not yet hopped over, fewer than [FFT_SIZE]; and
    every window starts with the second half of the window before it
    (50% overlap). *)
Theorem stream_window_count `{Externals} (buffers : list (list float)) :
  let st := runCallbacks initialState buffers in
  let L := Z.of_nat (List.length (List.concat buffers)) in
  let n := Z.of_nat (List.length (windowLog st)) in
  n = (if L <? FFT_SIZE then 0 else L / HOP_SIZE - 1)
  /\ Z.of_nat (List.length (overlapBuffer st)) = L - n * HOP_SIZE
  /\ Z.of_nat (List.length (overlapBuffer st)) < FFT_SIZE
  /\ (forall k w1 w2,
        nth_error (windowLog st) k = Some w1 ->
        nth_error (windowLog st) (S k) = Some w2 ->
        skipn (Z.to_nat HOP_SIZE) (snd w1) = firstn (Z.to_nat HOP_SIZE) (snd w2)).
Proof.
  intros st L n.
  destruct (stream_windows buffers) as (Hlog & Hbuf & Hfull & Hlast).
  fold st in Hlog, Hbuf, Hfull, Hlast.
  assert (HF : Z.to_nat FFT_SIZE = (2 * Z.to_nat HOP_SIZE)%nat)
    by (rewrite FFT_SIZE_value, HOP_SIZE_value; lia).
  assert (Hh : Z.of_nat (Z.to_nat HOP_SIZE) = 4096)
    by (rewrite HOP_SIZE_value; lia).
  rewrite HF in Hfull, Hlast.
  remember (Z.to_nat HOP_SIZE) as h eqn:Eh.
  remember (List.length (windowLog st)) as m eqn:Em.
  remember (List.concat buffers) as samples eqn:Es.
  assert (Hcount : n = (if L <? FFT_SIZE then 0 else L / HOP_SIZE - 1)
                   /\ n * HOP_SIZE <= L < n * HOP_SIZE + FFT_SIZE).
  { rewrite FFT_SIZE_value, HOP_SIZE_value. subst n L.
    destruct m as [|m'].
    - destruct (Z.ltb_spec (Z.of_nat (List.length samples)) 8192); lia.
    - specialize (Hfull m' ltac:(lia)).
      destruct (Z.ltb_spec (Z.of_nat (List.length samples)) 8192) as [Hlt|Hge]; [ nia | ].
      split; [ | nia ].
      assert (Hq : Z.of_nat (List.length samples) / 4096 = Z.of_nat (S m') + 1).
      { symmetry.
        apply (Z.div_unique _ _ _
                 (Z.of_nat (List.length samples) - 4096 * (Z.of_nat (S m') + 1))); nia. }
      lia. }
  destruct Hcount as [Hn Hbounds].
  assert (Hlen : Z.of_nat (List.length (overlapBuffer st)) = L - n * HOP_SIZE).
  { rewrite Hbuf, length_skipn. subst n L. rewrite HOP_SIZE_value in *. nia. }
  split; [ exact Hn | split; [ exact Hlen | split; [ lia | ] ] ].
  intros k w1 w2 H1 H2.
  rewrite Hlog in H1, H2.
  rewrite nth_error_map in H1, H2.
  destruct (nth_error (seq 0 m) k) as [k1|] eqn:E1; [ | discriminate ].
  destruct (nth_error (seq 0 m) (S k)) as [k2|] eqn:E2; [ | discriminate ].
  assert (Hk : (S k < m)%nat).
  { assert (Hsome : nth_error (seq 0 m) (S k) <> None) by congruence.
    apply nth_error_Some in Hsome. now rewrite length_seq in Hsome. }
  rewrite nth_error_seq in E1, E2.
  destruct (Nat.ltb_spec k m) as [_|?]; [ | lia ].
  destruct (Nat.ltb_spec (S k) m) as [_|?]; [ | lia ].
  injection E1 as <-. injection E2 as <-.
  injection H1 as <-. injection H2 as <-.
  unfold streamWindow. cbn [snd]. rewrite <- Eh, HF.
  rewrite skipn_firstn_comm, skipn_skipn, firstn_firstn.
  replace (2 * h - h)%nat with h by lia.
  replace (Nat.min h (2 * h)) with h by lia.
  replace (h + k * h)%nat with (S k * h)%nat by lia.
  reflexivity.
Qed.

Lemma stream_window_count_witness :
  Z.of_nat (List.length
              (windowLog (runCallbacks (H := codedSpectrum) initialState
                            [repeat 0%float (Z.to_nat FRAMES_PER_BUFFER);
                             repeat 0%float (Z.to_nat FFT_SIZE);
                             repeat 0%float (Z.to_nat FRAMES_PER_BUFFER)])))
  = 3.
Proof.
  destruct (stream_window_count (H := codedSpectrum)
              [repeat 0%float (Z.to_nat FRAMES_PER_BUFFER);
               repeat 0%float (Z.to_nat FFT_SIZE);
               repeat 0%float (Z.to_nat FRAMES_PER_BUFFER)]) as (Hcount & _).
  rewrite Hcount. vm_compute. reflexivity.
Defined.

(** *** A quiet stream *)

Lemma quiet_window_silent `{Externals} st w :
  Forall (fun s => aboveGate s = false) w ->
  lastMidiNote st = 0 ->
  let st' := processWindow st w in
  lastMidiNote st' = 0
  /\ midiOut st' = midiOut st
  /\ recordedDetections st' = recordedDetections st
  /\ noteChanged st' = noteChanged st.
Proof.
  intros Hquiet Hlast.
  assert (Hgate : passesNoiseGate w = false).
  { rewrite passesNoiseGate_existsb.
    destruct (existsb aboveGate w) eqn:E; [ | reflexivity ].
    apply existsb_exists in E. destruct E as (s & Hin & Hs).
    rewrite Forall_forall in Hquiet. rewrite (Hquiet s Hin) in Hs. discriminate. }
  unfold processWindow, detectFundamentalFrequency. rewrite Hgate. cbn [negb].
  rewrite smoothingStep_low_frequency by reflexivity.
  unfold onSilence. rewrite Hlast. change (0 <? 0) with false.
  rewrite andb_false_r.
  cbn [lastMidiNote midiOut recordedDetections noteChanged].
  now repeat match goal with |- _ /\ _ => split end.
Qed.

Lemma withBuffer_noteChanged st buffer frames log :
  noteChanged (withBuffer st buffer frames log) = noteChanged st.
Proof. reflexivity. Qed.

Lemma Forall_firstn_skipn {A : Type} (P : A -> Prop) n l :
  Forall P l -> Forall P (firstn n l) /\ Forall P (skipn n l).
Proof.
  intros Hl. rewrite <- (firstn_skipn n l) in Hl. now apply Forall_app in Hl.
Qed.

(** The state of the callback while nothing but quiet samples has
    arrived. *)
Lemma quiet_windowStep `{Externals} st :
  Forall (fun s => aboveGate s = false) (overlapBuffer st) ->
  lastMidiNote st = 0 ->
  Forall (fun s => aboveGate s = false) (overlapBuffer (windowStep st))
  /\ lastMidiNote (windowStep st) = 0
  /\ midiOut (windowStep st) = midiOut st
  /\ recordedDetections (windowStep st) = recordedDetections st
  /\ noteChanged (windowStep st) = noteChanged st.
Proof.
  intros Hquiet Hlast.
  split.
  { rewrite windowStep_overlapBuffer. now apply Forall_firstn_skipn. }
  unfold windowStep, advance.
  rewrite withBuffer_lastMidiNote, withBuffer_midiOut, withBuffer_recordedDetections,
    withBuffer_noteChanged.
  match goal with
  | |- context [processWindow ?s ?w] =>
      destruct (quiet_window_silent s w) as (H1 & H2 & H3 & H4)
  end.
  - unfold takeWindow. now apply Forall_firstn_skipn.
  - now rewrite withBuffer_lastMidiNote.
  - rewrite H1, H2, H3, H4.
    now rewrite withBuffer_midiOut, withBuffer_recordedDetections, withBuffer_noteChanged.
Qed.

Lemma quiet_drainLoop `{Externals} fuel : forall st,
  Forall (fun s => aboveGate s = false) (overlapBuffer st) ->
  lastMidiNote st = 0 ->
  Forall (fun s => aboveGate s = false) (overlapBuffer (drainLoop fuel st))
  /\ lastMidiNote (drainLoop fuel st) = 0
  /\ midiOut (drainLoop fuel st) = midiOut st
  /\ recordedDetections (drainLoop fuel st) = recordedDetections st
  /\ noteChanged (drainLoop fuel st) = noteChanged st.
Proof.
  induction fuel as [|fuel IH]; intros st Hquiet Hlast; cbn [drainLoop].
  - now repeat match goal with |- _ /\ _ => split end.
  - destruct (windowReady st).
    + destruct (quiet_windowStep st Hquiet Hlast) as (H1 & H2 & H3 & H4 & H5).
      destruct (IH (windowStep st) H1 H2) as (K1 & K2 & K3 & K4 & K5).
      rewrite K3, K4, K5, H3, H4, H5.
      now repeat match goal with |- _ /\ _ => split end.
    + now repeat match goal with |- _ /\ _ => split end.
Qed.

Lemma quiet_paCallback `{Externals} st input :
  Forall (fun s => aboveGate s = false) input ->
  Forall (fun s => aboveGate s = false) (overlapBuffer st) ->
  lastMidiNote st = 0 ->
  Forall (fun s => aboveGate s = false) (overlapBuffer (paCallback st input))
  /\ lastMidiNote (paCallback st input) = 0
  /\ midiOut (paCallback st input) = midiOut st
  /\ recordedDetections (paCallback st input) = recordedDetections st
  /\ noteChanged (paCallback st input) = noteChanged st.
Proof.
  intros Hin Hquiet Hlast. unfold paCallback, drainWindows.
  match goal with
  | |- context [drainLoop ?fuel ?s] =>
      destruct (quiet_drainLoop fuel s) as (H1 & H2 & H3 & H4 & H5)
  end.
  - rewrite pushSamples_overlapBuffer. apply Forall_app. now split.
  - unfold pushSamples. now rewrite withBuffer_lastMidiNote.
  - rewrite bumpCallbackCount_overlapBuffer.
    change (lastMidiNote (bumpCallbackCount ?s)) with (lastMidiNote s).
    change (midiOut (bumpCallbackCount ?s)) with (midiOut s).
    change (recordedDetections (bumpCallbackCount ?s)) with (recordedDetections s).
    change (noteChanged (bumpCallbackCount ?s)) with (noteChanged s).
    rewrite H3, H4, H5. unfold pushSamples.
    rewrite withBuffer_midiOut, withBuffer_recordedDetections, withBuffer_noteChanged.
    now repeat match goal with |- _ /\ _ => split end.
Qed.

(** X7. A stream in which no sample exceeds the noise gate threshold in
    absolute value (NaN samples included) produces nothing, however long
    it is and whatever the transform would deliver: no MIDI message, no
    entry of the detection log, no note change for the display. *)
Theorem quiet_stream_is_silent `{Externals} (buffers : list (list float)) :
  Forall (Forall (fun s => aboveGate s = false)) buffers ->
  let st := runCallbacks initialState buffers in
  midiOut st = []
  /\ recordedDetections st = []
  /\ noteChanged st = false
  /\ lastMidiNote st = 0.
Proof.
  intros Hquiet.
  assert (Hrun : forall st,
             Forall (fun s => aboveGate s = false) (overlapBuffer st) ->
             lastMidiNote st = 0 ->
             midiOut (runCallbacks st buffers) = midiOut st
             /\ recordedDetections (runCallbacks st buffers) = recordedDetections st
             /\ noteChanged (runCallbacks st buffers) = noteChanged st
             /\ lastMidiNote (runCallbacks st buffers) = 0).
  { induction Hquiet as [|b buffers Hb _ IH]; intros st Hbuf Hlast.
    - now repeat match goal with |- _ /\ _ => split end.
    - change (runCallbacks st (b :: buffers))
        with (runCallbacks (paCallback st b) buffers).
      destruct (quiet_paCallback st b Hb Hbuf Hlast) as (H1 & H2 & H3 & H4 & H5).
      destruct (IH (paCallback st b) H1 H2) as (K1 & K2 & K3 & K4).
      rewrite K1, K2, K3, H3, H4, H5.
      now repeat match goal with |- _ /\ _ => split end. }
  apply (Hrun initialState); [ constructor | reflexivity ].
Qed.

Lemma quiet_stream_is_silent_witness :
  midiOut (runCallbacks (H := codedSpectrum) initialState
             [repeat 0x1p-8%float (Z.to_nat FFT_SIZE); [nan; (-0x1p-9)%float]])
  = [].
Proof.
  apply (quiet_stream_is_silent (H := codedSpectrum)).
  constructor; [ | constructor; [ | constructor ] ].
  - apply Forall_forall. intros s Hs. apply repeat_spec in Hs. subst s.
    vm_compute. reflexivity.
  - constructor; [ vm_compute; reflexivity | ].
    constructor; [ vm_compute; reflexivity | constructor ].
Defined.

(** *** Note names *)

(** X8. Within the MIDI range 1..127 the name determines the note:
    different note numbers have different names, and none of them is
    named like the sentinel ["N/A"] of the numbers outside the range. *)
Theorem note_names_distinct (a b : Z) :
  1 <= a <= 127 -> 1 <= b <= 127 -> a <> b ->
  getNoteName a <> getNoteName b
  /\ getNoteName a <> "N/A"%string.
Proof.
  intros Ha Hb Hab.
  assert (Hall : forallb (fun x =>
                   negb (String.eqb (getNoteName x) "N/A")
                   && forallb (fun y => implb (String.eqb (getNoteName x) (getNoteName y))
                                              (x =? y))
                              (Zrange 1 128))
                   (Zrange 1 128) = true) by (vm_compute; reflexivity).
  rewrite forallb_forall in Hall. specialize (Hall a).
  rewrite In_Zrange in Hall. specialize (Hall ltac:(lia)).
  apply andb_prop in Hall. destruct Hall as [Hna Hall].
  rewrite forallb_forall in Hall. specialize (Hall b).
  rewrite In_Zrange in Hall. specialize (Hall ltac:(lia)).
  split.
  - intros Heq. apply String.eqb_eq in Heq. rewrite Heq in Hall. cbn in Hall.
    apply Z.eqb_eq in Hall. contradiction.
  - intros Heq. apply String.eqb_eq in Heq. rewrite Heq in Hna. discriminate.
Qed.

Lemma note_names_distinct_witness :
  getNoteName 60 <> getNoteName 72 /\ getNoteName 60 <> "N/A"%string.
Proof. apply note_names_distinct; lia. Defined.

(** ** FFTW resources *)

Lemma filter_absent h live :
  ~ In h live -> filter (fun k => negb (Nat.eqb h k)) live = live.
Proof.
  induction live as [|k live IH]; intros Hin; [ reflexivity | ].
  cbn [filter In] in *. destruct (Nat.eqb_spec h k) as [->|_]; [ tauto | ].
  cbn [negb]. rewrite IH by tauto. reflexivity.
Qed.

(** Releasing a live handle takes it, and nothing else, from the live
    handles. *)
Lemma fftwRelease_live h next before after bad :
  ~ In h before -> ~ In h after ->
  fftwRelease h {| nextHandle := next; liveHandles := before ++ h :: after;
                   badReleases := bad |}
  = {| nextHandle := next; liveHandles := before ++ after; badReleases := bad |}.
Proof.
  intros Hbefore Hafter. unfold fftwRelease.
  cbn [liveHandles nextHandle badReleases].
  rewrite existsb_app. cbn [existsb]. rewrite Nat.eqb_refl, orb_true_r.
  rewrite filter_app. cbn [filter]. rewrite Nat.eqb_refl. cbn [negb].
  now rewrite !filter_absent by assumption.
Qed.

Lemma fftwRelease_head h next after bad :
  ~ In h after ->
  fftwRelease h {| nextHandle := next; liveHandles := h :: after; badReleases := bad |}
  = {| nextHandle := next; liveHandles := after; badReleases := bad |}.
Proof.
  intros Hafter. apply (fftwRelease_live h next [] after bad); [ | exact Hafter ].
  intros [].
Qed.

Lemma fftwRelease_under h k next after bad :
  h <> k -> ~ In h after ->
  fftwRelease h {| nextHandle := next; liveHandles := k :: h :: after; badReleases := bad |}
  = {| nextHandle := next; liveHandles := k :: after; badReleases := bad |}.
Proof.
  intros Hk Hafter. apply (fftwRelease_live h next [k] after bad); [ | exact Hafter ].
  intros [Hin|[]]. congruence.
Qed.

Lemma fresh_absent n h live :
  Forall (fun k => (k < n)%nat) live -> (n <= h)%nat -> ~ In h live.
Proof.
  intros Hlive Hh Hin. rewrite Forall_forall in Hlive. specialize (Hlive h Hin). lia.
Qed.

(** [cleanupFFTW] after [initializeFFTW] gives back exactly what was
    acquired, whichever of the three allocations succeeded. *)
Lemma initialize_cleanup_balanced okInput okOutput okPlan lib :
  handlesFresh lib ->
  let r := initializeFFTW okInput okOutput okPlan lib in
  cleanupFFTW (fst r) (snd r)
  = (noFftwGlobals,
     {| nextHandle := nextHandle (snd r);
        liveHandles := liveHandles lib;
        badReleases := badReleases lib |}).
Proof.
  unfold handlesFresh. destruct lib as [n live bad]. cbn [nextHandle liveHandles badReleases].
  intros Hfresh.
  assert (Habsent : forall h, (n <= h)%nat -> ~ In h live)
    by (intros h; now apply fresh_absent).
  unfold initializeFFTW, cleanupFFTW, fftwAcquire.
  destruct okInput, okOutput, okPlan;
    cbn [fst snd nextHandle liveHandles badReleases
         fftw_plan_ptr fftw_input fftw_output];
    repeat first
      [ rewrite fftwRelease_head
          by (cbn [In]; intros Hin;
              repeat (destruct Hin as [Hin|Hin]; [ lia | ]);
              first [ contradiction | revert Hin; apply Habsent; lia ])
      | rewrite fftwRelease_under
          by (first [ lia
                    | cbn [In]; intros Hin;
                      repeat (destruct Hin as [Hin|Hin]; [ lia | ]);
                      first [ contradiction | revert Hin; apply Habsent; lia ] ]) ];
    reflexivity.
Qed.

(** X9. [cleanupFFTW] releases exactly what [initializeFFTW] acquired:
    whichever of the two arrays and the plan could be obtained, after the
    cleanup the live handles of the library are those from before the
    initialization, nothing was released that was not live, and the three
    globals are null.  A second [cleanupFFTW] does nothing, so calling it
    twice never releases a resource twice. *)
Theorem fftw_cleanup_releases_what_was_acquired
    (okInput okOutput okPlan : bool) (lib : FftwLibrary) :
  handlesFresh lib ->
  let acquired := initializeFFTW okInput okOutput okPlan lib in
  let cleaned := cleanupFFTW (fst acquired) (snd acquired) in
  liveHandles (snd cleaned) = liveHandles lib
  /\ badReleases (snd cleaned) = badReleases lib
  /\ fst cleaned = noFftwGlobals
  /\ cleanupFFTW (fst cleaned) (snd cleaned) = cleaned
  /\ List.length (liveHandles (snd acquired))
     = (List.length (liveHandles lib)
        + (if okInput then 1 else 0) + (if okOutput then 1 else 0)
        + (if okPlan then 1 else 0))%nat.
Proof.
  intros Hfresh acquired cleaned.
  pose proof (initialize_cleanup_balanced okInput okOutput okPlan lib Hfresh) as Hc.
  cbv zeta in Hc. fold acquired in Hc. fold cleaned in Hc.
  rewrite Hc. cbn [fst snd liveHandles badReleases].
  repeat match goal with |- _ /\ _ => split end; try reflexivity.
  subst acquired. destruct lib as [n live bad].
  destruct okInput, okOutput, okPlan; cbn; lia.
Qed.

Lemma fftw_cleanup_releases_what_was_acquired_witness :
  liveHandles
    (snd (cleanupFFTW
            (fst (initializeFFTW true false true
                    {| nextHandle := 7; liveHandles := [5; 2]%nat; badReleases := [] |}))
            (snd (initializeFFTW true false true
                    {| nextHandle := 7; liveHandles := [5; 2]%nat; badReleases := [] |}))))
  = [5; 2]%nat.
Proof.
  apply (fftw_cleanup_releases_what_was_acquired true false true
           {| nextHandle := 7; liveHandles := [5; 2]%nat; badReleases := [] |}).
  unfold handlesFresh. cbn. repeat constructor.
Defined.

(** ** The device search *)

Lemma wrap_int_small z : INT_MIN <= z <= INT_MAX -> wrap_int z = z.
Proof.
  unfold INT_MIN, INT_MAX, wrap_int. intros Hz.
  rewrite Z.mod_small by lia. lia.
Qed.

(** The search from index [i]: the result is the first output device
    of the table, and there is none if there is no result. *)
Lemma findOutputDevice_first devices : forall i,
  0 <= i -> i + Z.of_nat (List.length devices) <= INT_MAX ->
  match findOutputDevice devices i with
  | Some (found, name) =>
      exists k info,
        found = i + Z.of_nat k
        /\ nth_error devices k = Some (Some info)
        /\ deviceOutput info <> 0
        /\ name = deviceName info
        /\ (forall j info', (j < k)%nat ->
              nth_error devices j = Some (Some info') -> deviceOutput info' = 0)
  | None =>
      forall k info, nth_error devices k = Some (Some info) -> deviceOutput info = 0
  end.
Proof.
  unfold INT_MAX.
  induction devices as [|d devices IH]; intros i Hi Hlen; cbn [findOutputDevice].
  - intros [|k] info Hk; discriminate.
  - cbn [List.length] in Hlen.
    assert (Hnext : wrap_int (i + 1) = i + 1)
      by (apply wrap_int_small; unfold INT_MIN, INT_MAX; lia).
    specialize (IH (i + 1) ltac:(lia) ltac:(lia)).
    assert (Hskip :
              (forall info, d = Some info -> deviceOutput info = 0) ->
              match findOutputDevice devices (i + 1) with
              | Some (found, name) =>
                  exists k info,
                    found = i + Z.of_nat k
                    /\ nth_error (d :: devices) k = Some (Some info)
                    /\ deviceOutput info <> 0
                    /\ name = deviceName info
                    /\ (forall j info', (j < k)%nat ->
                          nth_error (d :: devices) j = Some (Some info') ->
                          deviceOutput info' = 0)
              | None =>
                  forall k info,
                    nth_error (d :: devices) k = Some (Some info) -> deviceOutput info = 0
              end).
    { intros Hd. destruct (findOutputDevice devices (i + 1)) as [[found name]|].
      - destruct IH as (k & info & Hfound & Hk & Hout & Hname & Hbefore).
        exists (S k), info. cbn [nth_error].
        split; [ lia | split; [ exact Hk | split; [ exact Hout | split; [ exact Hname | ] ] ] ].
        intros [|j] info' Hj Hnth; cbn [nth_error] in Hnth.
        + injection Hnth as Hnth. now apply Hd.
        + apply (Hbefore j); [ lia | exact Hnth ].
      - intros [|k] info Hnth; cbn [nth_error] in Hnth.
        + injection Hnth as Hnth. now apply Hd.
        + now apply (IH k). }
    destruct d as [info|].
    + destruct (Z.eqb_spec (deviceOutput info) 0) as [Hzero|Hout]; cbn [negb].
      * rewrite Hnext. apply Hskip. intros info' Hinfo. injection Hinfo as <-. exact Hzero.
      * exists O, info. cbn [nth_error].
        split; [ lia | split; [ reflexivity | split; [ exact Hout | split; [ reflexivity | ] ] ] ].
        intros j info' Hj. lia.
    + rewrite Hnext. apply Hskip. intros info Hinfo. discriminate.
Qed.

(** Whether the search finds a device does not depend on the index
    arithmetic. *)
Lemma findOutputDevice_found devices : forall i,
  (exists found name, findOutputDevice devices i = Some (found, name))
  <-> (exists k info, nth_error devices k = Some (Some info) /\ deviceOutput info <> 0).
Proof.
  induction devices as [|d devices IH]; intros i; cbn [findOutputDevice].
  - split; [ intros (found & name & Hf); discriminate | ].
    intros ([|k] & info & Hk & _); discriminate.
  - assert (Hrest :
              (forall info, d = Some info -> deviceOutput info = 0) ->
              (exists found name,
                 findOutputDevice devices (wrap_int (i + 1)) = Some (found, name))
              <-> (exists k info,
                     nth_error (d :: devices) k = Some (Some info)
                     /\ deviceOutput info <> 0)).
    { intros Hd. rewrite IH. split.
      - intros (k & info & Hk & Hout). now exists (S k), info.
      - intros ([|k] & info & Hk & Hout); cbn [nth_error] in Hk.
        + injection Hk as Hk. now specialize (Hd info Hk).
        + now exists k, info. }
    destruct d as [info|].
    + destruct (Z.eqb_spec (deviceOutput info) 0) as [Hzero|Hout]; cbn [negb].
      * apply Hrest. intros info' Hinfo. injection Hinfo as <-. exact Hzero.
      * split; [ intros _; now exists O, info | intros _; now eexists; eexists ].
    + apply Hrest. intros info Hinfo. discriminate.
Qed.

(** X10. The device search of [main] selects the first entry of the
    PortMidi device table that exists and is an output device, reports
    its index and its name, and skips null entries and input devices; it
    finds nothing exactly when the table has no output device.  (The
    table has at most [INT_MAX] entries, its size being an [int].) *)
Theorem output_device_is_first (devices : list (option PmDeviceInfo)) :
  Z.of_nat (List.length devices) <= INT_MAX ->
  match findOutputDevice devices 0 with
  | Some (found, name) =>
      exists info,
        0 <= found
        /\ nth_error devices (Z.to_nat found) = Some (Some info)
        /\ deviceOutput info <> 0
        /\ name = deviceName info
        /\ (forall j info', (j < Z.to_nat found)%nat ->
              nth_error devices j = Some (Some info') -> deviceOutput info' = 0)
  | None =>
      forall k info, nth_error devices k = Some (Some info) -> deviceOutput info = 0
  end.
Proof.
  intros Hlen.
  pose proof (findOutputDevice_first devices 0 ltac:(lia) ltac:(lia)) as Hfirst.
  destruct (findOutputDevice devices 0) as [[found name]|]; [ | exact Hfirst ].
  destruct Hfirst as (k & info & Hfound & Hk & Hout & Hname & Hbefore).
  exists info. replace (Z.to_nat found) with k by lia.
  split; [ lia | now repeat match goal with |- _ /\ _ => split end ].
Qed.

Lemma output_device_is_first_witness :
  exists info,
    nth_error (midiDevices workingEnvironment) 2 = Some (Some info)
    /\ deviceName info = "out"%string.
Proof.
  pose proof (output_device_is_first (midiDevices workingEnvironment)
                ltac:(vm_compute; discriminate)) as Hfirst.
  cbn in Hfirst. destruct Hfirst as (info & _ & Hk & _ & Hname & _).
  exists info. split; [ exact Hk | now symmetry ].
Defined.

(** ** The session: callbacks and passes of the main loop *)

(** *** The main loop does not touch the transcription *)

Lemma transcription_fields st st' :
  transcription st = transcription st' ->
  overlapBuffer st = overlapBuffer st'
  /\ framesProcessed st = framesProcessed st'
  /\ windowLog st = windowLog st'
  /\ midiOut st = midiOut st'
  /\ recordedDetections st = recordedDetections st'
  /\ lastMidiNote st = lastMidiNote st'.
Proof.
  unfold transcription. intros Heq.
  injection Heq as H1 H2 H3 H4 H5 H6 H7 H8 H9 H10 H11 H12.
  now repeat match goal with |- _ /\ _ => split end.
Qed.

Lemma smoothingStep_transcription st st' f n ts :
  transcription st = transcription st' ->
  transcription (smoothingStep st f n ts) = transcription (smoothingStep st' f n ts).
Proof.
  destruct st, st'. unfold transcription. cbn. intros Heq.
  injection Heq as -> -> -> -> -> -> -> -> -> -> -> ->.
  unfold smoothingStep, onDetection, onSilence. cbn.
  repeat match goal with
         | |- context [if ?c then _ else _] => destruct c; cbn
         end; reflexivity.
Qed.

Lemma withBuffer_transcription st st' buffer frames log :
  transcription st = transcription st' ->
  transcription (withBuffer st buffer frames log)
  = transcription (withBuffer st' buffer frames log).
Proof.
  unfold transcription. intros Heq.
  injection Heq as H1 H2 H3 H4 H5 H6 H7 H8 H9 H10 H11 H12.
  unfold withBuffer.
  cbn [lastMidiNote currentMidiNote currentFrequency consecutiveDetections
       consecutiveSilences pendingMidiNote pendingFrequency overlapBuffer
       framesProcessed midiOut recordedDetections windowLog].
  congruence.
Qed.

Lemma bumpCallbackCount_transcription st :
  transcription (bumpCallbackCount st) = transcription st.
Proof. reflexivity. Qed.

Lemma withDisplay_transcription st changed noteOff count :
  transcription (withDisplay st changed noteOff count) = transcription st.
Proof. reflexivity. Qed.

Lemma processWindow_transcription `{Externals} st st' w :
  transcription st = transcription st' ->
  transcription (processWindow st w) = transcription (processWindow st' w).
Proof.
  intros Heq. unfold processWindow.
  destruct (transcription_fields st st' Heq) as (_ & -> & _).
  now apply smoothingStep_transcription.
Qed.

Lemma windowStep_transcription `{Externals} st st' :
  transcription st = transcription st' ->
  transcription (windowStep st) = transcription (windowStep st').
Proof.
  intros Heq. unfold windowStep, advance, takeWindow.
  destruct (transcription_fields st st' Heq) as (Hb & Hf & Hl & _).
  rewrite Hb, Hf, Hl.
  match goal with
  | |- transcription (withBuffer ?x _ _ _) = transcription (withBuffer ?x' _ _ _) =>
      assert (Hx : transcription x = transcription x')
        by now apply processWindow_transcription, withBuffer_transcription
  end.
  destruct (transcription_fields _ _ Hx) as (Hb' & Hf' & Hl' & _).
  rewrite Hb', Hf', Hl'.
  now apply withBuffer_transcription.
Qed.

Lemma drainLoop_transcription `{Externals} fuel : forall st st',
  transcription st = transcription st' ->
  transcription (drainLoop fuel st) = transcription (drainLoop fuel st').
Proof.
  induction fuel as [|fuel IH]; intros st st' Heq; cbn [drainLoop]; [ exact Heq | ].
  assert (Hready : windowReady st = windowReady st').
  { unfold windowReady. now destruct (transcription_fields st st' Heq) as (-> & _). }
  rewrite Hready. destruct (windowReady st'); [ | exact Heq ].
  now apply IH, windowStep_transcription.
Qed.

Lemma paCallback_transcription `{Externals} st st' input :
  transcription st = transcription st' ->
  transcription (paCallback st input) = transcription (paCallback st' input).
Proof.
  intros Heq. unfold paCallback, drainWindows.
  rewrite !bumpCallbackCount_transcription.
  assert (Hpush : transcription (pushSamples st input)
                  = transcription (pushSamples st' input)).
  { unfold pushSamples.
    destruct (transcription_fields st st' Heq) as (-> & -> & -> & _).
    now apply withBuffer_transcription. }
  destruct (transcription_fields _ _ Hpush) as (-> & _).
  now apply drainLoop_transcription.
Qed.

Lemma displayNoteChange_transcription st :
  transcription (fst (displayNoteChange st)) = transcription st.
Proof.
  unfold displayNoteChange.
  repeat match goal with
         | |- context [if ?c then _ else _] => destruct c
         end; reflexivity.
Qed.

Lemma pollStep_fst st fiveSeconds :
  fst (pollStep st fiveSeconds)
  = fst (logThroughput (fst (displayNoteChange st)) fiveSeconds).
Proof.
  unfold pollStep. destruct (displayNoteChange st) as [st1 shown].
  cbn [fst]. now destruct (logThroughput st1 fiveSeconds).
Qed.

Lemma pollStep_snd st fiveSeconds :
  snd (pollStep st fiveSeconds)
  = snd (displayNoteChange st)
    ++ snd (logThroughput (fst (displayNoteChange st)) fiveSeconds).
Proof.
  unfold pollStep. destruct (displayNoteChange st) as [st1 shown].
  cbn [fst snd]. now destruct (logThroughput st1 fiveSeconds).
Qed.

Lemma pollStep_transcription st fiveSeconds :
  transcription (fst (pollStep st fiveSeconds)) = transcription st.
Proof.
  rewrite pollStep_fst. unfold logThroughput.
  destruct fiveSeconds; cbn [fst];
    rewrite ?withDisplay_transcription; apply displayNoteChange_transcription.
Qed.

Lemma sessionStep_poll `{Externals} acc fiveSeconds :
  sessionStep acc (Poll fiveSeconds)
  = (fst (pollStep (fst acc) fiveSeconds),
     snd acc ++ map Cout (snd (pollStep (fst acc) fiveSeconds))).
Proof.
  unfold sessionStep. now destruct (pollStep (fst acc) fiveSeconds).
Qed.

Lemma sessionStep_deliver `{Externals} acc buffer :
  sessionStep acc (Deliver buffer)
  = (paCallback (fst acc) buffer,
     snd acc ++ midiSince (fst acc) (paCallback (fst acc) buffer)).
Proof. reflexivity. Qed.

(** The effects of a session are appended to those before it. *)
Lemma session_effects_append `{Externals} steps : forall st acc,
  fold_left sessionStep steps (st, acc)
  = (fst (runSession st steps), acc ++ snd (runSession st steps)).
Proof.
  unfold runSession.
  induction steps as [|s steps IH]; intros st acc; cbn [fold_left].
  - now rewrite app_nil_r.
  - destruct s as [buffer|fiveSeconds].
    + rewrite !sessionStep_deliver. cbn [fst snd app].
      rewrite IH. rewrite (IH _ (midiSince _ _)). cbn [fst snd].
      now rewrite app_assoc.
    + rewrite !sessionStep_poll. cbn [fst snd app].
      rewrite IH. rewrite (IH _ (map Cout _)). cbn [fst snd].
      now rewrite app_assoc.
Qed.

Lemma runSession_deliver `{Externals} st buffer steps :
  runSession st (Deliver buffer :: steps)
  = (fst (runSession (paCallback st buffer) steps),
     midiSince st (paCallback st buffer)
     ++ snd (runSession (paCallback st buffer) steps)).
Proof.
  unfold runSession at 1. cbn [fold_left]. rewrite sessionStep_deliver.
  cbn [fst snd app]. apply session_effects_append.
Qed.

Lemma runSession_poll `{Externals} st fiveSeconds steps :
  runSession st (Poll fiveSeconds :: steps)
  = (fst (runSession (fst (pollStep st fiveSeconds)) steps),
     map Cout (snd (pollStep st fiveSeconds))
     ++ snd (runSession (fst (pollStep st fiveSeconds)) steps)).
Proof.
  unfold runSession at 1. cbn [fold_left]. rewrite sessionStep_poll.
  cbn [fst snd app]. apply session_effects_append.
Qed.

Lemma runSession_transcription `{Externals} steps : forall st st',
  transcription st = transcription st' ->
  transcription (fst (runSession st steps))
  = transcription (runCallbacks st' (deliveries steps)).
Proof.
  induction steps as [|s steps IH]; intros st st' Heq; [ exact Heq | ].
  destruct s as [buffer|fiveSeconds].
  - rewrite runSession_deliver. cbn [fst deliveries flat_map app].
    change (runCallbacks st' (buffer :: flat_map _ steps))
      with (runCallbacks (paCallback st' buffer) (deliveries steps)).
    now apply IH, paCallback_transcription.
  - rewrite runSession_poll. cbn [fst deliveries flat_map app].
    apply IH. now rewrite pollStep_transcription.
Qed.

(** The MIDI stream and the sounding note of a session are those of its
    callbacks. *)
Lemma main_loop_quiet `{Externals} (steps : list SessionStep) :
  midiOut (fst (runSession initialState steps))
  = midiOut (runCallbacks initialState (deliveries steps))
  /\ lastMidiNote (fst (runSession initialState steps))
     = lastMidiNote (runCallbacks initialState (deliveries steps)).
Proof.
  assert (Heq : transcription (fst (runSession initialState steps))
                = transcription (runCallbacks initialState (deliveries steps)))
    by now apply runSession_transcription.
  destruct (transcription_fields _ _ Heq) as (_ & _ & _ & Hm & _ & Hn).
  now split.
Qed.

(** X11. The main loop does not influence the transcription.  However
    its passes are interleaved with the callbacks, and whether or not they
    display and reset anything, the sounding note, the smoothing
    counters, the overlap buffer, the frame counter, the MIDI messages
    sent and the detection log are those of the callbacks alone, run on
    the delivered buffers: the loop writes only [noteChanged],
    [noteOffMidiNote] and [callbackCount], which the callback never
    reads to decide anything. *)
Theorem main_loop_does_not_interfere `{Externals} (steps : list SessionStep) :
  let st := fst (runSession initialState steps) in
  let st' := runCallbacks initialState (deliveries steps) in
  transcription st = transcription st'
  /\ midiOut st = midiOut st'
  /\ recordedDetections st = recordedDetections st'
  /\ lastMidiNote st = lastMidiNote st'
  /\ windowLog st = windowLog st'.
Proof.
  intros st st'.
  assert (Heq : transcription st = transcription st')
    by now apply runSession_transcription.
  destruct (transcription_fields st st' Heq) as (_ & _ & Hl & Hm & Hr & Hn).
  now repeat match goal with |- _ /\ _ => split end.
Qed.

(** *** The effects of a session *)

Lemma session_effects_kind `{Externals} steps : forall st,
  Forall (fun e => isSessionEffect e = true) (snd (runSession st steps)).
Proof.
  induction steps as [|s steps IH]; intros st; [ constructor | ].
  destruct s as [buffer|fiveSeconds].
  - rewrite runSession_deliver. cbn [snd]. apply Forall_app. split; [ | apply IH ].
    unfold midiSince. apply Forall_forall. intros e He.
    apply in_map_iff in He. destruct He as (m & <- & _). reflexivity.
  - rewrite runSession_poll. cbn [snd]. apply Forall_app. split; [ | apply IH ].
    apply Forall_forall. intros e He.
    apply in_map_iff in He. destruct He as (m & <- & _). reflexivity.
Qed.

Lemma midiWritten_app l1 l2 : midiWritten (l1 ++ l2) = midiWritten l1 ++ midiWritten l2.
Proof. unfold midiWritten. apply flat_map_app. Qed.

Lemma midiWritten_messages l : midiWritten (map Pm_WriteShort l) = l.
Proof. induction l as [|m l IH]; cbn; [ reflexivity | now f_equal ]. Qed.

Lemma midiWritten_lines l : midiWritten (map Cout l) = [].
Proof. induction l as [|m l IH]; cbn; [ reflexivity | exact IH ]. Qed.

Lemma skipn_length_app {A : Type} (l more : list A) :
  skipn (List.length l) (l ++ more) = more.
Proof. induction l as [|x l IH]; [ reflexivity | exact IH ]. Qed.

(** A step of the state machine only appends to the MIDI stream. *)
Lemma smoothingStep_midiOut_extends base st f n ts :
  (exists new, midiOut st = base ++ new) ->
  exists new, midiOut (smoothingStep st f n ts) = base ++ new.
Proof.
  intros (new & Hnew).
  unfold smoothingStep, onDetection, onSilence.
  repeat match goal with
         | |- context [if ?c then _ else _] => destruct c; cbn [midiOut]
         end;
    rewrite Hnew, <- ?app_assoc; eexists; reflexivity.
Qed.

Lemma midiOut_extends_preserved base :
  Preserved (fun st => exists new, midiOut st = base ++ new).
Proof.
  split; intros; [ now apply smoothingStep_midiOut_extends | assumption | assumption ].
Qed.

Lemma paCallback_midiOut_extends `{Externals} st input :
  exists new, midiOut (paCallback st input) = midiOut st ++ new.
Proof.
  apply (paCallback_preserved _ (midiOut_extends_preserved (midiOut st))).
  exists []. now rewrite app_nil_r.
Qed.

Lemma pollStep_midiOut st fiveSeconds :
  midiOut (fst (pollStep st fiveSeconds)) = midiOut st.
Proof.
  now destruct (transcription_fields _ _ (pollStep_transcription st fiveSeconds))
    as (_ & _ & _ & Hm & _).
Qed.

(** The MIDI messages among the effects of a session are what the
    session appended to the MIDI stream. *)
Lemma session_midi `{Externals} steps : forall st,
  midiOut (fst (runSession st steps))
  = midiOut st ++ midiWritten (snd (runSession st steps)).
Proof.
  induction steps as [|s steps IH]; intros st.
  - cbn. now rewrite app_nil_r.
  - destruct s as [buffer|fiveSeconds].
    + rewrite runSession_deliver. cbn [fst snd].
      rewrite IH, midiWritten_app. unfold midiSince. rewrite midiWritten_messages.
      destruct (paCallback_midiOut_extends st buffer) as (new & ->).
      now rewrite skipn_length_app, app_assoc.
    + rewrite runSession_poll. cbn [fst snd].
      now rewrite IH, midiWritten_app, midiWritten_lines, pollStep_midiOut.
Qed.

(** *** Properties kept by callbacks and passes of the loop alike *)

Section SessionRuns.

Context `{Externals}.
Variable P : State -> Prop.
Hypothesis HP : Preserved P.
Hypothesis Hpoll : forall st fiveSeconds, P st -> P (fst (pollStep st fiveSeconds)).

Lemma runSession_preserved steps : forall st, P st -> P (fst (runSession st steps)).
Proof.
  induction steps as [|s steps IH]; intros st Hst; [ exact Hst | ].
  destruct s as [buffer|fiveSeconds].
  - rewrite runSession_deliver. cbn [fst]. now apply IH, paCallback_preserved.
  - rewrite runSession_poll. cbn [fst]. now apply IH, Hpoll.
Qed.

End SessionRuns.

Lemma smoothingStep_changeHasNote st f n ts :
  changeHasNote st -> changeHasNote (smoothingStep st f n ts).
Proof.
  unfold changeHasNote. intros Hst.
  unfold smoothingStep. destruct (validNote n f) eqn:Hv.
  - assert (Hpos : 0 < n).
    { unfold validNote in Hv. apply andb_prop in Hv. now apply Z.ltb_lt. }
    unfold onDetection. destruct (_ && _);
      cbn [noteChanged currentMidiNote noteOffMidiNote]; [ now left | exact Hst ].
  - unfold onSilence.
    destruct (_ && (0 <? lastMidiNote st)) eqn:Hfire;
      cbn [noteChanged currentMidiNote noteOffMidiNote]; [ | exact Hst ].
    apply andb_prop in Hfire. destruct Hfire as [_ Hlast]. apply Z.ltb_lt in Hlast.
    now right.
Qed.

Lemma pollStep_noteChanged st fiveSeconds :
  noteChanged (fst (pollStep st fiveSeconds)) = false.
Proof.
  rewrite pollStep_fst. unfold logThroughput, displayNoteChange.
  destruct fiveSeconds, (noteChanged st) eqn:E;
    repeat match goal with
           | |- context [if ?c then _ else _] => destruct c
           end; cbn; (reflexivity || exact E).
Qed.

Lemma displayReady_preserved : Preserved displayReady.
Proof.
  unfold displayReady.
  split.
  - intros st f n ts [H1 H2].
    split; [ now apply smoothingStep_displayInSync | now apply smoothingStep_changeHasNote ].
  - intros st buffer frames log Hst. exact Hst.
  - intros st Hst. exact Hst.
Qed.

Lemma pollStep_displayReady st fiveSeconds :
  displayReady st -> displayReady (fst (pollStep st fiveSeconds)).
Proof.
  unfold displayReady, changeHasNote. intros [Hsync _].
  split; [ | rewrite pollStep_noteChanged; discriminate ].
  pose proof (pollStep_transcription st fiveSeconds) as Heq.
  unfold transcription in Heq.
  injection Heq as H1 H2 H3 H4 H5 H6 H7 H8 H9 H10 H11 H12.
  unfold displayInSync in *. now rewrite H1, H2, H3, H11.
Qed.

(** X12. What a pass of the main loop displays, the callback and the
    pass being taken as indivisible steps.  At any point of a session a
    pass prints at most one note line, and what it prints depends only on
    what is pending at that moment: with no change of note pending it
    prints no note line; with a change pending and a note sounding it
    prints one line, with the frequency and the name of the note of the
    last logged detection; with a change pending and nothing sounding it
    prints one line naming a note that was turned off.  After the pass no
    change is pending.  There is one flag for all changes, so changes
    that follow one another between two passes are displayed as one: the
    line shows the latest state, and the earlier changes are not
    displayed. *)
Theorem main_loop_displays_pending_change `{Externals}
    (steps : list SessionStep) (fiveSeconds : bool) :
  let st := fst (runSession initialState steps) in
  let shown := snd (displayNoteChange st) in
  (noteChanged st = false -> shown = [])
  /\ (noteChanged st = true -> 0 < lastMidiNote st ->
      exists earlier det,
        recordedDetections st = earlier ++ [det]
        /\ midiNote det = lastMidiNote st
        /\ shown = [("Detected Frequency: " ++ Ostream.put_double (frequencyHz det)
                     ++ " Hz -> Transcribed Note: " ++ getNoteName (midiNote det))%string])
  /\ (noteChanged st = true -> lastMidiNote st = 0 ->
      0 < noteOffMidiNote st
      /\ shown = [("Note Off: " ++ getNoteName (noteOffMidiNote st))%string])
  /\ 0 <= lastMidiNote st
  /\ (List.length shown <= 1)%nat
  /\ (exists logged, snd (pollStep st fiveSeconds) = shown ++ logged)
  /\ noteChanged (fst (pollStep st fiveSeconds)) = false
  /\ snd (displayNoteChange (fst (pollStep st fiveSeconds))) = [].
Proof.
  intros st shown.
  assert (Hready : displayReady st).
  { apply (runSession_preserved displayReady displayReady_preserved).
    - intros s five. apply pollStep_displayReady.
    - split; [ apply displayInSync_initial | ].
      unfold changeHasNote. cbn. discriminate. }
  destruct Hready as [(Hcur & Hnn & Hquiet & Hsound) Hchange].
  unfold changeHasNote in Hchange.
  split; [ | split; [ | split; [ | split; [ exact Hnn | split; [ | split; [ | split ] ] ] ] ] ].
  - intros Hno. unfold shown, displayNoteChange. now rewrite Hno.
  - intros Hyes Hpos. destruct (Hsound Hpos) as (earlier & det & Hlog & Hnote & Hfreq).
    exists earlier, det. split; [ exact Hlog | split; [ exact Hnote | ] ].
    unfold shown, displayNoteChange. rewrite Hyes, Hcur.
    replace (0 <? lastMidiNote st) with true by (symmetry; now apply Z.ltb_lt).
    cbn [snd]. unfold detectedLine. now rewrite Hcur, Hfreq, Hnote.
  - intros Hyes Hzero. specialize (Hchange Hyes). rewrite Hcur, Hzero in Hchange.
    assert (Hoff : 0 < noteOffMidiNote st) by (destruct Hchange; [ lia | assumption ]).
    split; [ exact Hoff | ].
    unfold shown, displayNoteChange. rewrite Hyes, Hcur, Hzero.
    change (0 <? 0) with false.
    replace (0 <? noteOffMidiNote st) with true by (symmetry; now apply Z.ltb_lt).
    reflexivity.
  - unfold shown, displayNoteChange.
    repeat match goal with
           | |- context [if ?c then _ else _] => destruct c
           end; cbn [snd List.length]; lia.
  - rewrite pollStep_snd. now eexists.
  - apply pollStep_noteChanged.
  - unfold displayNoteChange. now rewrite pollStep_noteChanged.
Qed.

(** Two changes before a pass: the note A4 starts and is replaced by D5
    while the loop sleeps.  Two note-ons were sent; the pass prints one
    line, for D5. *)
Lemma main_loop_displays_pending_change_witness :
  noteOns (midiOut
             (fst (runSession (H := codedSpectrum) initialState
                     [Deliver (codedWindow 75); Deliver (codedWindow 100)])))
  = [69; 74]
  /\ snd (displayNoteChange
            (fst (runSession (H := codedSpectrum) initialState
                    [Deliver (codedWindow 75); Deliver (codedWindow 100)])))
     = ["Detected Frequency: 585.938 Hz -> Transcribed Note: D5"%string].
Proof.
  split; [ vm_compute; reflexivity | ].
  destruct (main_loop_displays_pending_change (H := codedSpectrum)
              [Deliver (codedWindow 75); Deliver (codedWindow 100)] false)
    as (_ & Hshown & _).
  destruct Hshown as (earlier & det & Hlog & _ & ->);
    [ vm_compute; reflexivity | vm_compute; reflexivity | ].
  assert (Hdet : det
                 = last (recordedDetections
                           (fst (runSession (H := codedSpectrum) initialState
                                   [Deliver (codedWindow 75); Deliver (codedWindow 100)])))
                        firstToneDetection)
    by (rewrite Hlog; symmetry; apply last_last).
  rewrite Hdet. vm_compute. reflexivity.
Defined.

(** *** The throughput line *)

Lemma smoothingStep_callbackCount st f n ts :
  callbackCount (smoothingStep st f n ts) = callbackCount st.
Proof.
  unfold smoothingStep, onDetection, onSilence.
  repeat match goal with
         | |- context [if ?c then _ else _] => destruct c; cbn
         end; reflexivity.
Qed.

Lemma paCallback_callbackCount `{Externals} st input :
  callbackCount (paCallback st input) = u64_add (callbackCount st) 1.
Proof.
  unfold paCallback, drainWindows.
  change (callbackCount (bumpCallbackCount ?s)) with (u64_add (callbackCount s) 1).
  f_equal.
  apply (drainLoop_kept (fun s => callbackCount s = callbackCount st)).
  - intros s w Hs. unfold processWindow. now rewrite smoothingStep_callbackCount.
  - intros s buffer frames log Hs. exact Hs.
  - reflexivity.
Qed.

Lemma pollStep_callbackCount st fiveSeconds :
  callbackCount (fst (pollStep st fiveSeconds))
  = (if fiveSeconds then 0 else callbackCount st).
Proof.
  rewrite pollStep_fst. unfold logThroughput, displayNoteChange.
  destruct fiveSeconds;
    repeat match goal with
           | |- context [if ?c then _ else _] => destruct c
           end; reflexivity.
Qed.

Lemma session_callbackCount `{Externals} steps : forall st count,
  callbackCount st = count mod 2 ^ 64 ->
  callbackCount (fst (runSession st steps))
  = fold_left (fun c s =>
                 match s with
                 | Deliver _ => c + 1
                 | Poll fiveSeconds => if fiveSeconds then 0 else c
                 end) steps count mod 2 ^ 64.
Proof.
  induction steps as [|s steps IH]; intros st count Hcount; [ exact Hcount | ].
  destruct s as [buffer|fiveSeconds]; cbn [fold_left].
  - rewrite runSession_deliver. cbn [fst]. apply IH.
    rewrite paCallback_callbackCount, Hcount. unfold u64_add.
    now rewrite Zplus_mod_idemp_l.
  - rewrite runSession_poll. cbn [fst]. apply IH.
    rewrite pollStep_callbackCount. now destruct fiveSeconds.
Qed.

(** X13. The throughput line, the callback and the pass of the loop
    being taken as indivisible steps: at any point of a session
    [callbackCount] is the number of buffers delivered since the last
    throughput line (modulo [2^64], the counter being an [unsigned
    long]), a pass that finds five seconds elapsed ends its output with
    that number, and it resets the counter. *)
Theorem throughput_line_counts_callbacks `{Externals} (steps : list SessionStep) :
  let st := fst (runSession initialState steps) in
  callbackCount st = deliveredSinceLog steps mod 2 ^ 64
  /\ (exists shown,
        snd (pollStep st true)
        = shown ++ [("Callbacks processed in last 5s: "
                     ++ Ostream.put_int (deliveredSinceLog steps mod 2 ^ 64))%string])
  /\ callbackCount (fst (pollStep st true)) = 0
  /\ callbackCount (fst (pollStep st false)) = callbackCount st.
Proof.
  intros st.
  assert (Hcount : callbackCount st = deliveredSinceLog steps mod 2 ^ 64)
    by (apply session_callbackCount; reflexivity).
  split; [ exact Hcount | split; [ | split ] ].
  - rewrite pollStep_snd. eexists. f_equal.
    unfold logThroughput. cbn [snd]. unfold throughputLine. rewrite <- Hcount.
    f_equal. f_equal. f_equal.
    unfold displayNoteChange.
    repeat match goal with
           | |- context [if ?c then _ else _] => destruct c
           end; reflexivity.
  - apply pollStep_callbackCount.
  - apply pollStep_callbackCount.
Qed.

(** ** The program *)

Lemma filter_session_effects c effects :
  Forall (fun e => isSessionEffect e = true) effects ->
  filter (isCall c) effects = [].
Proof.
  induction 1 as [|e effects He _ IH]; [ reflexivity | ].
  cbn [filter]. rewrite IH.
  destruct e; try discriminate He; now destruct c.
Qed.

Lemma calls_app c l1 l2 : calls c (l1 ++ l2) = (calls c l1 + calls c l2)%nat.
Proof. unfold calls. now rewrite filter_app, length_app. Qed.

Lemma calls_session `{Externals} c st steps : calls c (snd (runSession st steps)) = O.
Proof.
  unfold calls. now rewrite (filter_session_effects c _ (session_effects_kind steps st)).
Qed.

Lemma filesWritten_app l1 l2 : filesWritten (l1 ++ l2) = filesWritten l1 ++ filesWritten l2.
Proof. unfold filesWritten. apply flat_map_app. Qed.

Lemma filesWritten_session `{Externals} st steps :
  filesWritten (snd (runSession st steps)) = [].
Proof.
  pose proof (session_effects_kind steps st) as Hkind.
  induction Hkind as [|e effects He _ IH]; [ reflexivity | ].
  destruct e; try discriminate He; exact IH.
Qed.

Lemma fftw_session_effects ok effects : forall acc,
  Forall (fun e => isSessionEffect e = true) effects ->
  fold_left (fftwEffect ok) effects acc = acc.
Proof.
  induction effects as [|e effects IH]; intros acc Hkind; [ reflexivity | ].
  inversion Hkind as [|e' effects' He Hrest]; subst.
  cbn [fold_left]. rewrite <- (IH acc Hrest) at 2. f_equal.
  destruct e; try discriminate He; reflexivity.
Qed.

(** The shape of the teardown. *)
Lemma teardown_shape `{Externals} env st :
  teardown env st
  = (if 0 <? lastMidiNote st then [Pm_WriteShort (NoteOff (lastMidiNote st))] else [])
    ++ snd (runSession st (map Deliver (lateBuffers env)))
    ++ [Pa_StopStream]
    ++ (if negb (paStopStreamResult env =? paNoError)
        then [paErrorLine env (paStopStreamResult env)] else [])
    ++ [Pa_CloseStream]
    ++ (if negb (paCloseStreamResult env =? paNoError)
        then [paErrorLine env (paCloseStreamResult env)] else [])
    ++ [Pm_Close; Pm_Terminate; Pa_Terminate; CleanupFFTW;
        Cout "Transcription stopped and cleaned up.";
        Cout "Saving recorded detections to frequency_data.txt..."]
    ++ (if outputFileOpens env
        then [WriteFile
                (writeLog (recordedDetections
                             (fst (runSession st (map Deliver (lateBuffers env))))));
              Cout ("Successfully saved "
                    ++ Ostream.put_int
                         (Z.of_nat (List.length
                            (recordedDetections
                               (fst (runSession st (map Deliver (lateBuffers env)))))))
                    ++ " detections (time_s,freq_hz,midi) to frequency_data.txt");
              Cout "Format: time_seconds,frequency_hz,midi_note per line."]
        else [Cerr "Error: Unable to open frequency_data.txt for writing."]).
Proof.
  unfold teardown.
  now destruct (runSession st (map Deliver (lateBuffers env))) as [st' late].
Qed.

Ltac main_paths env :=
  unfold main;
  destruct (paInitializeResult env =? paNoError) eqn:Epa; cbn [negb];
  [ destruct (pmInitializeResult env =? pmNoError) eqn:Epm; cbn [negb];
    [ destruct (findOutputDevice (midiDevices env) 0) as [[outputDevice name]|] eqn:Edev;
      [ destruct (pmOpenOutputResult env =? pmNoError) eqn:Eopen; cbn [negb];
        [ destruct (defaultInputDevice env =? paNoDevice) eqn:Ein;
          [ | destruct (paOpenStreamResult env =? paNoError) eqn:Estream; cbn [negb];
              [ destruct (paStartStreamResult env =? paNoError) eqn:Estart; cbn [negb];
                [ | ] | ] ] | ] | ] | ] | ].

(** The run of a program that got as far as starting the stream. *)
Lemma main_started `{Externals} env :
  fst (main env) = 0 ->
  exists startup,
    snd (main env)
    = startup
      ++ snd (runSession initialState (session env))
      ++ teardown env (fst (runSession initialState (session env)))
    /\ midiWritten startup = []
    /\ filesWritten startup = [].
Proof.
  main_paths env; cbn [fst snd]; try discriminate.
  intros _.
  destruct (runSession initialState (session env)) as [st during].
  cbn [fst snd].
  match goal with
  | |- exists _, ?startup ++ [?line] ++ _ = _ /\ _ => exists (startup ++ [line])
  end.
  split; [ now rewrite <- app_assoc | split; reflexivity ].
Qed.

(** X14. The exit status of [main].  It is 0 exactly when all seven
    startup steps succeed: PortAudio and PortMidi initialise, the device
    table has an output device, the MIDI output opens, there is a default
    input device, and the stream opens and starts.  Otherwise it is 1.
    Errors on stopping or closing the stream and a log file that cannot
    be opened do not change the exit status. *)
Theorem main_exit_status `{Externals} (env : Environment) :
  (fst (main env) = 0 \/ fst (main env) = 1)
  /\ (fst (main env) = 0 <-> startsUp env).
Proof.
  unfold startsUp, paNoError, pmNoError, paNoDevice.
  pose proof (findOutputDevice_found (midiDevices env) 0) as Hfound.
  main_paths env; unfold paNoError, pmNoError, paNoDevice in *;
    try destruct (runSession initialState (session env)) as [st during];
    cbn [fst];
    repeat match goal with
           | E : (_ =? _) = true |- _ => apply Z.eqb_eq in E
           | E : (_ =? _) = false |- _ => apply Z.eqb_neq in E
           end;
    (split; [ (now left) || (now right) | ]);
    (split; [ try discriminate | try (intros (? & ? & ? & ? & ? & ? & ?); congruence) ]).
  - intros _. repeat match goal with |- _ /\ _ => split end; try assumption.
    apply Hfound. now eexists; eexists.
  - intros (_ & _ & Hdev & _). apply Hfound in Hdev.
    destruct Hdev as (found & name & Hdev). discriminate.
Qed.

Lemma main_exit_status_witness :
  fst (main (H := codedSpectrum) workingEnvironment) = 0.
Proof.
  apply (main_exit_status (H := codedSpectrum) workingEnvironment).
  unfold startsUp. cbn.
  repeat match goal with |- _ /\ _ => split end; try reflexivity; try discriminate.
  exists 2%nat. eexists. split; [ reflexivity | discriminate ].
Defined.

(** X15. A start that fails leaves no trace outside the console: when
    [main] returns 1 it has written no MIDI message and no file, and it
    has neither stopped a stream nor closed the MIDI output. *)
Theorem failed_start_writes_nothing `{Externals} (env : Environment) :
  fst (main env) <> 0 ->
  fst (main env) = 1
  /\ midiWritten (snd (main env)) = []
  /\ filesWritten (snd (main env)) = []
  /\ calls CallPmClose (snd (main env)) = O
  /\ calls CallPaStopStream (snd (main env)) = O.
Proof.
  main_paths env; cbn [fst snd];
    try (intros _; repeat match goal with |- _ /\ _ => split end; reflexivity).
  destruct (runSession initialState (session env)) as [st during].
  cbn [fst]. intros Hne. now contradiction Hne.
Qed.

Lemma failed_start_writes_nothing_witness :
  midiWritten
    (snd (main (H := codedSpectrum)
            {| paInitializeResult := 0;
               pmInitializeResult := 0;
               midiDevices := [None; Some {| deviceName := "in"; deviceOutput := 0 |}];
               pmOpenOutputResult := 0;
               defaultInputDevice := 0;
               paOpenStreamResult := 0;
               paStartStreamResult := 0;
               session := [Deliver (codedWindow 75)];
               lateBuffers := [];
               paStopStreamResult := 0;
               paCloseStreamResult := 0;
               outputFileOpens := true;
               paErrorText := fun _ => "error"%string;
               pmErrorText := fun _ => "error"%string |}))
  = [].
Proof.
  apply (failed_start_writes_nothing (H := codedSpectrum)).
  cbn. discriminate.
Defined.

Ltac count_calls :=
  rewrite ?teardown_shape; unfold paErrorLine, pmErrorLine; cbn [fst Z.eqb];
  repeat rewrite calls_app; rewrite ?calls_session;
  repeat match goal with
         | |- context [if ?c then _ else _] => destruct c
         end;
  unfold calls; cbn [filter isCall List.length app Nat.add fst Z.eqb];
  first [ reflexivity | lia ].

(** X16. Every library that [main] initialises is terminated exactly
    once, on every path, and none is terminated that was not
    initialised: [Pa_Terminate] is called once if [Pa_Initialize]
    succeeded and not at all otherwise, and the same holds for
    [Pm_Terminate] and [Pm_Initialize].  A stream that was opened is
    closed exactly once, also when it fails to start.  The MIDI output,
    however, is closed with [Pm_Close] only at the end of a run that
    started: when a later startup step fails it is left to
    [Pm_Terminate]. *)
Theorem main_terminates_what_it_initialises `{Externals} (env : Environment) :
  let effects := snd (main env) in
  calls CallInitializeFFTW effects = 1%nat
  /\ calls CallPaInitialize effects = 1%nat
  /\ calls CallPaTerminate effects
     = (if paInitializeResult env =? paNoError then 1%nat else 0%nat)
  /\ calls CallPmTerminate effects
     = (if pmInitializeResult env =? pmNoError
        then calls CallPmInitialize effects else 0%nat)
  /\ (calls CallPmInitialize effects <= 1)%nat
  /\ calls CallPaCloseStream effects
     = (if paOpenStreamResult env =? paNoError
        then calls CallPaOpenStream effects else 0%nat)
  /\ (calls CallPaOpenStream effects <= 1)%nat
  /\ calls CallPmClose effects = (if fst (main env) =? 0 then 1%nat else 0%nat)
  /\ calls CallPaStopStream effects = (if fst (main env) =? 0 then 1%nat else 0%nat).
Proof.
  main_paths env;
    try destruct (runSession initialState (session env)) as [st during] eqn:Erun;
    cbn [fst snd]; cbv zeta;
    try (assert (Hduring : during = snd (runSession initialState (session env)))
           by (now rewrite Erun); rewrite Hduring);
    repeat match goal with |- _ /\ _ => split end;
    count_calls.
Qed.

(** *** FFTW resources over a run *)

Lemma initializeFFTW_badReleases okInput okOutput okPlan lib :
  badReleases (snd (initializeFFTW okInput okOutput okPlan lib)) = badReleases lib.
Proof. destruct okInput, okOutput, okPlan; reflexivity. Qed.

Ltac run_fftw :=
  unfold fftwAfter; rewrite ?teardown_shape; unfold paErrorLine, pmErrorLine;
  repeat rewrite fold_left_app;
  repeat match goal with
         | |- context [if ?c then _ else _] => destruct c
         end;
  cbn [fold_left fftwEffect fst snd];
  repeat (match goal with
          | |- context [fold_left (fftwEffect ?ok) (snd (runSession ?s ?steps)) ?acc] =>
              rewrite (fftw_session_effects ok (snd (runSession s steps)) acc
                         (session_effects_kind steps s))
          end;
          cbn [fold_left fftwEffect fst snd]).

(** X17. What becomes of the FFTW resources over a run of [main].  The
    arrays and the plan that [initializeFFTW] obtained are released by
    exactly one [cleanupFFTW] on every path but two: when
    [Pm_Initialize] fails and when no MIDI output device is found,
    [main] returns without calling [cleanupFFTW] and everything
    [initializeFFTW] acquired is still held at exit.  On no path is a
    resource released twice or released without having been acquired. *)
Theorem main_releases_fftw `{Externals} (env : Environment)
    (okInput okOutput okPlan : bool) (lib : FftwLibrary) :
  handlesFresh lib ->
  let final := fftwAfter (okInput, okOutput, okPlan) (snd (main env)) lib in
  let skipped :=
    (paInitializeResult env =? paNoError)
    && (negb (pmInitializeResult env =? pmNoError)
        || match findOutputDevice (midiDevices env) 0 with
           | None => true
           | Some _ => false
           end) in
  badReleases (snd final) = badReleases lib
  /\ calls CallCleanupFFTW (snd (main env)) = (if skipped then 0%nat else 1%nat)
  /\ (skipped = false ->
      liveHandles (snd final) = liveHandles lib /\ fst final = noFftwGlobals)
  /\ (skipped = true -> final = initializeFFTW okInput okOutput okPlan lib).
Proof.
  intros Hfresh.
  pose proof (initialize_cleanup_balanced okInput okOutput okPlan lib Hfresh) as Hclean.
  pose proof (initializeFFTW_badReleases okInput okOutput okPlan lib) as Hbad.
  cbv zeta in Hclean.
  main_paths env;
    try destruct (runSession initialState (session env)) as [st during] eqn:Erun;
    cbn [fst snd andb orb negb]; cbv zeta;
    try (assert (Hduring : during = snd (runSession initialState (session env)))
           by (now rewrite Erun); rewrite Hduring);
    (split; [ run_fftw; rewrite ?Hclean; cbn [snd badReleases]; first [ reflexivity | exact Hbad ]
            | split; [ count_calls
                     | split; [ try discriminate; intros _; run_fftw; rewrite ?Hclean;
                                split; reflexivity
                              | try discriminate; intros _; run_fftw; reflexivity ] ] ]).
Qed.

Lemma main_releases_fftw_witness :
  liveHandles
    (snd (fftwAfter (true, true, true)
            (snd (main (H := codedSpectrum) workingEnvironment))
            {| nextHandle := 0; liveHandles := []; badReleases := [] |}))
  = [].
Proof.
  apply (main_releases_fftw (H := codedSpectrum) workingEnvironment true true true
           {| nextHandle := 0; liveHandles := []; badReleases := [] |}).
  - constructor.
  - reflexivity.
Defined.

(** *** The MIDI stream and the log file of a run *)

Lemma runSession_app `{Externals} st steps more :
  fst (runSession st (steps ++ more))
  = fst (runSession (fst (runSession st steps)) more).
Proof.
  unfold runSession at 1. rewrite fold_left_app.
  fold (runSession st steps).
  destruct (runSession st steps) as [st1 effects].
  now rewrite session_effects_append.
Qed.

Lemma deliveries_app steps more :
  deliveries (steps ++ more) = deliveries steps ++ deliveries more.
Proof. unfold deliveries. apply flat_map_app. Qed.

Lemma deliveries_deliver buffers : deliveries (map Deliver buffers) = buffers.
Proof. induction buffers as [|b buffers IH]; cbn; [ reflexivity | now f_equal ]. Qed.

Lemma countChar_app c s t :
  countChar c (s ++ t) = (countChar c s + countChar c t)%nat.
Proof.
  induction s as [|c' s IH]; [ reflexivity | ].
  cbn [append countChar]. rewrite IH. lia.
Qed.

Lemma countChar_free c s : freeOf c s = true -> countChar c s = O.
Proof.
  induction s as [|c' s IH]; [ reflexivity | ].
  cbn [freeOf countChar]. intros Hfree. apply andb_prop in Hfree.
  destruct Hfree as [Hc Hs]. apply negb_true_iff in Hc. rewrite Hc. now apply IH.
Qed.

Lemma countChar_writeDetection det : countChar linefeed (writeDetection det) = 1%nat.
Proof.
  rewrite writeDetection_fields.
  destruct (plain_free _ (plain_put_double (timeSec det))) as [_ Ht].
  destruct (plain_free _ (plain_put_double (frequencyHz det))) as [_ Hf].
  destruct (plain_free _ (plain_put_int (midiNote det))) as [_ Hn].
  rewrite countChar_app, (countChar_free _ _ Ht). cbn [countChar].
  change (Ascii.eqb comma linefeed) with false. cbn [Nat.add].
  rewrite countChar_app, (countChar_free _ _ Hf). cbn [countChar].
  change (Ascii.eqb comma linefeed) with false. cbn [Nat.add].
  rewrite countChar_app, (countChar_free _ _ Hn). cbn [countChar].
  reflexivity.
Qed.

Lemma countChar_writeLog detections :
  countChar linefeed (writeLog detections) = List.length detections.
Proof.
  induction detections as [|det detections IH]; [ reflexivity | ].
  cbn [writeLog fold_right List.length].
  rewrite countChar_app, countChar_writeDetection. fold (writeLog detections).
  now rewrite IH.
Qed.

Ltac teardown_midi :=
  rewrite teardown_shape; unfold paErrorLine;
  repeat rewrite midiWritten_app;
  repeat match goal with
         | |- context [if negb ?c then _ else _] => destruct c; cbn [negb]
         | |- context [if outputFileOpens ?e then _ else _] => destruct (outputFileOpens e)
         end.

(** X18. A run that started and in which no callback runs after the
    main loop has ended leaves the synthesiser silent.  The MIDI
    messages [main] and the callbacks have written are those of the
    callbacks on the delivered buffers, followed by a note-off for the
    sounding note if there is one; this stream is accepted by the
    monitor (no note-on while a note sounds, every note-off for the
    sounding note) and ends with no note sounding. *)
Theorem main_leaves_silence `{Externals} (env : Environment) :
  fst (main env) = 0 ->
  lateBuffers env = [] ->
  let st := runCallbacks initialState (deliveries (session env)) in
  midiWritten (snd (main env))
  = midiOut st ++ (if 0 <? lastMidiNote st then [NoteOff (lastMidiNote st)] else [])
  /\ activeAfter (midiWritten (snd (main env))) = Some 0.
Proof.
  intros Hok Hlate st.
  destruct (main_started env Hok) as (startup & Heffects & Hmidi & _).
  destruct (main_loop_quiet (session env)) as (Hm & Hn).
  fold st in Hm, Hn.
  assert (Hwritten :
            midiWritten (snd (main env))
            = midiOut st
              ++ (if 0 <? lastMidiNote st then [NoteOff (lastMidiNote st)] else [])).
  { rewrite Heffects, !midiWritten_app, Hmidi. cbn [app].
    pose proof (session_midi (session env) initialState) as Hsession.
    cbn [midiOut initialState app] in Hsession. rewrite <- Hsession, Hm.
    f_equal. teardown_midi; rewrite Hlate, Hn;
      destruct (0 <? lastMidiNote st); reflexivity. }
  split; [ exact Hwritten | ].
  rewrite Hwritten. apply (shutdownMidi_silent st).
  apply (runCallbacks_preserved midiConsistent midiConsistent_preserved),
    midiConsistent_initial.
Qed.

Lemma main_leaves_silence_witness :
  activeAfter (midiWritten (snd (main (H := codedSpectrum) workingEnvironment)))
  = Some 0.
Proof.
  apply (main_leaves_silence (H := codedSpectrum) workingEnvironment); reflexivity.
Defined.

(** X19. The log file of a run that started.  If [frequency_data.txt]
    can be opened, [main] writes it once, with the detections of all
    callbacks of the run, those after the end of the main loop included;
    otherwise it writes no file.  The file has exactly one line per
    note-on message sent to the MIDI output during the run, and the
    notes of its entries are the notes of those messages, in order. *)
Theorem main_log_matches_midi `{Externals} (env : Environment) :
  fst (main env) = 0 ->
  let detections :=
    recordedDetections
      (runCallbacks initialState (deliveries (session env) ++ lateBuffers env)) in
  filesWritten (snd (main env))
  = (if outputFileOpens env then [writeLog detections] else [])
  /\ map midiNote detections = noteOns (midiWritten (snd (main env)))
  /\ countChar linefeed (writeLog detections)
     = List.length (noteOns (midiWritten (snd (main env)))).
Proof.
  intros Hok detections.
  destruct (main_started env Hok) as (startup & Heffects & Hmidi & Hfiles).
  set (st := fst (runSession initialState (session env))) in *.
  set (st' := fst (runSession st (map Deliver (lateBuffers env)))).
  set (final := runCallbacks initialState (deliveries (session env) ++ lateBuffers env)).
  assert (Hfinal : transcription st' = transcription final).
  { unfold st', st. rewrite <- runSession_app.
    rewrite (runSession_transcription _ initialState initialState eq_refl).
    now rewrite deliveries_app, deliveries_deliver. }
  destruct (transcription_fields _ _ Hfinal) as (_ & _ & _ & Hm & Hr & _).
  assert (Hnotes : noteOns (midiWritten (snd (main env))) = map midiNote detections).
  { rewrite Heffects, !midiWritten_app, Hmidi. cbn [app].
    pose proof (session_midi (session env) initialState) as Hsession.
    cbn [midiOut initialState app] in Hsession. fold st in Hsession.
    rewrite <- Hsession.
    pose proof (session_midi (map Deliver (lateBuffers env)) st) as Hlate.
    fold st' in Hlate.
    assert (Htail : noteOns (midiWritten (teardown env st))
                    = noteOns (midiWritten
                                 (snd (runSession st (map Deliver (lateBuffers env)))))).
    { teardown_midi; rewrite !noteOns_app;
        destruct (0 <? lastMidiNote st); cbn; now rewrite ?app_nil_r. }
    rewrite noteOns_app, Htail, <- noteOns_app, <- Hlate, Hm.
    apply (runCallbacks_preserved detectionsMatchNoteOns detectionsMatchNoteOns_preserved).
    reflexivity. }
  split; [ | split ].
  - rewrite Heffects, !filesWritten_app, Hfiles, filesWritten_session. cbn [app].
    rewrite teardown_shape. unfold paErrorLine. rewrite !filesWritten_app.
    rewrite filesWritten_session. fold st'. rewrite Hr. fold detections.
    repeat match goal with
           | |- context [if negb ?c then _ else _] => destruct c; cbn [negb]
           end;
      destruct (0 <? lastMidiNote st), (outputFileOpens env); reflexivity.
  - now symmetry.
  - now rewrite countChar_writeLog, Hnotes, length_map.
Qed.

Lemma main_log_matches_midi_witness :
  filesWritten (snd (main (H := codedSpectrum) workingEnvironment))
  = [writeLog
       (recordedDetections
          (runCallbacks (H := codedSpectrum) initialState
             (deliveries (session workingEnvironment)
              ++ lateBuffers workingEnvironment)))].
Proof.
  apply (main_log_matches_midi (H := codedSpectrum) workingEnvironment).
  reflexivity.
Defined.

(** *** Callbacks after the end of the main loop *)

Lemma transition_head a b :
  0 < a -> a <> b -> exists rest, transition a b = NoteOff a :: rest.
Proof.
  intros Ha Hab. unfold transition.
  destruct (Z.eqb_spec a b); [ contradiction | ].
  replace (0 <? a) with true by (symmetry; now apply Z.ltb_lt).
  now eexists.
Qed.

Lemma transition_same a : transition a a = [].
Proof. unfold transition. now rewrite Z.eqb_refl. Qed.

Lemma smoothingStep_lateShape base A st f n ts :
  0 < A -> lateShape base A st -> lateShape base A (smoothingStep st f n ts).
Proof.
  unfold lateShape. intros HA (Hnn & new & Hout & Hnone & Hsome).
  split; [ now apply smoothingStep_lastMidiNote_nonneg | ].
  rewrite (smoothingStep_midiOut st f n ts Hnn), Hout, <- app_assoc.
  destruct new as [|ev new].
  - specialize (Hnone eq_refl). rewrite Hnone. cbn [app].
    destruct (Z.eq_dec A (lastMidiNote (smoothingStep st f n ts))) as [Hsame|Hdiff].
    + rewrite <- Hsame, transition_same. exists []. split; [ reflexivity | ].
      split; [ reflexivity | congruence ].
    + destruct (transition_head A _ HA Hdiff) as (rest & ->).
      exists (NoteOff A :: rest). split; [ reflexivity | ].
      split; [ discriminate | intros _; now exists rest ].
  - destruct (Hsome ltac:(discriminate)) as (rest & Hrest).
    injection Hrest as -> ->.
    eexists. split; [ reflexivity | ]. cbn [app].
    split; [ discriminate | intros _; now eexists ].
Qed.

Lemma lateShape_preserved base A : 0 < A -> Preserved (lateShape base A).
Proof.
  intros HA.
  split; intros; [ now apply smoothingStep_lateShape | assumption | assumption ].
Qed.

Lemma runCallbacks_transcription `{Externals} buffers : forall st st',
  transcription st = transcription st' ->
  transcription (runCallbacks st buffers) = transcription (runCallbacks st' buffers).
Proof.
  induction buffers as [|b buffers IH]; intros st st' Heq; [ exact Heq | ].
  cbn [runCallbacks fold_left]. apply IH. now apply paCallback_transcription.
Qed.

Lemma runSession_deliveries `{Externals} buffers : forall st,
  fst (runSession st (map Deliver buffers)) = runCallbacks st buffers.
Proof.
  induction buffers as [|b buffers IH]; intros st; [ reflexivity | ].
  cbn [map]. rewrite runSession_deliver. cbn [fst]. apply IH.
Qed.

(** X20. [main] sends its final note-off before it stops the stream,
    and it leaves [lastMidiNote] as it is.  What a run that started has
    written to the MIDI output is therefore the messages of the
    callbacks up to the end of the main loop, the final note-off if a
    note sounded then, and after it whatever the callbacks that still
    run before [Pa_StopStream] write.  If nothing sounded at the end of
    the loop, the stream is well formed and leaves sounding whatever note
    the late callbacks started last.  If a note sounded and a late
    callback writes anything, the first thing it writes is a second
    note-off for that note: the stream is no longer one the monitor
    accepts. *)
Theorem late_callbacks_follow_final_note_off `{Externals} (env : Environment) :
  fst (main env) = 0 ->
  let st := runCallbacks initialState (deliveries (session env)) in
  let st' := runCallbacks st (lateBuffers env) in
  exists late,
    midiOut st' = midiOut st ++ late
    /\ midiWritten (snd (main env))
       = midiOut st
         ++ (if 0 <? lastMidiNote st then [NoteOff (lastMidiNote st)] else [])
         ++ late
    /\ (lastMidiNote st = 0 ->
        activeAfter (midiWritten (snd (main env))) = Some (lastMidiNote st'))
    /\ (0 < lastMidiNote st -> late <> [] ->
        activeAfter (midiWritten (snd (main env))) = None).
Proof.
  intros Hok st st'.
  destruct (main_started env Hok) as (startup & Heffects & Hmidi & _).
  destruct (main_loop_quiet (session env)) as (Hm & Hn).
  fold st in Hm, Hn.
  set (stS := fst (runSession initialState (session env))) in *.
  assert (HS : transcription stS = transcription st)
    by (now apply runSession_transcription).
  assert (Hlate : transcription (fst (runSession stS (map Deliver (lateBuffers env))))
                  = transcription st').
  { rewrite runSession_deliveries. now apply runCallbacks_transcription. }
  destruct (transcription_fields _ _ Hlate) as (_ & _ & _ & Hm' & _ & _).
  pose proof (session_midi (map Deliver (lateBuffers env)) stS) as Hsession.
  rewrite Hm', Hm in Hsession.
  set (late := midiWritten (snd (runSession stS (map Deliver (lateBuffers env))))) in *.
  assert (Hconsistent : midiConsistent st).
  { apply (runCallbacks_preserved midiConsistent midiConsistent_preserved),
      midiConsistent_initial. }
  assert (Hconsistent' : midiConsistent st').
  { apply (runCallbacks_preserved midiConsistent midiConsistent_preserved), Hconsistent. }
  assert (Hwritten :
            midiWritten (snd (main env))
            = midiOut st
              ++ (if 0 <? lastMidiNote st then [NoteOff (lastMidiNote st)] else [])
              ++ late).
  { rewrite Heffects, !midiWritten_app, Hmidi. cbn [app].
    pose proof (session_midi (session env) initialState) as Hduring.
    cbn [midiOut initialState app] in Hduring. fold stS in Hduring.
    rewrite <- Hduring, Hm. f_equal.
    teardown_midi; fold late; rewrite Hn;
      destruct (0 <? lastMidiNote st); cbn; now rewrite ?app_nil_r. }
  exists late. split; [ exact Hsession | split; [ exact Hwritten | split ] ].
  - intros Hquiet. rewrite Hwritten, Hquiet. cbn [Z.ltb Z.compare app].
    rewrite <- Hsession. apply Hconsistent'.
  - intros Hsound Hsome. rewrite Hwritten.
    replace (0 <? lastMidiNote st) with true by (symmetry; now apply Z.ltb_lt).
    assert (Hshape : lateShape (midiOut st) (lastMidiNote st) st').
    { apply (runCallbacks_preserved _ (lateShape_preserved _ _ Hsound)).
      split; [ lia | ]. exists []. rewrite app_nil_r.
      split; [ reflexivity | split; [ reflexivity | congruence ] ]. }
    destruct Hshape as (_ & new & Hnew & _ & Hhead).
    assert (new = late) by (rewrite Hsession in Hnew; now apply app_inv_head in Hnew).
    subst new. destruct (Hhead Hsome) as (rest & ->).
    unfold activeAfter. rewrite !fold_left_app.
    destruct Hconsistent as [Hactive _]. unfold activeAfter in Hactive.
    rewrite Hactive. cbn [fold_left monitor].
    replace (0 <? lastMidiNote st) with true by (symmetry; now apply Z.ltb_lt).
    rewrite Z.eqb_refl. cbn [andb fold_left monitor Z.ltb Z.compare].
    apply monitor_None.
Qed.

Lemma late_callbacks_follow_final_note_off_witness :
  activeAfter (midiWritten (snd (main (H := codedSpectrum) lateEnvironment))) = None.
Proof.
  destruct (late_callbacks_follow_final_note_off (H := codedSpectrum) lateEnvironment
              eq_refl) as (late & Hlate & _ & _ & Hnone).
  apply Hnone.
  - vm_compute. reflexivity.
  - intros ->. rewrite app_nil_r in Hlate. vm_compute in Hlate. discriminate.
Defined.

(** *** The order of the detection log *)

Lemma increasingFrom_length n : forall ks lo,
  increasingFrom lo ks = true ->
  Forall (fun k => (k < n)%nat) ks ->
  (List.length ks + lo <= Nat.max n lo)%nat.
Proof.
  induction ks as [|k ks IH]; intros lo Hinc Hbound; cbn [List.length]; [ lia | ].
  cbn [increasingFrom] in Hinc. apply andb_prop in Hinc. destruct Hinc as [Hk Hrest].
  apply Nat.leb_le in Hk.
  inversion Hbound as [|k' ks' Hkn Hks]; subst.
  specialize (IH (S k) Hrest Hks). lia.
Qed.

Lemma windowStep_logged `{Externals} st :
  recordedDetections (windowStep st) = recordedDetections st
  \/ exists det,
       recordedDetections (windowStep st) = recordedDetections st ++ [det]
       /\ timeSec det = timestampSec (framesProcessed st).
Proof.
  unfold windowStep, advance, processWindow.
  rewrite withBuffer_recordedDetections, withBuffer_framesProcessed.
  destruct (smoothingStep_logged
              (withBuffer st (overlapBuffer st) (framesProcessed st)
                 (windowLog st ++ [(framesProcessed st, takeWindow st)]))
              (detectFundamentalFrequency (takeWindow st))
              (frequencyToMidiNote (detectFundamentalFrequency (takeWindow st)))
              (timestampSec (framesProcessed st))) as [Hsame|[_ Hnew]].
  - left. rewrite Hsame. apply withBuffer_recordedDetections.
  - right.
    exists {| timeSec := timestampSec (framesProcessed st);
              frequencyHz := detectFundamentalFrequency (takeWindow st);
              midiNote := frequencyToMidiNote (detectFundamentalFrequency (takeWindow st)) |}.
    rewrite Hnew, withBuffer_recordedDetections. split; reflexivity.
Qed.

Lemma windowStep_detectionsInWindowOrder `{Externals} st :
  detectionsInWindowOrder st -> detectionsInWindowOrder (windowStep st).
Proof.
  intros [Hoffsets (ks & Htimes & Hinc & Hbound)].
  split; [ now apply windowStep_offsets | ].
  assert (Hmore : Forall (fun k => (k < List.length (windowLog (windowStep st)))%nat) ks).
  { rewrite windowStep_windowLog, length_app. cbn [List.length].
    revert Hbound. apply Forall_impl. intros k Hk. lia. }
  destruct (windowStep_logged st) as [Hsame|(det & Hnew & Htime)].
  - exists ks. unfold detectionsByWindow. rewrite Hsame.
    split; [ exact Htimes | split; [ exact Hinc | exact Hmore ] ].
  - exists (ks ++ [List.length (windowLog st)]). unfold detectionsByWindow.
    rewrite Hnew, !map_app, Htimes. cbn [map]. rewrite Htime.
    destruct Hoffsets as [_ Hframes]. rewrite Hframes.
    split; [ reflexivity | split ].
    + apply increasingFrom_snoc; [ exact Hinc | exact Hbound | lia ].
    + apply Forall_app. split; [ exact Hmore | ].
      constructor; [ | constructor ].
      rewrite windowStep_windowLog, length_app. cbn [List.length]. lia.
Qed.

Lemma drainLoop_detectionsInWindowOrder `{Externals} fuel : forall st,
  detectionsInWindowOrder st -> detectionsInWindowOrder (drainLoop fuel st).
Proof.
  induction fuel as [|fuel IH]; intros st Hst; cbn [drainLoop]; [ assumption | ].
  destruct (windowReady st); [ | assumption ].
  now apply IH, windowStep_detectionsInWindowOrder.
Qed.

Lemma paCallback_detectionsInWindowOrder `{Externals} st input :
  detectionsInWindowOrder st -> detectionsInWindowOrder (paCallback st input).
Proof.
  intros Hst. unfold paCallback, drainWindows.
  change (detectionsInWindowOrder
            (drainLoop (List.length (overlapBuffer (pushSamples st input)))
                       (pushSamples st input))).
  apply drainLoop_detectionsInWindowOrder. exact Hst.
Qed.

(** X21. The detection log is in window order with at most one entry
    per analysis window.  After any stream of buffers there are window
    indices [ks], strictly increasing and all below the number of windows
    analysed, such that the [i]-th detection carries the time of the
    centre of window [ks[i]], computed from that window's frame offset;
    so the log never has more entries than windows were analysed. *)
Theorem detections_in_window_order `{Externals} (buffers : list (list float)) :
  let st := runCallbacks initialState buffers in
  exists ks,
    map timeSec (recordedDetections st)
    = map (fun k => timestampSec (windowOffset k)) ks
    /\ increasingFrom 0 ks = true
    /\ Forall (fun k => (k < List.length (windowLog st))%nat) ks
    /\ (List.length (recordedDetections st) <= List.length (windowLog st))%nat.
Proof.
  intros st.
  assert (Hrun : forall bs s,
             detectionsInWindowOrder s -> detectionsInWindowOrder (runCallbacks s bs)).
  { induction bs as [|b bs IH]; intros s Hs; [ exact Hs | ].
    cbn [runCallbacks fold_left]. now apply IH, paCallback_detectionsInWindowOrder. }
  destruct (Hrun buffers initialState) as [_ (ks & Htimes & Hinc & Hbound)].
  { split; [ split; reflexivity | ]. exists []. split; [ reflexivity | ].
    split; [ reflexivity | constructor ]. }
  fold st in Htimes, Hbound.
  exists ks. split; [ exact Htimes | split; [ exact Hinc | split; [ exact Hbound | ] ] ].
  pose proof (increasingFrom_length _ ks O Hinc Hbound) as Hlen.
  apply (f_equal (@List.length float)) in Htimes. rewrite !length_map in Htimes.
  lia.
Qed.
